(** * webshot: a shallow embedding of the capture service's core

    The development follows the TypeScript sources module by module:
    - [RateLimit]    middleware/rateLimit.ts   (sliding-window limiter)
    - [Browser]      services/browser.ts       (page pool: acquire/release)
    - [Sitemap]      services/sitemap.ts       (parsers, collectAllUrls, sort)
    - [Discovery]    services/sitemap.ts       (discoverSitemapUrl, robots.txt)
    - [SiteCapture]  routes/site.ts            (background worker group)
    - [Cleanup]      jobs/cleanup.ts + services/database.ts (expiry sweep)
    - [SiteSweep]    jobs/cleanup.ts + db/schema.sql (site captures, cascade)
    - [Routes]       routes/download.ts, routes/list.ts (one screenshot by id)

    JavaScript numbers that the code uses as counters and millisecond
    instants are integers well below 2^53; they are modelled as [Z].
    Strings are modelled as [string] (code units below 256). *)

From Stdlib Require Import ZArith Ascii String List Lia Bool Sorted.
From stdpp Require Import gmap strings list.

Import ListNotations.
Local Open Scope string_scope.
Local Open Scope list_scope.
Local Open Scope Z_scope.

(** ** Small JavaScript helpers shared by the modules *)

Module JS.

(** [Math.ceil(x / d)] for integers [x] and a positive integer [d]. *)
Definition ceil_div (x d : Z) : Z := - ((- x) / d).

(** [\d] of a regular expression. *)
Definition is_digit (c : ascii) : bool :=
  let n := nat_of_ascii c in (48 <=? n)%nat && (n <=? 57)%nat.

Definition digit_value (c : ascii) : Z := Z.of_nat (nat_of_ascii c) - 48.

(** [parseInt(ds, 10)] on a string of decimal digits. *)
Definition parseInt (ds : list ascii) : Z :=
  fold_left (fun acc c => 10 * acc + digit_value c) ds 0.

(** Longest prefix of digits, and what follows it. *)
Fixpoint span_digits (s : string) : list ascii * string :=
  match s with
  | String c rest =>
      if is_digit c
      then let '(ds, tl) := span_digits rest in (c :: ds, tl)
      else ([], s)
  | EmptyString => ([], s)
  end.

(** [Array.prototype.length] as a number. *)
Definition len {A} (l : list A) : Z := Z.of_nat (List.length l).

(** ASCII lower-casing: what a regular expression's [i] flag identifies. *)
Definition lower (c : ascii) : ascii :=
  let n := nat_of_ascii c in
  if (65 <=? n)%nat && (n <=? 90)%nat then ascii_of_nat (n + 32) else c.

Definition eqb_ci (a b : ascii) : bool := Ascii.eqb (lower a) (lower b).

(** [strip_prefix eq p s]: when [s] starts with [p] (characters compared
    with [eq]), what follows [p] in [s]. *)
Fixpoint strip_prefix (eq : ascii -> ascii -> bool) (p s : string) : option string :=
  match p with
  | EmptyString => Some s
  | String a p' =>
      match s with
      | String b s' => if eq a b then strip_prefix eq p' s' else None
      | EmptyString => None
      end
  end.

(** Leftmost occurrence of [p] in [s]: the text before it and after it. *)
Fixpoint find (eq : ascii -> ascii -> bool) (p s : string) : option (string * string) :=
  match strip_prefix eq p s with
  | Some rest => Some (EmptyString, rest)
  | None =>
      match s with
      | String c s' =>
          match find eq p s' with
          | Some (before, rest) => Some (String c before, rest)
          | None => None
          end
      | EmptyString => None
      end
  end.

(** [String.prototype.includes]. *)
Definition includes (s p : string) : bool :=
  match find Ascii.eqb p s with Some _ => true | None => false end.

(** Longest prefix without the character [stop], and the rest. *)
Fixpoint span_until (stop : ascii) (s : string) : string * string :=
  match s with
  | String c s' =>
      if Ascii.eqb c stop then (EmptyString, s)
      else let '(a, b) := span_until stop s' in (String c a, b)
  | EmptyString => (EmptyString, EmptyString)
  end.

(** White space and line terminators of [String.prototype.trim]. *)
Definition is_space (c : ascii) : bool :=
  let n := nat_of_ascii c in
  ((9 <=? n)%nat && (n <=? 13)%nat) || (n =? 32)%nat || (n =? 160)%nat.

Fixpoint trim_start (s : string) : string :=
  match s with
  | String c s' => if is_space c then trim_start s' else s
  | EmptyString => EmptyString
  end.

Fixpoint trim_end (s : string) : string :=
  match s with
  | String c s' =>
      match trim_end s' with
      | EmptyString => if is_space c then EmptyString else String c EmptyString
      | t => String c t
      end
  | EmptyString => EmptyString
  end.

Definition trim (s : string) : string := trim_end (trim_start s).

(** A regular expression of the form [o[^>]*> ... ] starts with the
    literal [o] and runs up to the first [>]. *)
Definition open_tag (o s : string) : option string :=
  match strip_prefix eqb_ci o s with
  | Some after =>
      match span_until ">" after with
      | (_, String _ body) => Some body
      | _ => None
      end
  | None => None
  end.

(** [/<T[^>]*>([^<]+)<\/T>/i] anchored at the start of [s], where [o] is
    ["<T"] and [c] is ["</T>"]: the capture and what follows the match. *)
Definition text_element_at (o c s : string) : option (string * string) :=
  match open_tag o s with
  | Some body =>
      match span_until "<" body with
      | (EmptyString, _) => None
      | (txt, rest) =>
          match strip_prefix eqb_ci c rest with
          | Some after => Some (txt, after)
          | None => None
          end
      end
  | None => None
  end.

(** [RegExp.prototype.exec] without the [g] flag: start positions are
    tried from left to right. *)
Fixpoint exec {A} (match_at : string -> option A) (s : string) : option A :=
  match match_at s with
  | Some r => Some r
  | None =>
      match s with
      | String _ s' => exec match_at s'
      | EmptyString => None
      end
  end.

(** The [while ((match = re.exec(xml)) !== null)] loop of a [g] regular
    expression: successive matches, each search resuming where the
    previous match ended.  [skip] counts the characters of the current
    match still to be passed over. *)
Fixpoint exec_all {A} (match_at : string -> option (A * string))
    (skip : nat) (s : string) : list A :=
  let advance k := match s with
                   | String _ s' => exec_all match_at k s'
                   | EmptyString => []
                   end in
  match skip with
  | S k => advance k
  | O =>
      match match_at s with
      | Some (r, rest) =>
          r :: advance (Nat.pred (String.length s - String.length rest))
      | None => advance O
      end
  end.
End JS.

(** ** middleware/rateLimit.ts *)

Module RateLimit.

Record RateLimitSpec := { requests : Z; windowMs : Z }.

(** [parseRateLimit]: the pattern [/^(\d+)\/(second|minute)$/]; anything
    else falls back to 10 requests per second. *)
Definition parseRateLimit (limit : string) : RateLimitSpec :=
  let fallback := {| requests := 10; windowMs := 1000 |} in
  match JS.span_digits limit with
  | (d :: ds, String "/" unit) =>
      if String.eqb unit "second"
      then {| requests := JS.parseInt (d :: ds); windowMs := 1000 |}
      else if String.eqb unit "minute"
      then {| requests := JS.parseInt (d :: ds); windowMs := 60000 |}
      else fallback
  | _ => fallback
  end.

(** The part of [req.apiKey] the middleware reads. *)
Record ApiKey := { name : string; rateLimit : string }.

(** What the middleware does with the response: call [next()] (with the
    three X-RateLimit headers when a key is present) or answer 429. *)
Inductive outcome :=
| Next (headers : option (Z * Z * string))
| TooManyRequests (retryAfter : Z).

(** [rateLimitWindows]: key name to the [timestamps] array of its window. *)
Definition rateLimitMiddleware
    (apiKey : option ApiKey) (now : Z) (rateLimitWindows : gmap string (list Z))
  : outcome * gmap string (list Z) :=
  match apiKey with
  | None => (Next None, rateLimitWindows)
  | Some k =>
      let keyName := name k in
      let spec := parseRateLimit (rateLimit k) in
      let maxRequests := requests spec in
      let windowMs := windowMs spec in
      let window := default [] (rateLimitWindows !! keyName) in
      let timestamps := List.filter (fun ts => now - ts <? windowMs) window in
      if JS.len timestamps >=? maxRequests then
        let oldestTs := List.hd now timestamps in
        let retryAfter := JS.ceil_div (oldestTs + windowMs - now) 1000 in
        (TooManyRequests (Z.max 1 retryAfter),
         <[keyName := timestamps]> rateLimitWindows)
      else
        let timestamps' := timestamps ++ [now] in
        let windowLabel := if windowMs =? 1000 then "1s" else "1m" in
        (Next (Some (maxRequests, maxRequests - JS.len timestamps', windowLabel)),
         <[keyName := timestamps']> rateLimitWindows)
  end.

(** The periodic clean-up of stale API-key windows (one-minute horizon). *)
Definition cleanupWindows (now : Z) (rateLimitWindows : gmap string (list Z))
  : gmap string (list Z) :=
  filter (fun kv => kv.2 <> [])
         ((fun ts => List.filter (fun t => now - t <? 60000) ts) <$> rateLimitWindows).

(** Successive requests of one client: the middleware runs once per
    instant of [times], each call on the map the previous one left;
    the result lists the instants whose request was let through. *)
Fixpoint serve (k : ApiKey) (times : list Z) (m : gmap string (list Z))
  : list Z * gmap string (list Z) :=
  match times with
  | [] => ([], m)
  | now :: rest =>
      let r := rateLimitMiddleware (Some k) now m in
      let rs := serve k rest (snd r) in
      (match fst r with
       | Next _ => now :: fst rs
       | TooManyRequests _ => fst rs
       end, snd rs)
  end.

(** Requests of any clients, one after the other: the map they leave. *)
Definition serveAll (reqs : list (ApiKey * Z)) (m : gmap string (list Z))
  : gmap string (list Z) :=
  fold_left (fun m r => snd (rateLimitMiddleware (Some (fst r)) (snd r) m)) reqs m.

(** [memoryRateLimits]: one counter and one reset instant per address. *)
Record RateLimitEntry := { count : Z; resetTime : Z }.

(** [memoryRateLimitMiddleware(requestsPerMinute)], for the request of
    address [ip] at instant [now]; it sets no header. *)
Definition memoryRateLimitMiddleware (requestsPerMinute : Z) (ip : string)
    (now : Z) (memoryRateLimits : gmap string RateLimitEntry)
  : outcome * gmap string RateLimitEntry :=
  let windowMs := 60000 in
  let startWindow :=
    (Next None,
     <[ip := {| count := 1; resetTime := now + windowMs |}]> memoryRateLimits) in
  match memoryRateLimits !! ip with
  | None => startWindow
  | Some entry =>
      if now >? resetTime entry then startWindow
      else if count entry >=? requestsPerMinute then
        (TooManyRequests (JS.ceil_div (resetTime entry - now) 1000),
         memoryRateLimits)
      else
        (Next None,
         <[ip := {| count := count entry + 1; resetTime := resetTime entry |}]>
           memoryRateLimits)
  end.

(** Successive requests of one address. *)
Fixpoint serveAddress (requestsPerMinute : Z) (ip : string) (times : list Z)
    (m : gmap string RateLimitEntry) : list Z * gmap string RateLimitEntry :=
  match times with
  | [] => ([], m)
  | now :: rest =>
      let r := memoryRateLimitMiddleware requestsPerMinute ip now m in
      let rs := serveAddress requestsPerMinute ip rest (snd r) in
      (match fst r with
       | Next _ => now :: fst rs
       | TooManyRequests _ => fst rs
       end, snd rs)
  end.

End RateLimit.


(** ** services/browser.ts: the page pool

    [acquirePage] and [releasePage] are asynchronous functions: each runs
    without interruption from one [await] to the next, and other calls
    may run in between.  A [task] is a call suspended at an [await]; a
    [label] resumes one task (or starts a call); [step] is the code that
    runs until the next [await]. *)

Module Browser.

Definition caller := nat.

Inductive task :=
| AcquireOpening (c : caller)   (* acquirePage past [activePages++], awaiting
                                   initBrowser / newPage / setUserAgent *)
| Holding (c : caller)          (* the caller has its page *)
| ReleaseClosing (c : caller)   (* releasePage awaiting [page.close()] *)
| ReleaseInit (next : caller)   (* releasePage awaiting [initBrowser()] for
                                   the lease it shifted off the queue *)
| ReleaseNewPage (next : caller).
                                (* releasePage past [activePages++], awaiting
                                   newPage / setUserAgent *)

Inductive event :=
| Taken (c : caller)   (* acquirePage found room and took the slot *)
| Queued (c : caller)     (* acquirePage pushed the caller on [pageQueue] *)
| Granted (c : caller)    (* releasePage counted a page for the queued lease *)
| Resolved (c : caller)   (* the caller's promise resolved with a page *)
| Rejected (c : caller).  (* the caller's promise rejected *)

Record state := {
  activePages : Z;
  pageQueue : list caller;
  isShuttingDown : bool;
  tasks : list task;
  log : list event          (* oldest first *)
}.

Definition initial : state :=
  {| activePages := 0; pageQueue := []; isShuttingDown := false;
     tasks := []; log := [] |}.

Inductive label :=
| AcquireCall (c : caller)              (* a top-level [acquirePage()] *)
| AcquireReady (c : caller) (ok : bool) (* its awaits settle *)
| ReleaseCall (c : caller)              (* [releasePage(page)] is called *)
| PageClosed (c : caller)               (* [await page.close()] settles *)
| BrowserReady (next : caller) (ok : bool) (* [await initBrowser()] settles *)
| PageReady (next : caller) (ok : bool)    (* newPage / setUserAgent settle *)
| CloseBrowser.                         (* [closeBrowser()] up to its first wait *)

Definition task_eqb (a b : task) : bool :=
  match a, b with
  | AcquireOpening x, AcquireOpening y
  | Holding x, Holding y
  | ReleaseClosing x, ReleaseClosing y
  | ReleaseInit x, ReleaseInit y
  | ReleaseNewPage x, ReleaseNewPage y => Nat.eqb x y
  | _, _ => false
  end.

(** Remove the first occurrence of a suspended task, if it is there. *)
Fixpoint resume (t : task) (ts : list task) : option (list task) :=
  match ts with
  | [] => None
  | t' :: rest =>
      if task_eqb t t' then Some rest
      else option_map (cons t') (resume t rest)
  end.

Section Pool.

Variable maxConcurrentPages : Z.

(** [acquirePage], up to its first [await]. *)
Definition acquirePage (c : caller) (s : state) : state :=
  if activePages s <? maxConcurrentPages then
    {| activePages := activePages s + 1;
       pageQueue := pageQueue s;
       isShuttingDown := isShuttingDown s;
       tasks := tasks s ++ [AcquireOpening c];
       log := log s ++ [Taken c] |}
  else
    {| activePages := activePages s;
       pageQueue := pageQueue s ++ [c];
       isShuttingDown := isShuttingDown s;
       tasks := tasks s;
       log := log s ++ [Queued c] |}.

(** [releasePage], from the end of [await page.close()] to the next
    [await]: the decrement, the test of the queue and the [shift()]. *)
Definition releasePage_closed (rest : list task) (s : state) : state :=
  let active := activePages s - 1 in
  match pageQueue s with
  | next :: queue' =>
      if negb (isShuttingDown s) then
        {| activePages := active; pageQueue := queue';
           isShuttingDown := isShuttingDown s;
           tasks := rest ++ [ReleaseInit next]; log := log s |}
      else
        {| activePages := active; pageQueue := pageQueue s;
           isShuttingDown := isShuttingDown s; tasks := rest; log := log s |}
  | [] =>
      {| activePages := active; pageQueue := [];
         isShuttingDown := isShuttingDown s; tasks := rest; log := log s |}
  end.

(** [releasePage], after [await initBrowser()]: [activePages++] and the
    request for the new page; when [initBrowser] threw, [next.reject]. *)
Definition releasePage_connected (next : caller) (ok : bool)
    (rest : list task) (s : state) : state :=
  if ok then
    {| activePages := activePages s + 1; pageQueue := pageQueue s;
       isShuttingDown := isShuttingDown s;
       tasks := rest ++ [ReleaseNewPage next];
       log := log s ++ [Granted next] |}
  else
    {| activePages := activePages s; pageQueue := pageQueue s;
       isShuttingDown := isShuttingDown s; tasks := rest;
       log := log s ++ [Rejected next] |}.

(** The end of a page creation: the promise of caller [c] settles. *)
Definition settle (c : caller) (ok : bool) (rest : list task) (s : state)
  : state :=
  {| activePages := activePages s; pageQueue := pageQueue s;
     isShuttingDown := isShuttingDown s;
     tasks := if ok then rest ++ [Holding c] else rest;
     log := log s ++ [if ok then Resolved c else Rejected c] |}.

(** [closeBrowser], up to its wait for the active pages. *)
Definition closeBrowser (s : state) : state :=
  {| activePages := activePages s; pageQueue := [];
     isShuttingDown := true; tasks := tasks s;
     log := log s ++ List.map Rejected (pageQueue s) |}.

Definition with_tasks (ts : list task) (s : state) : state :=
  {| activePages := activePages s; pageQueue := pageQueue s;
     isShuttingDown := isShuttingDown s; tasks := ts; log := log s |}.

(** One uninterrupted run of code; [None] when the label names a task
    that is not suspended there. *)
Definition step (l : label) (s : state) : option state :=
  match l with
  | AcquireCall c => Some (acquirePage c s)
  | AcquireReady c ok =>
      option_map (fun rest => settle c ok rest s) (resume (AcquireOpening c) (tasks s))
  | ReleaseCall c =>
      option_map (fun rest => with_tasks (rest ++ [ReleaseClosing c]) s)
                 (resume (Holding c) (tasks s))
  | PageClosed c =>
      option_map (fun rest => releasePage_closed rest s)
                 (resume (ReleaseClosing c) (tasks s))
  | BrowserReady next ok =>
      option_map (fun rest => releasePage_connected next ok rest s)
                 (resume (ReleaseInit next) (tasks s))
  | PageReady next ok =>
      option_map (fun rest => settle next ok rest s)
                 (resume (ReleaseNewPage next) (tasks s))
  | CloseBrowser => Some (closeBrowser s)
  end.

Fixpoint run (ls : list label) (s : state) : option state :=
  match ls with
  | [] => Some s
  | l :: rest =>
      match step l s with
      | Some s' => run rest s'
      | None => None
      end
  end.

End Pool.

(** Position of the first occurrence of an event in a log. *)
Fixpoint position (e : event) (l : list event) : option nat :=
  match l with
  | [] => None
  | e' :: rest =>
      let same := match e, e' with
                  | Taken x, Taken y | Queued x, Queued y
                  | Granted x, Granted y | Resolved x, Resolved y
                  | Rejected x, Rejected y => Nat.eqb x y
                  | _, _ => false
                  end in
      if same then Some O else option_map S (position e rest)
  end.

(** The suspended calls whose page [activePages] counts: every one but
    a [releasePage] that has not yet counted the page of the lease it
    shifted. *)
Definition counted (t : task) : bool :=
  match t with ReleaseInit _ => false | _ => true end.

Definition held (ts : list task) : Z :=
  Z.of_nat (length (List.filter counted ts)).

(** The number of [releasePage] calls suspended at [await initBrowser()]. *)
Definition handing_off (ts : list task) : Z :=
  Z.of_nat (length (List.filter (fun t => negb (counted t)) ts)).

(** A page creation that throws after [activePages++]: the promise of
    [acquirePage] rejects, or [releasePage] rejects the lease. *)
Definition failed_creation (l : label) : bool :=
  match l with
  | AcquireReady _ false | PageReady _ false => true
  | _ => false
  end.

(** A schedule in which no [acquirePage] call runs while a
    [releasePage] is suspended at its [await initBrowser()]. *)
Fixpoint quiet (maxConcurrentPages : Z) (ls : list label) (s : state) : bool :=
  match ls with
  | [] => true
  | l :: rest =>
      match l with
      | AcquireCall _ => handing_off (tasks s) =? 0
      | _ => true
      end &&
      match step maxConcurrentPages l s with
      | Some s' => quiet maxConcurrentPages rest s'
      | None => true
      end
  end.

End Browser.

(** ** services/sitemap.ts *)

Module Sitemap.

Record SitemapUrl := {
  loc : string;
  lastmod : option string;
  (** the text handed to [parseFloat]; its numeric value is never used *)
  priority : option string
}.

Record SitemapResult := { urls : list SitemapUrl; errors : list string }.

Definition MAX_SITEMAP_DEPTH : nat := 3.

Definition isSitemapIndex (xml : string) : bool :=
  JS.includes xml "<sitemapindex" || JS.includes xml ":sitemapindex".

(** [/<sitemap[^>]*>[\s\S]*?<loc[^>]*>([^<]+)<\/loc>[\s\S]*?<\/sitemap>/gi]
    anchored at the start of [s]. *)
Definition sitemapRegex_at (s : string) : option (string * string) :=
  match JS.open_tag "<sitemap" s with
  | Some body =>
      JS.exec
        (fun p =>
           match JS.text_element_at "<loc" "</loc>" p with
           | Some (captured, after) =>
               match JS.find JS.eqb_ci "</sitemap>" after with
               | Some (_, rest) => Some (captured, rest)
               | None => None
               end
           | None => None
           end)
        body
  | None => None
  end.

Definition parseSitemapIndex (xml : string) : list string :=
  List.filter (fun url => negb (String.eqb url ""))
    (List.map JS.trim (JS.exec_all sitemapRegex_at O xml)).

(** [/<url[^>]*>([\s\S]*?)<\/url>/gi] anchored at the start of [s]. *)
Definition urlRegex_at (s : string) : option (string * string) :=
  match JS.open_tag "<url" s with
  | Some body => JS.find JS.eqb_ci "</url>" body
  | None => None
  end.

(** [/<T[^>]*>([^<]+)<\/T>/i.exec(urlBlock)?.[1]]. *)
Definition element_text (o c urlBlock : string) : option string :=
  option_map fst (JS.exec (JS.text_element_at o c) urlBlock).

(** One iteration of the loop of [parseSitemapUrls]: [None] is [continue]. *)
Definition parseUrlBlock (urlBlock : string) : option SitemapUrl :=
  match element_text "<loc" "</loc>" urlBlock with
  | Some captured =>
      let loc := JS.trim captured in
      if String.eqb loc "" then None
      else Some {| loc := loc;
                   lastmod := option_map JS.trim
                                (element_text "<lastmod" "</lastmod>" urlBlock);
                   priority := option_map JS.trim
                                 (element_text "<priority" "</priority>" urlBlock) |}
  | None => None
  end.

Definition parseSitemapUrls (xml : string) : list SitemapUrl :=
  omap parseUrlBlock (JS.exec_all urlRegex_at O xml).


(** *** The platform and the network

    [fetchUrl] answers with the body of the document or throws; the
    thrown error's message is what [collectAllUrls] records.
    [URL_pathname loc] is [new URL(loc).pathname], [None] when the
    constructor throws its [TypeError]; [localeCompare] is the host's
    string collation. *)

Section Platform.

Variable fetchUrl : string -> string + string.
Variable URL_pathname : string -> option string.
Variable localeCompare : string -> string -> Z.

Definition emptyResult : SitemapResult := {| urls := []; errors := [] |}.

(** [result.urls.push(...r.urls); result.errors.push(...r.errors)] *)
Definition pushAll (result r : SitemapResult) : SitemapResult :=
  {| urls := urls result ++ urls r; errors := errors result ++ errors r |}.

(** [urls.slice(0, n)] *)
Definition slice0 {A} (l : list A) (n : Z) : list A :=
  if n <? 0
  then firstn (Z.to_nat (Z.max (JS.len l + n) 0)) l
  else firstn (Z.to_nat (Z.min n (JS.len l))) l.

(** The [for (const nestedUrl of nestedUrls)] loop; [self] is the
    recursive call at [depth + 1]. *)
Fixpoint collectNested (self : string -> Z -> SitemapResult)
    (maxPages : Z) (nestedUrls : list string) (result : SitemapResult)
  : SitemapResult :=
  match nestedUrls with
  | [] => result
  | nestedUrl :: rest =>
      if JS.len (urls result) >=? maxPages then result
      else
        let nestedResult := self nestedUrl (maxPages - JS.len (urls result)) in
        collectNested self maxPages rest (pushAll result nestedResult)
  end.

(** The body of [collectAllUrls], with the recursive call left open. *)
Definition collectBody (self : string -> Z -> nat -> SitemapResult)
    (sitemapUrl : string) (maxPages : Z) (depth : nat) : SitemapResult :=
  if (MAX_SITEMAP_DEPTH <=? depth)%nat then
    {| urls := [];
       errors := ["Max sitemap depth (3) reached at " +:+ sitemapUrl] |}
  else
    match fetchUrl sitemapUrl with
    | inr xml =>
        if isSitemapIndex xml then
          collectNested (fun u m => self u m (S depth)) maxPages
            (parseSitemapIndex xml) emptyResult
        else
          {| urls := slice0 (parseSitemapUrls xml) (maxPages - 0); errors := [] |}
    | inl errorMessage =>
        {| urls := [];
           errors := ["Failed to fetch " +:+ sitemapUrl +:+ ": " +:+ errorMessage] |}
    end.

(** The recursion goes one level deeper per call and stops at
    [MAX_SITEMAP_DEPTH], so [MAX_SITEMAP_DEPTH + 1] unfoldings of the body
    reach every call; the innermost stub is never consulted
    (see [collectAllUrls_unfold]). *)
Fixpoint collectIter (n : nat) : string -> Z -> nat -> SitemapResult :=
  match n with
  | O => fun _ _ _ => emptyResult
  | S k => collectBody (collectIter k)
  end.

Definition collectAllUrls : string -> Z -> nat -> SitemapResult :=
  collectIter (S MAX_SITEMAP_DEPTH).

(** The comparator of [sortUrlsByPath]; [None] when [new URL] throws. *)
Definition comparePaths (a b : SitemapUrl) : option Z :=
  match URL_pathname (loc a) with
  | Some pathA =>
      match URL_pathname (loc b) with
      | Some pathB => Some (localeCompare pathA pathB)
      | None => None
      end
  | None => None
  end.

(** [Array.prototype.sort] is stable and otherwise implementation
    defined; it is modelled as a stable insertion sort.  An exception of
    the comparator ends the sort. *)
Fixpoint insertSorted (x : SitemapUrl) (sorted : list SitemapUrl)
  : option (list SitemapUrl) :=
  match sorted with
  | [] => Some [x]
  | y :: ys =>
      match comparePaths x y with
      | Some c =>
          if c <? 0 then Some (x :: y :: ys)
          else option_map (cons y) (insertSorted x ys)
      | None => None
      end
  end.

Definition sortUrlsByPath (urls : list SitemapUrl) : option (list SitemapUrl) :=
  fold_left (fun acc x => match acc with
                          | Some sorted => insertSorted x sorted
                          | None => None
                          end) urls (Some []).

End Platform.

(** Where the URLs of a result come from: [Yields d u e] when entry [e] is
    listed by the leaf sitemap [u] fetched at depth [d], or by a sitemap
    nested in the index [u]; every sitemap on the way is fetched at a
    depth below [MAX_SITEMAP_DEPTH]. *)
Inductive Yields (fetchUrl : string -> string + string)
  : nat -> string -> SitemapUrl -> Prop :=
| Yields_leaf d u xml e :
    (d < MAX_SITEMAP_DEPTH)%nat ->
    fetchUrl u = inr xml -> isSitemapIndex xml = false ->
    In e (parseSitemapUrls xml) ->
    Yields fetchUrl d u e
| Yields_nested d u xml nested e :
    (d < MAX_SITEMAP_DEPTH)%nat ->
    fetchUrl u = inr xml -> isSitemapIndex xml = true ->
    In nested (parseSitemapIndex xml) ->
    Yields fetchUrl (S d) nested e ->
    Yields fetchUrl d u e.

(** The calls that one call of [collectAllUrls] gives rise to:
    [Calls u m d u' m' d'] when the call on sitemap [u] with budget [m]
    at depth [d] is, or leads to, the call on [u'] with budget [m'] at
    depth [d'].  An index fetched below the depth limit calls, one level
    deeper and with what is left of the budget, each sitemap it lists
    that its loop reaches before the budget is spent. *)
Inductive Calls (fetchUrl : string -> string + string)
  : string -> Z -> nat -> string -> Z -> nat -> Prop :=
| Calls_here u m d : Calls fetchUrl u m d u m d
| Calls_nested u m d xml before nested after u' m' d' :
    (d < MAX_SITEMAP_DEPTH)%nat ->
    fetchUrl u = inr xml -> isSitemapIndex xml = true ->
    parseSitemapIndex xml = before ++ nested :: after ->
    JS.len (urls (collectNested (fun v k => collectAllUrls fetchUrl v k (S d))
                    m before emptyResult)) < m ->
    Calls fetchUrl nested
      (m - JS.len (urls (collectNested
                           (fun v k => collectAllUrls fetchUrl v k (S d))
                           m before emptyResult)))
      (S d) u' m' d' ->
    Calls fetchUrl u m d u' m' d'.

End Sitemap.

(** ** services/sitemap.ts: finding the sitemap of a site *)

Module Discovery.

(** The line terminators below code unit 256: what [.] does not match
    and what [^] and [$] recognise under the [m] flag. *)
Definition is_line_terminator (c : ascii) : bool :=
  let n := nat_of_ascii c in (n =? 10)%nat || (n =? 13)%nat.

(** Longest prefix of white space ([\s*], greedy), and the rest. *)
Fixpoint span_space (s : string) : string * string :=
  match s with
  | String c s' =>
      if JS.is_space c
      then let '(a, b) := span_space s' in (String c a, b)
      else (EmptyString, s)
  | EmptyString => (EmptyString, EmptyString)
  end.

(** Longest prefix without a line terminator ([.+], greedy). *)
Fixpoint span_line (s : string) : string :=
  match s with
  | String c s' =>
      if is_line_terminator c then EmptyString else String c (span_line s')
  | EmptyString => EmptyString
  end.

(** The last character of [ws] that is not a line terminator. *)
Fixpoint last_on_line (ws : string) : option ascii :=
  match ws with
  | String c ws' =>
      match last_on_line ws' with
      | Some d => Some d
      | None => if is_line_terminator c then None else Some c
      end
  | EmptyString => None
  end.

(** [/^Sitemap:\s*(.+)$/im] at a line start: the capture.  [\s*] takes
    all the white space after the colon; when nothing but white space
    follows up to the end of the text it gives back, from the right,
    until [.+] finds a character of its own, which is then the last
    character of that white space that is not a line terminator. *)
Definition robotsRegex_at (s : string) : option string :=
  match JS.strip_prefix JS.eqb_ci "Sitemap:" s with
  | Some r =>
      match span_space r with
      | (_, String c r') => Some (span_line (String c r'))
      | (ws, EmptyString) =>
          option_map (fun c => String c EmptyString) (last_on_line ws)
      end
  | None => None
  end.

(** [exec] of a pattern that starts with [^] under the [m] flag: a match
    is tried at the start of the text and after each line terminator. *)
Fixpoint exec_lines {A} (match_at : string -> option A)
    (line_start : bool) (s : string) : option A :=
  match (if line_start then match_at s else None) with
  | Some r => Some r
  | None =>
      match s with
      | String c s' => exec_lines match_at (is_line_terminator c) s'
      | EmptyString => None
      end
  end.

(** What [discoverSitemapUrl] ends with. *)
Inductive discovery :=
| Found (sitemapUrl : string)
| NoSitemapFound (message : string)   (* the [Error] thrown at the end *)
| InvalidUrl.                         (* the [TypeError] of [new URL] *)

Section Platform.

Variable fetchUrl : string -> string + string.
(** [new URL(path, base).toString()]; [None] when the constructor throws. *)
Variable URL_resolve : string -> string -> option string.

Definition findSitemapFromRobots (baseUrl : string) : option string :=
  match URL_resolve "/robots.txt" baseUrl with
  | Some robotsUrl =>
      match fetchUrl robotsUrl with
      | inr content =>
          match exec_lines robotsRegex_at true content with
          | Some captured =>
              if String.eqb captured "" then None else Some (JS.trim captured)
          | None => None
          end
      | inl _ => None
      end
  | None => None
  end.

(** [tried.join(', ')] *)
Definition noSitemapFound (tried : list string) : discovery :=
  NoSitemapFound ("No sitemap found. Tried: " +:+ String.concat ", " tried).

(** Steps 2 to 4, with the URLs tried so far. *)
Definition discoverWellKnown (baseUrl : string) (tried : list string) : discovery :=
  match URL_resolve "/sitemap.xml" baseUrl with
  | None => InvalidUrl
  | Some sitemapXml =>
      match fetchUrl sitemapXml with
      | inr _ => Found sitemapXml
      | inl _ =>
          let tried := tried ++ [sitemapXml] in
          match URL_resolve "/sitemap_index.xml" baseUrl with
          | None => InvalidUrl
          | Some sitemapIndex =>
              match fetchUrl sitemapIndex with
              | inr _ => Found sitemapIndex
              | inl _ =>
                  let tried := tried ++ [sitemapIndex] in
                  match findSitemapFromRobots baseUrl with
                  | Some fromRobots =>
                      if String.eqb fromRobots "" then noSitemapFound tried
                      else
                        match fetchUrl fromRobots with
                        | inr _ => Found fromRobots
                        | inl _ => noSitemapFound (tried ++ [fromRobots])
                        end
                  | None => noSitemapFound tried
                  end
              end
          end
      end
  end.

Definition discoverSitemapUrl (baseUrl : string) (providedUrl : option string)
  : discovery :=
  match providedUrl with
  | Some provided =>
      if String.eqb provided "" then discoverWellKnown baseUrl []
      else
        match fetchUrl provided with
        | inr _ => Found provided
        | inl _ => discoverWellKnown baseUrl [provided]
        end
  | None => discoverWellKnown baseUrl []
  end.

End Platform.
End Discovery.


(** ** routes/site.ts: the background worker group *)

Module SiteCapture.
Import Sitemap.

Inductive job_status := pending | processing | completed | failed.

(** The columns of a [site_captures] row that the job writes. *)
Record site_capture := {
  total_pages : Z;
  captured_pages : Z;
  failed_pages : Z;
  status : job_status
}.

(** A worker is an asynchronous function; between two of its [await]s
    it is in one of these states. *)
Inductive worker :=
| Capturing (entry : SitemapUrl)  (* awaiting [processUrl(entry)] *)
| Updating (capturedPages failedPages : Z)
                                  (* awaiting [updateSiteCaptureProgress]
                                     called with these two values *)
| Returned                        (* left the [while] loop *)
| Threw.                          (* the progress update rejected *)

Inductive promise := Pending | Fulfilled | Rejected.

Record state := {
  queue : list SitemapUrl;
  capturedCount : Z;
  failedCount : Z;
  workers : list worker;
  row : site_capture;
  processed : list (SitemapUrl * bool);  (* entries handed to [processUrl]
                                            and settled, with its result *)
  settled : promise                      (* of [processSiteCapture] itself *)
}.

(** The head of the [while (queue.length > 0)] loop up to
    [await processUrl(entry)]. *)
Definition workerLoop (queue : list SitemapUrl) : worker * list SitemapUrl :=
  match queue with
  | entry :: rest => (Capturing entry, rest)
  | [] => (Returned, [])
  end.

(** [Array(n).fill(null).map(() => worker())]: each call runs up to its
    first [await] before the next one starts. *)
Fixpoint spawn (n : nat) (queue : list SitemapUrl)
  : list worker * list SitemapUrl :=
  match n with
  | O => ([], queue)
  | S k =>
      let '(w, queue') := workerLoop queue in
      let '(ws, queue'') := spawn k queue' in
      (w :: ws, queue'')
  end.

(** [processSiteCapture] up to its first [await], the one of
    [Promise.all(workers)]; the row is the one [createSiteCapture] made. *)
Definition processSiteCapture (concurrency : nat) (urls : list SitemapUrl)
  : state :=
  let '(ws, queue') := spawn concurrency urls in
  {| queue := queue'; capturedCount := 0; failedCount := 0; workers := ws;
     row := {| total_pages := JS.len urls; captured_pages := 0;
               failed_pages := 0; status := processing |};
     processed := []; settled := Pending |}.

Definition SITE_CAPTURE_CONCURRENCY : nat := 2.

(** [UPDATE site_captures SET captured_pages = $2, failed_pages = $3]:
    the row takes the two values of the call, whatever it held. *)
Definition updateSiteCaptureProgress (capturedPages failedPages : Z)
    (r : site_capture) : site_capture :=
  {| total_pages := total_pages r; captured_pages := capturedPages;
     failed_pages := failedPages; status := status r |}.

Definition completeSiteCapture (st : job_status) (r : site_capture)
  : site_capture :=
  {| total_pages := total_pages r; captured_pages := captured_pages r;
     failed_pages := failed_pages r; status := st |}.

Inductive label :=
| CaptureSettled (w : nat) (success : bool)
    (* [processUrl] of worker [w] returns [success]; the code up to the
       next [await] counts it and calls [updateSiteCaptureProgress] with
       the two counters as they are then *)
| UpdateSettled (w : nat) (stored : bool)
    (* the progress update of worker [w] settles: the store has written
       the values of that call ([stored]), or has refused it and the call
       rejects.  The updates of two workers go through [pool.query]
       independently: they settle in any order *)
| Join (stored handlerStored : bool).
    (* [await Promise.all(workers)] settles; [stored]: the store takes
       [completeSiteCapture(id, finalStatus)]; [handlerStored]: it takes
       the [completeSiteCapture(id, 'failed')] of the caller's [catch] *)

Definition is_threw (w : worker) : bool :=
  match w with Threw => true | _ => false end.

Definition is_returned (w : worker) : bool :=
  match w with Returned => true | _ => false end.

(** The [.catch] of the caller: the job is forced to ['failed']. *)
Definition onRejected (handlerStored : bool) (s : state) : state :=
  {| queue := queue s; capturedCount := capturedCount s;
     failedCount := failedCount s; workers := workers s;
     row := if handlerStored then completeSiteCapture failed (row s) else row s;
     processed := processed s; settled := Rejected |}.

Definition step (l : label) (s : state) : option state :=
  match l with
  | CaptureSettled w success =>
      match workers s !! w with
      | Some (Capturing entry) =>
          let captured := if success then capturedCount s + 1 else capturedCount s in
          let failed := if success then failedCount s else failedCount s + 1 in
          Some {| queue := queue s; capturedCount := captured;
                  failedCount := failed;
                  workers := <[w := Updating captured failed]> (workers s);
                  row := row s;
                  processed := processed s ++ [(entry, success)];
                  settled := settled s |}
      | _ => None
      end
  | UpdateSettled w stored =>
      match workers s !! w with
      | Some (Updating capturedPages failedPages) =>
          let '(next, queue') :=
            if stored then workerLoop (queue s) else (Threw, queue s) in
          Some {| queue := queue'; capturedCount := capturedCount s;
                  failedCount := failedCount s;
                  workers := <[w := next]> (workers s);
                  row := if stored
                         then updateSiteCaptureProgress capturedPages failedPages
                                (row s)
                         else row s;
                  processed := processed s;
                  settled := settled s |}
      | _ => None
      end
  | Join stored handlerStored =>
      match settled s with
      | Pending =>
          if existsb is_threw (workers s) then Some (onRejected handlerStored s)
          else if forallb is_returned (workers s) then
            let finalStatus :=
              if capturedCount s >? 0 then completed else failed in
            if stored then
              Some {| queue := queue s; capturedCount := capturedCount s;
                      failedCount := failedCount s; workers := workers s;
                      row := completeSiteCapture finalStatus (row s);
                      processed := processed s; settled := Fulfilled |}
            else Some (onRejected handlerStored s)
          else None
      | _ => None
      end
  end.

Fixpoint run (ls : list label) (s : state) : option state :=
  match ls with
  | [] => Some s
  | l :: rest =>
      match step l s with
      | Some s' => run rest s'
      | None => None
      end
  end.

Definition terminal (st : job_status) : bool :=
  match st with completed | failed => true | _ => false end.

(** The entries whose [processUrl] is under way. *)
Definition entry_of (w : worker) : list SitemapUrl :=
  match w with Capturing entry => [entry] | _ => [] end.

Definition inflight (ws : list worker) : list SitemapUrl :=
  flat_map entry_of ws.

(** The [await]s a worker still has before it, and those of a job. *)
Definition work_of (w : worker) : nat :=
  match w with Capturing _ => 2 | Updating _ _ => 1 | _ => 0 end.

Definition pending_work (s : state) : nat :=
  list_sum (List.map work_of (workers s)) + 2 * length (queue s).

(** What holds of a job at every [await], for a worker group of size [n]
    over the list [all] of URLs. *)
Record invariant (n : nat) (all : list SitemapUrl) (s : state) : Prop := {
  inv_once :
    Permutation (List.map fst (processed s) ++ inflight (workers s) ++ queue s) all;
  inv_captured :
    capturedCount s = JS.len (List.filter snd (processed s));
  inv_failed :
    failedCount s = JS.len (List.filter (fun p => negb (snd p)) (processed s));
  inv_group : length (workers s) = n;
  inv_drained : In Returned (workers s) -> queue s = [];
  inv_total : total_pages (row s) = JS.len all;
  inv_sent :
    forall w c f, workers s !! w = Some (Updating c f) ->
      0 <= c <= capturedCount s /\ 0 <= f <= failedCount s;
  inv_row :
    0 <= captured_pages (row s) <= capturedCount s /\
    0 <= failed_pages (row s) <= failedCount s;
  inv_pending : settled s = Pending -> status (row s) = processing;
  inv_fulfilled :
    settled s = Fulfilled ->
    forallb is_returned (workers s) = true /\
    status (row s) = (if capturedCount s >? 0 then completed else failed)
}.

(** The POST handler from [collectAllUrls] on (the store takes the new
    row). *)
Inductive reply :=
| EmptySitemap (sitemapErrors : list string)        (* 400 *)
| Accepted (totalPages : Z) (sortedUrls : list SitemapUrl)  (* 202 *)
| InternalServerError.                              (* 500 *)

Definition postSite (fetchUrl : string -> string + string)
    (URL_pathname : string -> option string)
    (localeCompare : string -> string -> Z)
    (sitemapUrl : string) (maxPages : Z) : reply :=
  let sitemapResult := collectAllUrls fetchUrl sitemapUrl maxPages 0 in
  if JS.len (urls sitemapResult) =? 0 then EmptySitemap (errors sitemapResult)
  else
    match sortUrlsByPath URL_pathname localeCompare (urls sitemapResult) with
    | Some sortedUrls => Accepted (JS.len sortedUrls) sortedUrls
    | None => InternalServerError
    end.

(** The one [await] of [processSiteCapture] itself that is still to
    settle. *)
Definition unsettled (s : state) : nat :=
  match settled s with Pending => 1 | _ => 0 end.

(** A schedule on which the progress updates settle in the order in
    which the workers issued them; [outstanding] lists the workers whose
    update is under way, the oldest first. *)
Fixpoint in_order (ls : list label) (outstanding : list nat) : bool :=
  match ls with
  | [] => true
  | CaptureSettled w _ :: rest => in_order rest (outstanding ++ [w])
  | UpdateSettled w _ :: rest =>
      match outstanding with
      | oldest :: others => Nat.eqb w oldest && in_order rest others
      | [] => false
      end
  | Join _ _ :: rest => in_order rest outstanding
  end.

(** What holds along such a schedule: the workers listed are those
    awaiting their progress update, each once, and the values of the
    youngest update under way are the counters of the job; with none
    under way the row holds them (as long as no update was refused). *)
Record ordered (outstanding : list nat) (s : state) : Prop := {
  ord_once : List.NoDup outstanding;
  ord_updating :
    forall w, In w outstanding ->
      exists c f, workers s !! w = Some (Updating c f);
  ord_row :
    outstanding = [] -> existsb is_threw (workers s) = false ->
    captured_pages (row s) = capturedCount s /\
    failed_pages (row s) = failedCount s;
  ord_youngest :
    forall older w, outstanding = older ++ [w] ->
      existsb is_threw (workers s) = false ->
      workers s !! w = Some (Updating (capturedCount s) (failedCount s))
}.

End SiteCapture.

(** ** jobs/cleanup.ts and the screenshot queries of services/database.ts *)

Module Cleanup.

Inductive screenshot_status := pending | completed | failed | expired.

Definition status_eqb (a b : screenshot_status) : bool :=
  match a, b with
  | pending, pending | completed, completed
  | failed, failed | expired, expired => true
  | _, _ => false
  end.

(** The columns of a [screenshots] row that the sweep reads or writes. *)
Record Screenshot := {
  id : string;
  bucket : string;
  storageKey : string;
  expiresAt : Z;
  status : screenshot_status
}.

(** [SELECT * FROM screenshots WHERE status = 'completed' AND
    expires_at < NOW() LIMIT 100] *)
Definition getExpiredScreenshots (now : Z) (table : list Screenshot)
  : list Screenshot :=
  firstn 100
    (List.filter (fun r => status_eqb (status r) completed && (expiresAt r <? now))
       table).

Definition with_status (st : screenshot_status) (r : Screenshot) : Screenshot :=
  {| id := id r; bucket := bucket r; storageKey := storageKey r;
     expiresAt := expiresAt r; status := st |}.

(** [UPDATE screenshots SET status = $1 WHERE id = $2] *)
Definition updateScreenshotStatus (i : string) (st : screenshot_status)
    (table : list Screenshot) : list Screenshot :=
  List.map (fun r => if String.eqb (id r) i then with_status st r else r) table.

(** [DELETE FROM screenshots WHERE id = $1] *)
Definition deleteScreenshotRecord (i : string) (table : list Screenshot)
  : list Screenshot :=
  List.filter (fun r => negb (String.eqb (id r) i)) table.

(** [deleteScreenshot] of services/storage.ts when it succeeds: after the
    [DeleteObjectCommand] the object is gone, whether or not it was
    there. *)
Definition deleteScreenshot (b key : string) (objects : list (string * string))
  : list (string * string) :=
  List.filter (fun o => negb (String.eqb (fst o) b && String.eqb (snd o) key))
    objects.

(** Which calls to the blob store and to the metadata store reject. *)
Record faults := {
  deleteScreenshot_fails : string -> string -> bool;
  deleteScreenshotRecord_fails : string -> bool;
  updateScreenshotStatus_fails : string -> bool
}.

(** The calls a sweep makes, in order. *)
Inductive call :=
| DeleteScreenshot (bucket key : string)
| DeleteScreenshotRecord (i : string)
| UpdateScreenshotStatus (i : string) (st : screenshot_status).

Record state := {
  isRunning : bool;
  screenshots : list Screenshot;
  blobs : list (string * string);   (* the objects held by the blob store *)
  deletedCount : Z;
  errorCount : Z;
  calls : list call
}.

Section Sweep.

Variable f : faults.

(** The [catch] of the loop body. *)
Definition onCleanupError (s : Screenshot) (st : state) : state :=
  {| isRunning := isRunning st;
     screenshots := if updateScreenshotStatus_fails f (id s)
                    then screenshots st
                    else updateScreenshotStatus (id s) expired (screenshots st);
     blobs := blobs st;
     deletedCount := deletedCount st;
     errorCount := errorCount st + 1;
     calls := calls st ++ [UpdateScreenshotStatus (id s) expired] |}.

(** One iteration of [for (const screenshot of expiredScreenshots)]. *)
Definition cleanupScreenshot (st : state) (s : Screenshot) : state :=
  let st1 :=
    {| isRunning := isRunning st; screenshots := screenshots st;
       blobs := blobs st; deletedCount := deletedCount st;
       errorCount := errorCount st;
       calls := calls st ++ [DeleteScreenshot (bucket s) (storageKey s)] |} in
  if deleteScreenshot_fails f (bucket s) (storageKey s) then onCleanupError s st1
  else
    let st2 :=
      {| isRunning := isRunning st1; screenshots := screenshots st1;
         blobs := deleteScreenshot (bucket s) (storageKey s) (blobs st1);
         deletedCount := deletedCount st1; errorCount := errorCount st1;
         calls := calls st1 ++ [DeleteScreenshotRecord (id s)] |} in
    if deleteScreenshotRecord_fails f (id s) then onCleanupError s st2
    else
      {| isRunning := isRunning st2;
         screenshots := deleteScreenshotRecord (id s) (screenshots st2);
         blobs := blobs st2;
         deletedCount := deletedCount st2 + 1;
         errorCount := errorCount st2;
         calls := calls st2 |}.

Definition cleanupScreenshots (expiredScreenshots : list Screenshot)
    (st : state) : state :=
  fold_left cleanupScreenshot expiredScreenshots st.

(** [runCleanup] as far as the screenshots go (l.18-79 and the
    [finally]): the re-entrancy guard, the selection, the first loop with
    fresh counters, and the release of the guard.  The function goes on
    with a second loop, over the site captures, before it releases the
    guard: the whole of it is [SiteSweep.runCleanup]. *)
Definition runCleanup_screenshots (now : Z) (st : state) : state :=
  if isRunning st then st
  else
    let st' :=
      cleanupScreenshots (getExpiredScreenshots now (screenshots st))
        {| isRunning := true; screenshots := screenshots st;
           blobs := blobs st; deletedCount := 0; errorCount := 0;
           calls := [] |} in
    {| isRunning := false; screenshots := screenshots st';
       blobs := blobs st'; deletedCount := deletedCount st';
       errorCount := errorCount st'; calls := calls st' |}.

End Sweep.

Definition lookup_id (i : string) (table : list Screenshot) : option Screenshot :=
  List.find (fun r => String.eqb (id r) i) table.

End Cleanup.

(** ** jobs/cleanup.ts: the site-capture phase of the sweep *)

Module SiteSweep.
Import Cleanup.

(** The columns of a [site_captures] row that the sweep reads. *)
Record SiteCaptureRow := {
  siteId : string;
  siteExpiresAt : Z;
  siteStatus : SiteCapture.job_status
}.

Definition is_pending (st : SiteCapture.job_status) : bool :=
  match st with SiteCapture.pending => true | _ => false end.

(** [SELECT * FROM site_captures WHERE expires_at < NOW() AND
    status != 'pending' LIMIT 50] *)
Definition getExpiredSiteCaptures (now : Z) (table : list SiteCaptureRow)
  : list SiteCaptureRow :=
  firstn 50
    (List.filter (fun r => (siteExpiresAt r <? now) && negb (is_pending (siteStatus r)))
       table).

(** The two tables; [site_capture_id] is the column of that name of the
    [screenshots] table, by screenshot id ([None] is NULL). *)
Record database := {
  site_captures : list SiteCaptureRow;
  screenshots : list Screenshot;
  site_capture_id : string -> option string
}.

Definition references (db : database) (site : string) (r : Screenshot) : bool :=
  match site_capture_id db (id r) with
  | Some s => String.eqb s site
  | None => false
  end.

(** [DELETE FROM site_captures WHERE id = $1], with the [ON DELETE
    CASCADE] of [screenshots.site_capture_id]. *)
Definition deleteSiteCaptureRecord (site : string) (db : database) : database :=
  {| site_captures :=
       List.filter (fun r => negb (String.eqb (siteId r) site)) (site_captures db);
     screenshots :=
       List.filter (fun r => negb (references db site r)) (screenshots db);
     site_capture_id := site_capture_id db |}.

Record state := {
  db : database;
  blobs : list (string * string);
  siteDeletedCount : Z
}.

Section Sweep.

(** Which deletions of a site capture the metadata store rejects. *)
Variable deleteSiteCaptureRecord_fails : string -> bool.

(** One iteration of [for (const siteCapture of expiredSiteCaptures)]. *)
Definition cleanupSiteCapture (st : state) (siteCapture : SiteCaptureRow) : state :=
  if deleteSiteCaptureRecord_fails (siteId siteCapture) then st
  else
    {| db := deleteSiteCaptureRecord (siteId siteCapture) (db st);
       blobs := blobs st;
       siteDeletedCount := siteDeletedCount st + 1 |}.

Definition cleanupSiteCaptures (expiredSiteCaptures : list SiteCaptureRow)
    (st : state) : state :=
  fold_left cleanupSiteCapture expiredSiteCaptures st.

(** [runCleanup] with both loops, when the guard is free: the
    screenshots, then the site captures selected in the tables as the
    first loop left them.  The two selections are taken to answer;
    [cleanupRateLimitLogs], which ends the run, touches neither table.
    The blob store is the one the sweep sees: the expiry of objects by
    the bucket's own lifecycle rule is no part of it. *)
Definition runCleanup (f : faults) (now : Z) (st : state) : state :=
  let swept :=
    runCleanup_screenshots f now
      {| isRunning := false; Cleanup.screenshots := screenshots (db st);
         Cleanup.blobs := blobs st; deletedCount := 0; errorCount := 0;
         calls := [] |} in
  cleanupSiteCaptures (getExpiredSiteCaptures now (site_captures (db st)))
    {| db := {| site_captures := site_captures (db st);
                screenshots := Cleanup.screenshots swept;
                site_capture_id := site_capture_id (db st) |};
       blobs := Cleanup.blobs swept;
       siteDeletedCount := 0 |}.

End Sweep.

(** The stores as the first loop of a run leaves them. *)
Definition looped (f : faults) (now : Z) (st : state) : Cleanup.state :=
  cleanupScreenshots f (getExpiredScreenshots now (screenshots (db st)))
    {| isRunning := true; Cleanup.screenshots := screenshots (db st);
       Cleanup.blobs := blobs st; deletedCount := 0; errorCount := 0;
       calls := [] |}.

(** Successive runs of the sweep, each with its own rejecting calls and
    its own instant. *)
Definition runCleanups (runs : list ((string -> bool) * faults * Z))
    (st : state) : state :=
  fold_left (fun st r => runCleanup (fst (fst r)) (snd (fst r)) (snd r) st)
    runs st.

End SiteSweep.


(** ** routes/download.ts and routes/list.ts: one screenshot by id *)

Module Routes.
Import Cleanup.

(** [[0-9a-f]] under the [i] flag. *)
Definition is_hex (c : ascii) : bool :=
  let n := nat_of_ascii c in
  ((48 <=? n)%nat && (n <=? 57)%nat) || ((97 <=? n)%nat && (n <=? 102)%nat)
  || ((65 <=? n)%nat && (n <=? 70)%nat).

(** [[0-9a-f]{n}] at the start of [s]: what follows it. *)
Fixpoint hex_digits (n : nat) (s : string) : option string :=
  match n with
  | O => Some s
  | S k =>
      match s with
      | String c s' => if is_hex c then hex_digits k s' else None
      | EmptyString => None
      end
  end.

(** [[0-9a-f]{n}-] *)
Definition hex_group (n : nat) (s : string) : option string :=
  match hex_digits n s with
  | Some (String "-" rest) => Some rest
  | _ => None
  end.

(** [UUID_REGEX.test(id)] for
    [/^[0-9a-f]{8}-[0-9a-f]{4}-[0-9a-f]{4}-[0-9a-f]{4}-[0-9a-f]{12}$/i]. *)
Definition UUID_REGEX_test (i : string) : bool :=
  match hex_group 8 i with
  | Some r1 =>
      match hex_group 4 r1 with
      | Some r2 =>
          match hex_group 4 r2 with
          | Some r3 =>
              match hex_group 4 r3 with
              | Some r4 =>
                  match hex_digits 12 r4 with
                  | Some EmptyString => true
                  | _ => false
                  end
              | None => false
              end
          | None => false
          end
      | None => false
      end
  | None => false
  end.

Inductive reply :=
| BadRequest                          (* 400 *)
| NotFound                            (* 404 *)
| Gone (message : string)             (* 410 *)
| Metadata (screenshot : Screenshot)  (* 200 of GET *)
| Success (message : string)          (* 200 of DELETE *)
| InternalServerError.                (* 500 *)

(** The [id] columns are of type [UUID]: the store reads the text of a
    parameter as a uuid value, whatever the case of its digits, and holds
    and returns uuid values with their digits in lower case. *)
Fixpoint uuid (i : string) : string :=
  match i with
  | String c rest => String (JS.lower c) (uuid rest)
  | EmptyString => EmptyString
  end.

(** GET /screenshot/:id, [getScreenshot] answering. *)
Definition getScreenshotRoute (i : string) (now : Z) (table : list Screenshot)
  : reply :=
  if negb (UUID_REGEX_test i) then BadRequest
  else
    match lookup_id (uuid i) table with
    | None => NotFound
    | Some screenshot =>
        if status_eqb (status screenshot) expired || (expiresAt screenshot <? now)
        then Gone "Screenshot has expired"
        else if status_eqb (status screenshot) failed
        then Gone "Screenshot capture failed"
        else Metadata screenshot
    end.

Definition with_screenshots (table : list Screenshot) (st : SiteSweep.state)
  : SiteSweep.state :=
  {| SiteSweep.db :=
       {| SiteSweep.site_captures := SiteSweep.site_captures (SiteSweep.db st);
          SiteSweep.screenshots := table;
          SiteSweep.site_capture_id := SiteSweep.site_capture_id (SiteSweep.db st) |};
     SiteSweep.blobs := SiteSweep.blobs st;
     SiteSweep.siteDeletedCount := SiteSweep.siteDeletedCount st |}.

Definition with_blobs (objects : list (string * string)) (st : SiteSweep.state)
  : SiteSweep.state :=
  {| SiteSweep.db := SiteSweep.db st;
     SiteSweep.blobs := objects;
     SiteSweep.siteDeletedCount := SiteSweep.siteDeletedCount st |}.

(** DELETE /screenshots/:id, [getScreenshot] answering; [immediate] is
    [req.query.immediate === 'true'].  A rejected blob deletion is logged
    and passed over; a rejected update or deletion of the row is
    answered 500. *)
Definition deleteScreenshotRoute (f : faults) (immediate : bool) (i : string)
    (st : SiteSweep.state) : reply * SiteSweep.state :=
  if negb (UUID_REGEX_test i) then (BadRequest, st)
  else
    match lookup_id (uuid i) (SiteSweep.screenshots (SiteSweep.db st)) with
    | None => (NotFound, st)
    | Some screenshot =>
        if immediate then
          let st1 :=
            if deleteScreenshot_fails f (bucket screenshot) (storageKey screenshot)
            then st
            else with_blobs
                   (deleteScreenshot (bucket screenshot) (storageKey screenshot)
                      (SiteSweep.blobs st)) st in
          if deleteScreenshotRecord_fails f (uuid i) then (InternalServerError, st1)
          else (Success "Screenshot deleted",
                with_screenshots
                  (deleteScreenshotRecord (uuid i)
                     (SiteSweep.screenshots (SiteSweep.db st1))) st1)
        else
          if updateScreenshotStatus_fails f (uuid i) then (InternalServerError, st)
          else (Success "Screenshot marked for deletion",
                with_screenshots
                  (updateScreenshotStatus (uuid i) expired
                     (SiteSweep.screenshots (SiteSweep.db st))) st)
    end.

(** What every run of the sweep preserves of a row [r] that is not
    [completed]: its blob is stored and no other row leads to that blob;
    the row is found under its id [i] unless a cascade has removed it,
    which a row that belongs to no site capture is safe from. *)
Record parked (i : string) (r : Screenshot) (st : SiteSweep.state) : Prop := {
  parked_key :
    List.NoDup (List.map id (SiteSweep.screenshots (SiteSweep.db st)));
  parked_row :
    lookup_id i (SiteSweep.screenshots (SiteSweep.db st)) = Some r \/
    lookup_id i (SiteSweep.screenshots (SiteSweep.db st)) = None;
  parked_standalone :
    SiteSweep.site_capture_id (SiteSweep.db st) i = None ->
    lookup_id i (SiteSweep.screenshots (SiteSweep.db st)) = Some r;
  parked_blob : In (bucket r, storageKey r) (SiteSweep.blobs st);
  parked_own :
    forall a, In a (SiteSweep.screenshots (SiteSweep.db st)) ->
      (bucket a, storageKey a) = (bucket r, storageKey r) -> id a = i
}.

End Routes.


(** ** Sample documents and a sample platform

    Concrete inputs on which the properties below are exercised. *)

Module Sample.
Import Sitemap.

Definition index_xml : string :=
  "<?xml version='1.0' encoding='UTF-8'?>" +:+
  "<sitemapindex xmlns='http://www.sitemaps.org/schemas/sitemap/0.9'>" +:+
  "<sitemap><loc>https://a.example/pages.xml</loc></sitemap>" +:+
  "<sitemap><loc>https://a.example/missing.xml</loc></sitemap>" +:+
  "<sitemap><loc> https://a.example/posts.xml </loc>" +:+
  "<lastmod>2024-05-01</lastmod></sitemap>" +:+
  "</sitemapindex>".

Definition pages_xml : string :=
  "<urlset xmlns='http://www.sitemaps.org/schemas/sitemap/0.9'>" +:+
  "<url><loc>https://a.example/pricing</loc><priority>0.8</priority></url>" +:+
  "<url><loc>https://a.example/</loc></url>" +:+
  "</urlset>".

Definition posts_xml : string :=
  "<urlset>" +:+
  "<url><loc>https://a.example/blog/hello</loc><lastmod>2024-04-30</lastmod></url>" +:+
  "</urlset>".

(** A sitemap with a relative [<loc>]. *)
Definition relative_xml : string :=
  "<urlset>" +:+
  "<url><loc>https://a.example/</loc></url>" +:+
  "<url><loc>/about</loc></url>" +:+
  "</urlset>".

Definition fetchUrl (url : string) : string + string :=
  if String.eqb url "https://a.example/sitemap.xml" then inr index_xml
  else if String.eqb url "https://a.example/pages.xml" then inr pages_xml
  else if String.eqb url "https://a.example/posts.xml" then inr posts_xml
  else if String.eqb url "https://a.example/relative.xml" then inr relative_xml
  else inl "HTTP 404: Not Found".

(** A stand-in for [new URL(s).pathname], good enough for plain
    [http://host/path] and [https://host/path] strings; everything else
    is refused. *)
Definition URL_pathname (s : string) : option string :=
  let after_scheme :=
    match JS.strip_prefix JS.eqb_ci "https://" s with
    | Some rest => Some rest
    | None => JS.strip_prefix JS.eqb_ci "http://" s
    end in
  match after_scheme with
  | Some rest =>
      match JS.span_until "/" rest with
      | (EmptyString, _) => None
      | (_, EmptyString) => Some "/"
      | (_, path) => Some path
      end
  | None => None
  end.

(** A stand-in for [localeCompare]: code-unit order. *)
Fixpoint localeCompare (a b : string) : Z :=
  match a, b with
  | EmptyString, EmptyString => 0
  | EmptyString, String _ _ => -1
  | String _ _, EmptyString => 1
  | String x a', String y b' =>
      match Nat.compare (nat_of_ascii x) (nat_of_ascii y) with
      | Lt => -1
      | Gt => 1
      | Eq => localeCompare a' b'
      end
  end.

(** Three pages are out and a fourth lease is queued; page 1 is being
    released: its [releasePage] has decremented the counter, shifted
    lease 4 and awaits [initBrowser()]. *)
Definition release_in_progress : list Browser.label :=
  [Browser.AcquireCall 1; Browser.AcquireReady 1 true;
   Browser.AcquireCall 2; Browser.AcquireReady 2 true;
   Browser.AcquireCall 3; Browser.AcquireReady 3 true;
   Browser.AcquireCall 4;
   Browser.ReleaseCall 1; Browser.PageClosed 1]%nat.

Definition page (l : string) : SitemapUrl :=
  {| loc := l; lastmod := None; priority := None |}.

Definition three_pages : list SitemapUrl :=
  [page "https://a.example/"; page "https://a.example/blog/hello";
   page "https://a.example/pricing"].

(** Two workers over three pages: the second worker's first capture
    fails, every progress update is stored before the next capture
    settles, the queue drains. *)
Definition drained_schedule : list SiteCapture.label :=
  [SiteCapture.CaptureSettled 1 false; SiteCapture.UpdateSettled 1 true;
   SiteCapture.CaptureSettled 0 true; SiteCapture.UpdateSettled 0 true;
   SiteCapture.CaptureSettled 1 false; SiteCapture.UpdateSettled 1 true;
   SiteCapture.Join true true]%nat.

(** One page: its capture succeeds, the store refuses the progress
    update, the caller's [catch] marks the job failed. *)
Definition refused_schedule : list SiteCapture.label :=
  [SiteCapture.CaptureSettled 0 true; SiteCapture.UpdateSettled 0 false;
   SiteCapture.Join true true]%nat.

(** The states these two schedules end in. *)
Definition drained_final : SiteCapture.state :=
  Eval vm_compute in
    default (SiteCapture.processSiteCapture 2 three_pages)
      (SiteCapture.run drained_schedule
         (SiteCapture.processSiteCapture 2 three_pages)).

Definition refused_final : SiteCapture.state :=
  Eval vm_compute in
    default (SiteCapture.processSiteCapture 2 [page "https://a.example/"])
      (SiteCapture.run refused_schedule
         (SiteCapture.processSiteCapture 2 [page "https://a.example/"])).

(** Two expired screenshots and one that is still fresh at instant 2000;
    the blob store refuses to delete the first one. *)
Definition shots : list Cleanup.Screenshot :=
  [ {| Cleanup.id := "shot-1"; Cleanup.bucket := "screenshots";
       Cleanup.storageKey := "2024/05/01/shot-1.png";
       Cleanup.expiresAt := 1000; Cleanup.status := Cleanup.completed |};
    {| Cleanup.id := "shot-2"; Cleanup.bucket := "screenshots";
       Cleanup.storageKey := "2024/05/01/shot-2.png";
       Cleanup.expiresAt := 1500; Cleanup.status := Cleanup.completed |};
    {| Cleanup.id := "shot-3"; Cleanup.bucket := "screenshots";
       Cleanup.storageKey := "2024/05/02/shot-3.png";
       Cleanup.expiresAt := 9000; Cleanup.status := Cleanup.completed |} ].

Definition blob_outage : Cleanup.faults :=
  {| Cleanup.deleteScreenshot_fails :=
       fun _ key => String.eqb key "2024/05/01/shot-1.png";
     Cleanup.deleteScreenshotRecord_fails := fun _ => false;
     Cleanup.updateScreenshotStatus_fails := fun _ => false |}.

Definition before_sweep : Cleanup.state :=
  {| Cleanup.isRunning := false;
     Cleanup.screenshots := shots;
     Cleanup.blobs := [ ("screenshots", "2024/05/01/shot-1.png");
                        ("screenshots", "2024/05/01/shot-2.png");
                        ("screenshots", "2024/05/02/shot-3.png") ];
     Cleanup.deletedCount := 0; Cleanup.errorCount := 0;
     Cleanup.calls := [] |}.

(** A sitemap index that lists itself. *)
Definition loop_xml : string :=
  "<sitemapindex>" +:+
  "<sitemap><loc>https://b.example/sitemap.xml</loc></sitemap>" +:+
  "</sitemapindex>".

Definition loop_fetchUrl (url : string) : string + string :=
  if String.eqb url "https://b.example/sitemap.xml" then inr loop_xml
  else inl "HTTP 404: Not Found".

(** Three sitemap indexes in a row, each listing the next, and below
    them a sitemap with pages: the pages are four levels down. *)
Definition index_of (nested : string) : string :=
  "<sitemapindex>" +:+
  "<sitemap><loc>" +:+ nested +:+ "</loc></sitemap>" +:+
  "</sitemapindex>".

Definition deep_fetchUrl (url : string) : string + string :=
  if String.eqb url "https://d.example/sitemap.xml"
  then inr (index_of "https://d.example/level1.xml")
  else if String.eqb url "https://d.example/level1.xml"
  then inr (index_of "https://d.example/level2.xml")
  else if String.eqb url "https://d.example/level2.xml"
  then inr (index_of "https://d.example/level3.xml")
  else if String.eqb url "https://d.example/level3.xml" then inr pages_xml
  else inl "HTTP 404: Not Found".

(** A sitemap as generators write it: one [<url>] element with its
    [<loc>] per location, in a [<urlset>] element with attributes. *)
Fixpoint url_elements (locs : list string) (tail : string) : string :=
  match locs with
  | [] => tail
  | l :: rest => "<url><loc>" +:+ l +:+ "</loc></url>" +:+ url_elements rest tail
  end.

Definition urlset (attrs : string) (locs : list string) : string :=
  "<urlset" +:+ attrs +:+ ">" +:+ url_elements locs "</urlset>".

(** A robots.txt with two [Sitemap] directives, the first one in lower
    case and padded with blanks. *)
Definition robots_txt : string :=
  "User-agent: *" +:+ String "010" "Disallow: /admin" +:+
  String "010" "sitemap:   https://c.example/maps/all.xml  " +:+
  String "013" (String "010" "Sitemap: https://c.example/other.xml").

(** A site without sitemap at the two usual places. *)
Definition robots_fetchUrl (url : string) : string + string :=
  if String.eqb url "https://c.example/robots.txt" then inr robots_txt
  else if String.eqb url "https://c.example/maps/all.xml" then inr pages_xml
  else inl "HTTP 404: Not Found".

(** A stand-in for [new URL(path, base).toString()] on bases of the
    form [https://host] or [https://host/...]. *)
Definition URL_resolve (path base : string) : option string :=
  match JS.strip_prefix JS.eqb_ci "https://" base with
  | Some rest =>
      match JS.span_until "/" rest with
      | (EmptyString, _) => None
      | (host, _) => Some ("https://" +:+ host +:+ path)
      end
  | None => None
  end.

(** Two workers over three pages: the store refuses the first progress
    update, [Promise.all] rejects and the caller's [catch] marks the job
    failed. *)
Definition rejected_schedule : list SiteCapture.label :=
  [SiteCapture.CaptureSettled 0 true; SiteCapture.UpdateSettled 0 false;
   SiteCapture.Join true true]%nat.

Definition rejected_job : SiteCapture.state :=
  Eval vm_compute in
    default (SiteCapture.processSiteCapture 2 three_pages)
      (SiteCapture.run rejected_schedule
         (SiteCapture.processSiteCapture 2 three_pages)).

(** The other worker goes on: it captures the two remaining pages. *)
Definition late_schedule : list SiteCapture.label :=
  [SiteCapture.CaptureSettled 1 true; SiteCapture.UpdateSettled 1 true;
   SiteCapture.CaptureSettled 1 true; SiteCapture.UpdateSettled 1 true]%nat.

Definition late_final : SiteCapture.state :=
  Eval vm_compute in
    default rejected_job (SiteCapture.run late_schedule rejected_job).


(** Stores that take every call. *)
Definition no_faults : Cleanup.faults :=
  {| Cleanup.deleteScreenshot_fails := fun _ _ => false;
     Cleanup.deleteScreenshotRecord_fails := fun _ => false;
     Cleanup.updateScreenshotStatus_fails := fun _ => false |}.

(** A site capture that expired at 1800, with one page captured late:
    its screenshot is still fresh at instant 2000. *)
Definition late_page : Cleanup.Screenshot :=
  {| Cleanup.id := "shot-9"; Cleanup.bucket := "screenshots";
     Cleanup.storageKey := "2024/05/02/shot-9.png";
     Cleanup.expiresAt := 2500; Cleanup.status := Cleanup.completed |}.

Definition site_store : SiteSweep.state :=
  {| SiteSweep.db :=
       {| SiteSweep.site_captures :=
            [ {| SiteSweep.siteId := "site-1"; SiteSweep.siteExpiresAt := 1800;
                 SiteSweep.siteStatus := SiteCapture.completed |} ];
          SiteSweep.screenshots := shots ++ [late_page];
          SiteSweep.site_capture_id :=
            fun i => if String.eqb i "shot-9" then Some "site-1" else None |};
     SiteSweep.blobs := [ ("screenshots", "2024/05/01/shot-1.png");
                          ("screenshots", "2024/05/01/shot-2.png");
                          ("screenshots", "2024/05/02/shot-3.png");
                          ("screenshots", "2024/05/02/shot-9.png") ];
     SiteSweep.siteDeletedCount := 0 |}.

(** The three screenshots of [shots] in a store without site
    captures. *)
Definition standalone_store : SiteSweep.state :=
  {| SiteSweep.db :=
       {| SiteSweep.site_captures := [];
          SiteSweep.screenshots := shots;
          SiteSweep.site_capture_id := fun _ => None |};
     SiteSweep.blobs := [ ("screenshots", "2024/05/01/shot-1.png");
                          ("screenshots", "2024/05/01/shot-2.png");
                          ("screenshots", "2024/05/02/shot-3.png") ];
     SiteSweep.siteDeletedCount := 0 |}.

(** One screenshot under a UUID, already past its expiry at 5000, and
    the id as a client may write it. *)
Definition stored_shot : Cleanup.Screenshot :=
  {| Cleanup.id := "123e4567-e89b-42d3-a456-426614174000";
     Cleanup.bucket := "screenshots";
     Cleanup.storageKey := "2024/05/03/a-example.png";
     Cleanup.expiresAt := 4000; Cleanup.status := Cleanup.completed |}.

Definition stored_shot_id : string := "123E4567-e89b-42d3-A456-426614174000".

Definition one_shot_store : SiteSweep.state :=
  {| SiteSweep.db :=
       {| SiteSweep.site_captures := [];
          SiteSweep.screenshots := [stored_shot];
          SiteSweep.site_capture_id := fun _ => None |};
     SiteSweep.blobs := [ ("screenshots", "2024/05/03/a-example.png") ];
     SiteSweep.siteDeletedCount := 0 |}.

(** The same screenshot as a page of a site capture that expires at
    4500. *)
Definition one_page_store : SiteSweep.state :=
  {| SiteSweep.db :=
       {| SiteSweep.site_captures :=
            [ {| SiteSweep.siteId := "9b2e4c1a-0d3f-4e5a-8b7c-6d5e4f3a2b1c";
                 SiteSweep.siteExpiresAt := 4500;
                 SiteSweep.siteStatus := SiteCapture.completed |} ];
          SiteSweep.screenshots := [stored_shot];
          SiteSweep.site_capture_id :=
            fun _ => Some "9b2e4c1a-0d3f-4e5a-8b7c-6d5e4f3a2b1c" |};
     SiteSweep.blobs := [ ("screenshots", "2024/05/03/a-example.png") ];
     SiteSweep.siteDeletedCount := 0 |}.

(** Three sweeps, at 5000, 9000 and 12000; the blob store is out during
    the second one. *)
Definition later_sweeps : list ((string -> bool) * Cleanup.faults * Z) :=
  [ (fun _ => false, no_faults, 5000); (fun _ => false, blob_outage, 9000);
    (fun _ => true, no_faults, 12000) ].

End Sample.

(** * Properties *)

Module RateLimitFacts.
Import RateLimit.

Example parse_2_per_second :
  parseRateLimit "2/second" = {| requests := 2; windowMs := 1000 |}.
Proof. reflexivity. Qed.

Example parse_100_per_minute :
  parseRateLimit "100/minute" = {| requests := 100; windowMs := 60000 |}.
Proof. reflexivity. Qed.

Example parse_invalid :
  parseRateLimit "2/hour" = {| requests := 10; windowMs := 1000 |}.
Proof. reflexivity. Qed.

End RateLimitFacts.

Module RateLimitProofs.
Import RateLimit.

Lemma filter_all_stale now w l :
  Forall (fun ts => w <= now - ts) l ->
  List.filter (fun ts => now - ts <? w) l = [].
Proof.
  induction 1 as [|ts l Hts _ IH]; simpl; [reflexivity|].
  destruct (Z.ltb_spec (now - ts) w); [lia | exact IH].
Qed.

Lemma ceil_div_unit x : 0 < x <= 1000 -> JS.ceil_div x 1000 = 1.
Proof.
  intros Hx. unfold JS.ceil_div.
  assert (H : (- x) / 1000 = -1); [|lia].
  symmetry. apply (Z.div_unique_pos (- x) 1000 (-1) (1000 - x)); lia.
Qed.

Section TwoPerSecond.
Variable k : ApiKey.
Hypothesis Hlimit : rateLimit k = "2/second".

Lemma live_timestamps_unfold now (m : gmap string (list Z)) :
  rateLimitMiddleware (Some k) now m =
    let timestamps :=
      List.filter (fun ts => now - ts <? 1000) (default [] (m !! name k)) in
    if JS.len timestamps >=? 2 then
      (TooManyRequests
         (Z.max 1 (JS.ceil_div (List.hd now timestamps + 1000 - now) 1000)),
       <[name k := timestamps]> m)
    else
      (Next (Some (2, 2 - JS.len (timestamps ++ [now]), "1s")),
       <[name k := timestamps ++ [now]]> m).
Proof.
  unfold rateLimitMiddleware. rewrite Hlimit.
  change (parseRateLimit "2/second") with {| requests := 2; windowMs := 1000 |}.
  reflexivity.
Qed.
End TwoPerSecond.

(** C4. With a key limited to 2/second and no live timestamp recorded for
    it, three checks at instants [t1 <= t2 <= t3] inside one second are
    answered allow, allow, reject; the rejection's [retryAfter] is the
    time until [t1], the oldest retained timestamp, leaves the window
    (rounded up to seconds and at least 1: here one second); the
    rejected request is not
    recorded; and a check at [t4], once [t1] is a full window old, is
    allowed again because [t1] is discarded before counting. *)
Theorem rate_limit_two_per_second
    (k : ApiKey) (m : gmap string (list Z)) (t1 t2 t3 t4 : Z) :
  rateLimit k = "2/second" ->
  Forall (fun ts => 1000 <= t1 - ts) (default [] (m !! name k)) ->
  t1 <= t2 -> t2 <= t3 -> t3 - t1 < 1000 -> 1000 <= t4 - t1 ->
  let s1 := rateLimitMiddleware (Some k) t1 m in
  let s2 := rateLimitMiddleware (Some k) t2 s1.2 in
  let s3 := rateLimitMiddleware (Some k) t3 s2.2 in
  let s4 := rateLimitMiddleware (Some k) t4 s3.2 in
  s1.1 = Next (Some (2, 1, "1s")) /\
  s2.1 = Next (Some (2, 0, "1s")) /\
  s3.1 = TooManyRequests (Z.max 1 (JS.ceil_div (t1 + 1000 - t3) 1000)) /\
  1 <= Z.max 1 (JS.ceil_div (t1 + 1000 - t3) 1000) /\
  JS.ceil_div (t1 + 1000 - t3) 1000 = 1 /\
  s3.2 !! name k = Some [t1; t2] /\
  exists remaining, s4.1 = Next (Some (2, remaining, "1s")) /\ 0 <= remaining.
Proof.
  intros Hlim Hstale H12 H23 Hwin Hlater.
  assert (E1 : rateLimitMiddleware (Some k) t1 m =
               (Next (Some (2, 1, "1s")), <[name k := [t1]]> m)).
  { rewrite (live_timestamps_unfold k Hlim). cbv zeta.
    rewrite (filter_all_stale _ _ _ Hstale). reflexivity. }
  assert (E2 : rateLimitMiddleware (Some k) t2 (<[name k := [t1]]> m) =
               (Next (Some (2, 0, "1s")),
                <[name k := [t1; t2]]> (<[name k := [t1]]> m))).
  { rewrite (live_timestamps_unfold k Hlim). cbv zeta.
    rewrite lookup_insert_eq. cbn [default from_option id List.filter].
    destruct (Z.ltb_spec (t2 - t1) 1000) as [_|?]; [reflexivity | lia]. }
  assert (E3 : rateLimitMiddleware (Some k) t3
                 (<[name k := [t1; t2]]> (<[name k := [t1]]> m)) =
               (TooManyRequests (Z.max 1 (JS.ceil_div (t1 + 1000 - t3) 1000)),
                <[name k := [t1; t2]]>
                  (<[name k := [t1; t2]]> (<[name k := [t1]]> m)))).
  { rewrite (live_timestamps_unfold k Hlim). cbv zeta.
    rewrite lookup_insert_eq. cbn [default from_option id List.filter].
    destruct (Z.ltb_spec (t3 - t1) 1000) as [_|?]; [|lia].
    destruct (Z.ltb_spec (t3 - t2) 1000) as [_|?]; [reflexivity | lia]. }
  cbv zeta. rewrite E1. cbn [fst snd]. rewrite E2. cbn [fst snd].
  rewrite E3. cbn [fst snd].
  repeat split; try lia.
  - apply ceil_div_unit. lia.
  - apply lookup_insert_eq.
  - rewrite (live_timestamps_unfold k Hlim). cbv zeta.
    rewrite lookup_insert_eq. cbn [default from_option id List.filter].
    destruct (Z.ltb_spec (t4 - t1) 1000) as [?|_]; [lia|].
    destruct (Z.ltb_spec (t4 - t2) 1000) as [_|_].
    + exists 0. split; [reflexivity | lia].
    + exists 1. split; [reflexivity | lia].
Qed.

Lemma rate_limit_two_per_second_witness :
  let k := {| name := "Production"; rateLimit := "2/second" |} in
  let s1 := rateLimitMiddleware (Some k) 5000 ∅ in
  let s2 := rateLimitMiddleware (Some k) 5300 s1.2 in
  let s3 := rateLimitMiddleware (Some k) 5900 s2.2 in
  let s4 := rateLimitMiddleware (Some k) 6100 s3.2 in
  s1.1 = Next (Some (2, 1, "1s")) /\
  s2.1 = Next (Some (2, 0, "1s")) /\
  s3.1 = TooManyRequests (Z.max 1 (JS.ceil_div (5000 + 1000 - 5900) 1000)) /\
  1 <= Z.max 1 (JS.ceil_div (5000 + 1000 - 5900) 1000) /\
  JS.ceil_div (5000 + 1000 - 5900) 1000 = 1 /\
  s3.2 !! "Production" = Some [5000; 5300] /\
  exists remaining, s4.1 = Next (Some (2, remaining, "1s")) /\ 0 <= remaining.
Proof.
  apply (rate_limit_two_per_second
           {| name := "Production"; rateLimit := "2/second" |} ∅ 5000 5300 5900 6100);
    try reflexivity; try lia.
  rewrite lookup_empty. constructor.
Defined.

End RateLimitProofs.

Module BrowserProofs.
Import Browser.

(** The guard of [acquirePage] alone keeps the ceiling. *)
Lemma acquirePage_within_ceiling maxConcurrentPages c s :
  activePages s <= maxConcurrentPages ->
  activePages (acquirePage maxConcurrentPages c s) <= maxConcurrentPages.
Proof.
  intros H. unfold acquirePage.
  destruct (Z.ltb_spec (activePages s) maxConcurrentPages); simpl; lia.
Qed.

Lemma resume_In t ts : In t ts -> exists rest, resume t ts = Some rest.
Proof.
  induction ts as [|t' ts IH]; simpl; [tauto|].
  intros Hin. destruct (task_eqb t t') eqn:Heq; [eauto|].
  destruct Hin as [->|Hin].
  - destruct t; simpl in Heq; now rewrite Nat.eqb_refl in Heq.
  - destruct (IH Hin) as [rest ->]. simpl. eauto.
Qed.

Lemma resume_last t ts : exists rest, resume t (ts ++ [t]) = Some rest.
Proof. apply resume_In. apply in_app_iff. right. now left. Qed.

Lemma run_cons maxConcurrentPages l ls s s' :
  step maxConcurrentPages l s = Some s' ->
  run maxConcurrentPages (l :: ls) s = run maxConcurrentPages ls s'.
Proof. intros H. simpl. now rewrite H. Qed.

(** X7. The window in general: whenever the pool is at its ceiling with
    a lease queued and a page held, releasing that page and letting one
    [acquirePage] call run before the hand-off resumes takes the counter
    past the ceiling. *)
Lemma handoff_window_exceeds_ceiling maxConcurrentPages s c d next queue' :
  activePages s = maxConcurrentPages ->
  pageQueue s = next :: queue' ->
  isShuttingDown s = false ->
  In (Holding c) (tasks s) ->
  exists s',
    run maxConcurrentPages
        [ReleaseCall c; PageClosed c; AcquireCall d; BrowserReady next true] s
      = Some s' /\
    activePages s' = maxConcurrentPages + 1.
Proof.
  intros Hfull Hqueue Hup Hheld.
  destruct (resume_In _ _ Hheld) as [rest1 Hr1].
  destruct (resume_last (ReleaseClosing c) rest1) as [rest2 Hr2].
  set (s1 := with_tasks (rest1 ++ [ReleaseClosing c]) s).
  set (s2 := releasePage_closed rest2 s1).
  set (s3 := acquirePage maxConcurrentPages d s2).
  assert (H1 : step maxConcurrentPages (ReleaseCall c) s = Some s1)
    by (simpl; now rewrite Hr1).
  assert (H2 : step maxConcurrentPages (PageClosed c) s1 = Some s2)
    by (simpl; now rewrite Hr2).
  assert (Hs2 : activePages s2 = maxConcurrentPages - 1 /\
                tasks s2 = rest2 ++ [ReleaseInit next]).
  { unfold s2, releasePage_closed, s1. simpl. rewrite Hqueue, Hup. simpl.
    now rewrite Hfull. }
  destruct Hs2 as [Hactive2 Htasks2].
  assert (Hs3 : activePages s3 = maxConcurrentPages /\
                tasks s3 = (rest2 ++ [ReleaseInit next]) ++ [AcquireOpening d]).
  { unfold s3, acquirePage. rewrite Hactive2.
    destruct (Z.ltb_spec (maxConcurrentPages - 1) maxConcurrentPages); [|lia].
    simpl. rewrite Htasks2. split; [lia | reflexivity]. }
  destruct Hs3 as [Hactive3 Htasks3].
  assert (Hheld3 : In (ReleaseInit next) (tasks s3)).
  { rewrite Htasks3, !in_app_iff. left. right. now left. }
  destruct (resume_In _ _ Hheld3) as [rest4 Hr4].
  exists (releasePage_connected next true rest4 s3). split.
  - rewrite (run_cons _ _ _ _ _ H1), (run_cons _ _ _ _ _ H2).
    rewrite (run_cons _ (AcquireCall d) _ s2 s3 eq_refl).
    simpl. now rewrite Hr4.
  - simpl. lia.
Qed.

Example release_in_progress_state :
  run 3 Sample.release_in_progress initial =
    Some {| activePages := 2; pageQueue := []; isShuttingDown := false;
            tasks := [Holding 2; Holding 3; ReleaseInit 4]%nat;
            log := [Taken 1; Resolved 1; Taken 2; Resolved 2;
                    Taken 3; Resolved 3; Queued 4]%nat |}.
Proof. reflexivity. Qed.

(** C1. With the shipped ceiling of 3 pages: an [acquirePage] call that
    runs between the decrement of a [releasePage] and its hand-off finds
    [activePages = 2], takes the slot, and the hand-off then counts a
    fourth page: [activePages] reaches 4. *)
Theorem activePages_exceeds_ceiling :
  exists s,
    run 3 (Sample.release_in_progress ++ [AcquireCall 5; BrowserReady 4 true]%nat)
        initial = Some s /\
    activePages s = 4 /\
    3 < activePages s /\
    tasks s = [Holding 2; Holding 3; AcquireOpening 5; ReleaseNewPage 4]%nat.
Proof. eexists. repeat split. Qed.

(** C6. In the same situation the call of caller 5, issued while page 1
    is being released, takes a slot before the queued lease 4 is granted
    its page, whichever of the two page creations ends first; and when
    caller 5's ends first, caller 5 holds a page before lease 4 is even
    counted. *)
Theorem queued_lease_overtaken :
  (exists s,
     run 3 (Sample.release_in_progress ++
            [AcquireCall 5; BrowserReady 4 true; PageReady 4 true;
             AcquireReady 5 true]%nat) initial = Some s /\
     log s = [Taken 1; Resolved 1; Taken 2; Resolved 2; Taken 3;
              Resolved 3; Queued 4; Taken 5; Granted 4; Resolved 4;
              Resolved 5]%nat /\
     position (Taken 5%nat) (log s) = Some 7%nat /\
     position (Granted 4%nat) (log s) = Some 8%nat) /\
  (exists s,
     run 3 (Sample.release_in_progress ++
            [AcquireCall 5; AcquireReady 5 true; BrowserReady 4 true;
             PageReady 4 true]%nat) initial = Some s /\
     log s = [Taken 1; Resolved 1; Taken 2; Resolved 2; Taken 3;
              Resolved 3; Queued 4; Taken 5; Resolved 5; Granted 4;
              Resolved 4]%nat /\
     position (Resolved 5%nat) (log s) = Some 8%nat /\
     position (Granted 4%nat) (log s) = Some 9%nat).
Proof. split; eexists; repeat split. Qed.

End BrowserProofs.

Module SitemapProofs.
Import Sitemap.

Lemma firstn_In_incl {A} (e : A) n l : In e (firstn n l) -> In e l.
Proof.
  revert l. induction n as [|n IH]; intros [|x l]; simpl; try tauto.
  intros [->|H]; [now left | right; auto].
Qed.

Lemma slice0_le {A} (l : list A) n : 0 <= n -> JS.len (slice0 l n) <= n.
Proof.
  intros Hn. unfold slice0, JS.len.
  destruct (Z.ltb_spec n 0); [lia|].
  pose proof (firstn_le_length (Z.to_nat (Z.min n (Z.of_nat (length l)))) l).
  lia.
Qed.

Lemma slice0_In {A} (e : A) l n : In e (slice0 l n) -> In e l.
Proof. unfold slice0. destruct (n <? 0); apply firstn_In_incl. Qed.

Lemma len_app {A} (l1 l2 : list A) : JS.len (l1 ++ l2) = JS.len l1 + JS.len l2.
Proof. unfold JS.len. rewrite length_app. lia. Qed.


Lemma pushAll_empty_l r : pushAll emptyResult r = r.
Proof. now destruct r. Qed.


Section Loop.
Variable self : string -> Z -> SitemapResult.

(** The loop never lets the result grow past the budget, as long as
    each nested call keeps to the budget it is given. *)
Lemma collectNested_le maxPages nestedUrls result :
  (forall u m, 0 <= m -> JS.len (urls (self u m)) <= m) ->
  JS.len (urls result) <= maxPages ->
  JS.len (urls (collectNested self maxPages nestedUrls result)) <= maxPages.
Proof.
  intros Hself. revert result.
  induction nestedUrls as [|u rest IH]; intros result Hres; simpl; [exact Hres|].
  destruct (Z.geb_spec (JS.len (urls result)) maxPages) as [|Hlt]; [exact Hres|].
  apply IH. simpl. rewrite len_app.
  specialize (Hself u (maxPages - JS.len (urls result))). lia.
Qed.

Lemma collectNested_In maxPages nestedUrls result e :
  In e (urls (collectNested self maxPages nestedUrls result)) ->
  In e (urls result) \/
  exists u m, In u nestedUrls /\ In e (urls (self u m)).
Proof.
  revert result.
  induction nestedUrls as [|u rest IH]; intros result; simpl; [now left|].
  destruct (JS.len (urls result) >=? maxPages); [now left|].
  intros H. apply IH in H. simpl in H. rewrite in_app_iff in H.
  destruct H as [[H|H]|(u' & m & Hu & H)]; eauto 7.
Qed.

(** Running the loop over two lists in a row is running it over their
    concatenation: once the budget is spent every later step breaks. *)
Lemma collectNested_app maxPages l1 l2 result :
  collectNested self maxPages (l1 ++ l2) result =
  collectNested self maxPages l2 (collectNested self maxPages l1 result).
Proof.
  revert result. induction l1 as [|u l1 IH]; intros result; simpl; [reflexivity|].
  destruct (Z.geb_spec (JS.len (urls result)) maxPages) as [Hge|Hlt]; [|apply IH].
  destruct l2 as [|v l2]; simpl; [reflexivity|].
  destruct (Z.geb_spec (JS.len (urls result)) maxPages); [reflexivity | lia].
Qed.

End Loop.

Lemma collectNested_ext self1 self2 maxPages nestedUrls result :
  (forall u m, self1 u m = self2 u m) ->
  collectNested self1 maxPages nestedUrls result =
  collectNested self2 maxPages nestedUrls result.
Proof.
  intros Hext. revert result.
  induction nestedUrls as [|u rest IH]; intros result; simpl; [reflexivity|].
  destruct (JS.len (urls result) >=? maxPages); [reflexivity|].
  now rewrite Hext, IH.
Qed.

Section Collect.
Variable fetchUrl : string -> string + string.

Lemma collectBody_ext self1 self2 sitemapUrl maxPages depth :
  (forall u m, self1 u m (S depth) = self2 u m (S depth)) ->
  collectBody fetchUrl self1 sitemapUrl maxPages depth =
  collectBody fetchUrl self2 sitemapUrl maxPages depth.
Proof.
  intros Hext. unfold collectBody.
  destruct (MAX_SITEMAP_DEPTH <=? depth)%nat; [reflexivity|].
  destruct (fetchUrl sitemapUrl) as [msg|xml]; [reflexivity|].
  destruct (isSitemapIndex xml); [|reflexivity].
  now apply collectNested_ext.
Qed.

(** Unfolding the body more often than the depth bound requires
    changes nothing. *)
Lemma collectIter_stable n1 n2 sitemapUrl maxPages depth :
  (MAX_SITEMAP_DEPTH - depth < n1)%nat ->
  (MAX_SITEMAP_DEPTH - depth < n2)%nat ->
  collectIter fetchUrl n1 sitemapUrl maxPages depth =
  collectIter fetchUrl n2 sitemapUrl maxPages depth.
Proof.
  revert n2 sitemapUrl maxPages depth.
  induction n1 as [|n1 IH]; intros [|n2] u m d H1 H2; try lia.
  simpl. destruct (Nat.leb_spec MAX_SITEMAP_DEPTH d) as [Hd|Hd].
  - unfold collectBody. destruct (Nat.leb_spec MAX_SITEMAP_DEPTH d); [reflexivity|lia].
  - apply collectBody_ext. intros u' m'. apply IH; lia.
Qed.

(** [collectAllUrls] satisfies the recursive equation of the source. *)
Lemma collectAllUrls_unfold sitemapUrl maxPages depth :
  collectAllUrls fetchUrl sitemapUrl maxPages depth =
  collectBody fetchUrl (collectAllUrls fetchUrl) sitemapUrl maxPages depth.
Proof.
  unfold collectAllUrls at 1. cbn [collectIter].
  destruct (Nat.leb_spec MAX_SITEMAP_DEPTH depth) as [Hd|Hd].
  - unfold collectBody. destruct (Nat.leb_spec MAX_SITEMAP_DEPTH depth); [reflexivity|lia].
  - apply collectBody_ext. intros u m. unfold collectAllUrls.
    apply collectIter_stable; unfold MAX_SITEMAP_DEPTH in *; lia.
Qed.

Lemma collectIter_le n sitemapUrl maxPages depth :
  0 <= maxPages ->
  JS.len (urls (collectIter fetchUrl n sitemapUrl maxPages depth)) <= maxPages.
Proof.
  revert sitemapUrl maxPages depth.
  induction n as [|n IH]; intros u m d Hm; simpl; [exact Hm|].
  unfold collectBody.
  destruct (MAX_SITEMAP_DEPTH <=? d)%nat; [exact Hm|].
  destruct (fetchUrl u) as [msg|xml]; [exact Hm|].
  destruct (isSitemapIndex xml).
  - apply collectNested_le; [|exact Hm]. intros u' m' Hm'. now apply IH.
  - simpl. pose proof (slice0_le (parseSitemapUrls xml) (m - 0)). lia.
Qed.

Lemma collectIter_Yields n sitemapUrl maxPages depth e :
  In e (urls (collectIter fetchUrl n sitemapUrl maxPages depth)) ->
  Yields fetchUrl depth sitemapUrl e.
Proof.
  revert sitemapUrl maxPages depth.
  induction n as [|n IH]; intros u m d; simpl; [tauto|].
  unfold collectBody.
  destruct (Nat.leb_spec MAX_SITEMAP_DEPTH d) as [Hd|Hd]; [simpl; tauto|].
  destruct (fetchUrl u) as [msg|xml] eqn:Hfetch; [simpl; tauto|].
  destruct (isSitemapIndex xml) eqn:Hidx.
  - intros H. apply collectNested_In in H.
    destruct H as [[]|(u' & m' & Hu' & H)].
    eapply Yields_nested; eauto.
  - simpl. intros H. apply slice0_In in H.
    eapply Yields_leaf; eauto.
Qed.
End Collect.

Lemma collectAllUrls_too_deep fetchUrl sitemapUrl maxPages depth :
  (MAX_SITEMAP_DEPTH <= depth)%nat ->
  collectAllUrls fetchUrl sitemapUrl maxPages depth =
    {| urls := [];
       errors := ["Max sitemap depth (3) reached at " +:+ sitemapUrl] |}.
Proof.
  intros Hd. rewrite collectAllUrls_unfold. unfold collectBody.
  destruct (Nat.leb_spec MAX_SITEMAP_DEPTH depth); [reflexivity | lia].
Qed.

(** Nested sitemaps that are all refused for their depth use up none of
    the budget: the loop visits, and records, every one of them. *)
Lemma collectNested_too_deep self maxPages nestedUrls result :
  JS.len (urls result) < maxPages ->
  (forall u m, self u m =
     {| urls := [];
        errors := ["Max sitemap depth (3) reached at " +:+ u] |}) ->
  collectNested self maxPages nestedUrls result =
    {| urls := urls result ++ [];
       errors := errors result ++
                 List.map (fun nested =>
                             "Max sitemap depth (3) reached at " +:+ nested)
                          nestedUrls |}.
Proof.
  intros Hroom Hself. revert result Hroom.
  induction nestedUrls as [|u rest IH]; intros result Hroom; simpl.
  - destruct result. simpl. now rewrite !app_nil_r.
  - destruct (Z.geb_spec (JS.len (urls result)) maxPages); [lia|].
    rewrite Hself, IH; unfold pushAll; simpl; rewrite ?app_nil_r; [|exact Hroom].
    now rewrite <- app_assoc.
Qed.

(** The loop only ever adds to the errors it has. *)
Lemma collectNested_errors_kept self maxPages nestedUrls result message :
  In message (errors result) ->
  In message (errors (collectNested self maxPages nestedUrls result)).
Proof.
  revert result. induction nestedUrls as [|u rest IH]; intros result Hin; simpl;
    [exact Hin|].
  destruct (JS.len (urls result) >=? maxPages); [exact Hin|].
  apply IH. cbn [pushAll errors]. apply in_app_iff. now left.
Qed.

(** The soft errors of every call made on the way are in the errors of
    the call that led to it. *)
Lemma Calls_errors fetchUrl u m d u' m' d' message :
  Calls fetchUrl u m d u' m' d' ->
  In message (errors (collectAllUrls fetchUrl u' m' d')) ->
  In message (errors (collectAllUrls fetchUrl u m d)).
Proof.
  induction 1 as [|u m d xml before nested after u' m' d'
                   Hd Hfetch Hidx Hparse Hroom _ IH]; [auto|].
  intros Hin. specialize (IH Hin).
  rewrite (collectAllUrls_unfold fetchUrl u). unfold collectBody.
  destruct (Nat.leb_spec MAX_SITEMAP_DEPTH d) as [?|_]; [lia|].
  rewrite Hfetch, Hidx, Hparse, collectNested_app.
  cbn [collectNested].
  destruct (Z.geb_spec
              (JS.len (urls (collectNested
                               (fun v k => collectAllUrls fetchUrl v k (S d))
                               m before emptyResult))) m) as [?|_]; [lia|].
  apply collectNested_errors_kept. cbn [pushAll errors].
  apply in_app_iff. now right.
Qed.

(** C3. For every network, sitemap URL, budget [maxPages >= 1] and
    depth, [collectAllUrls] returns at most [maxPages] URLs; every URL it
    returns is listed by a sitemap reached through sitemaps that are all
    at a recursion depth below 3; a call at recursion depth 3 or more
    fetches nothing and returns no URL and one soft error; so an index
    fetched at depth 2 yields no URL and one such error for each sitemap
    it lists.  The soft errors of every call made on the way, however
    deep, are in the errors of the outermost call: for every sitemap that
    the collection reaches at depth 3 (or more), the errors returned for
    the starting sitemap hold its "Max sitemap depth" error. *)
Theorem collectAllUrls_budget_and_depth
    (fetchUrl : string -> string + string)
    (sitemapUrl : string) (maxPages : Z) (depth : nat) :
  1 <= maxPages ->
  JS.len (urls (collectAllUrls fetchUrl sitemapUrl maxPages depth)) <= maxPages /\
  (forall e, In e (urls (collectAllUrls fetchUrl sitemapUrl maxPages depth)) ->
             Yields fetchUrl depth sitemapUrl e) /\
  (forall nested budget d,
     (MAX_SITEMAP_DEPTH <= d)%nat ->
     collectAllUrls fetchUrl nested budget d =
       {| urls := [];
          errors := ["Max sitemap depth (3) reached at " +:+ nested] |}) /\
  (forall index xml,
     fetchUrl index = inr xml -> isSitemapIndex xml = true ->
     collectAllUrls fetchUrl index maxPages 2 =
       {| urls := [];
          errors := List.map (fun nested =>
                                "Max sitemap depth (3) reached at " +:+ nested)
                             (parseSitemapIndex xml) |}) /\
  (forall nested budget d message,
     Calls fetchUrl sitemapUrl maxPages depth nested budget d ->
     In message (errors (collectAllUrls fetchUrl nested budget d)) ->
     In message (errors (collectAllUrls fetchUrl sitemapUrl maxPages depth))) /\
  (forall nested budget d,
     Calls fetchUrl sitemapUrl maxPages depth nested budget d ->
     (MAX_SITEMAP_DEPTH <= d)%nat ->
     In ("Max sitemap depth (3) reached at " +:+ nested)
        (errors (collectAllUrls fetchUrl sitemapUrl maxPages depth))).
Proof.
  intros Hm. split; [|split; [|split; [|split; [|split]]]].
  - apply collectIter_le. lia.
  - apply collectIter_Yields.
  - intros nested budget d Hd. now apply collectAllUrls_too_deep.
  - intros index xml Hfetch Hidx.
    rewrite collectAllUrls_unfold. unfold collectBody.
    change (MAX_SITEMAP_DEPTH <=? 2)%nat with false.
    rewrite Hfetch, Hidx.
    rewrite (collectNested_too_deep (fun u m => collectAllUrls fetchUrl u m 3));
      [now rewrite !app_nil_r | unfold JS.len; simpl; lia | ].
    intros u m. apply collectAllUrls_too_deep. unfold MAX_SITEMAP_DEPTH. lia.
  - intros nested budget d message Hcalls. now apply Calls_errors.
  - intros nested budget d Hcalls Hd.
    apply (Calls_errors _ _ _ _ _ _ _ _ Hcalls).
    rewrite (collectAllUrls_too_deep _ _ _ _ Hd). now left.
Qed.


End SitemapProofs.

Module SitemapExamples.
Import Sitemap.

Example parse_index :
  parseSitemapIndex Sample.index_xml =
    ["https://a.example/pages.xml"; "https://a.example/missing.xml";
     "https://a.example/posts.xml"].
Proof. vm_compute. reflexivity. Qed.

Example parse_pages :
  parseSitemapUrls Sample.pages_xml =
    [ {| loc := "https://a.example/pricing"; lastmod := None; priority := Some "0.8" |};
      {| loc := "https://a.example/"; lastmod := None; priority := None |} ].
Proof. vm_compute. reflexivity. Qed.

Example collect_sample :
  collectAllUrls Sample.fetchUrl "https://a.example/sitemap.xml" 100 0 =
    {| urls :=
         [ {| loc := "https://a.example/pricing"; lastmod := None; priority := Some "0.8" |};
           {| loc := "https://a.example/"; lastmod := None; priority := None |};
           {| loc := "https://a.example/blog/hello"; lastmod := Some "2024-04-30";
              priority := None |} ];
       errors := ["Failed to fetch https://a.example/missing.xml: HTTP 404: Not Found"] |}.
Proof. vm_compute. reflexivity. Qed.

Example collect_sample_budget :
  List.map loc (urls (collectAllUrls Sample.fetchUrl "https://a.example/sitemap.xml" 1 0))
  = ["https://a.example/pricing"].
Proof. vm_compute. reflexivity. Qed.

Example sort_sample :
  option_map (List.map loc)
    (sortUrlsByPath Sample.URL_pathname Sample.localeCompare
       (urls (collectAllUrls Sample.fetchUrl "https://a.example/sitemap.xml" 100 0)))
  = Some ["https://a.example/"; "https://a.example/blog/hello";
          "https://a.example/pricing"].
Proof. vm_compute. reflexivity. Qed.

End SitemapExamples.

Module SitemapWitnesses.
Import Sitemap SitemapProofs.

(** The chain of four sitemaps of [Sample.deep_fetchUrl]: the call on
    the first one leads to a call on the fourth one at depth 3. *)
Lemma deep_chain_calls :
  Calls Sample.deep_fetchUrl "https://d.example/sitemap.xml" 10 0
    "https://d.example/level3.xml" 10 3.
Proof.
  assert (Hstep : forall u xml nested d u' m' d',
            (d < MAX_SITEMAP_DEPTH)%nat ->
            Sample.deep_fetchUrl u = inr xml -> isSitemapIndex xml = true ->
            parseSitemapIndex xml = [nested] ->
            Calls Sample.deep_fetchUrl nested 10 (S d) u' m' d' ->
            Calls Sample.deep_fetchUrl u 10 d u' m' d').
  { intros u xml nested d u' m' d' Hd Hfetch Hidx Hparse Hrest.
    apply (Calls_nested Sample.deep_fetchUrl u 10 d xml [] nested [] u' m' d'
             Hd Hfetch Hidx Hparse); [reflexivity | exact Hrest]. }
  apply (Hstep _ (Sample.index_of "https://d.example/level1.xml")
           "https://d.example/level1.xml");
    [unfold MAX_SITEMAP_DEPTH; lia | reflexivity | reflexivity
    | vm_compute; reflexivity |].
  apply (Hstep _ (Sample.index_of "https://d.example/level2.xml")
           "https://d.example/level2.xml");
    [unfold MAX_SITEMAP_DEPTH; lia | reflexivity | reflexivity
    | vm_compute; reflexivity |].
  apply (Hstep _ (Sample.index_of "https://d.example/level3.xml")
           "https://d.example/level3.xml");
    [unfold MAX_SITEMAP_DEPTH; lia | reflexivity | reflexivity
    | vm_compute; reflexivity |].
  apply Calls_here.
Qed.

Lemma collectAllUrls_budget_and_depth_witness :
  JS.len (urls (collectAllUrls Sample.deep_fetchUrl
                  "https://d.example/sitemap.xml" 10 0)) <= 10 /\
  In "Max sitemap depth (3) reached at https://d.example/level3.xml"
     (errors (collectAllUrls Sample.deep_fetchUrl
                "https://d.example/sitemap.xml" 10 0)) /\
  collectAllUrls Sample.deep_fetchUrl "https://d.example/level3.xml" 10 3 =
    {| urls := [];
       errors := ["Max sitemap depth (3) reached at " +:+
                  "https://d.example/level3.xml"] |}.
Proof.
  destruct (collectAllUrls_budget_and_depth
              Sample.deep_fetchUrl "https://d.example/sitemap.xml" 10 0
              ltac:(lia)) as (Hle & _ & Hdeep & _ & _ & Hroot).
  split; [exact Hle|]. split.
  - apply (Hroot "https://d.example/level3.xml" 10 3%nat deep_chain_calls).
    unfold MAX_SITEMAP_DEPTH. lia.
  - apply Hdeep. unfold MAX_SITEMAP_DEPTH. lia.
Defined.


End SitemapWitnesses.

Module SortProofs.
Import Sitemap SiteCapture SitemapProofs.

Section Sort.
Variable URL_pathname : string -> option string.
Variable localeCompare : string -> string -> Z.

Lemma insertSorted_Permutation x sorted sorted' :
  insertSorted URL_pathname localeCompare x sorted = Some sorted' ->
  Permutation sorted' (x :: sorted).
Proof.
  revert sorted'. induction sorted as [|y ys IH]; intros sorted'; simpl.
  - intros [= <-]. reflexivity.
  - destruct (comparePaths _ _ x y) as [c|]; [|discriminate].
    destruct (c <? 0).
    + intros [= <-]. reflexivity.
    + destruct (insertSorted URL_pathname localeCompare x ys) as [s|];
        [|discriminate].
      intros [= <-]. rewrite (IH s eq_refl). apply perm_swap.
Qed.

Lemma insertSorted_total x sorted :
  is_Some (URL_pathname (loc x)) ->
  Forall (fun e => is_Some (URL_pathname (loc e))) sorted ->
  is_Some (insertSorted URL_pathname localeCompare x sorted).
Proof.
  intros [px Hx]. induction 1 as [|y ys [py Hy] _ IH]; simpl; [eauto|].
  unfold comparePaths. rewrite Hx, Hy.
  destruct (localeCompare px py <? 0); [eauto|].
  destruct IH as [s ->]. simpl. eauto.
Qed.

(** Inserting into a non-empty array compares the new entry with its
    first entry: one unparsable [loc] among the two ends the sort. *)
Lemma insertSorted_throws x y ys :
  URL_pathname (loc x) = None \/ URL_pathname (loc y) = None ->
  insertSorted URL_pathname localeCompare x (y :: ys) = None.
Proof.
  simpl. unfold comparePaths. intros [-> | Hy]; [reflexivity|].
  rewrite Hy. now destruct (URL_pathname (loc x)).
Qed.

Lemma sortUrlsByPath_snoc l x :
  sortUrlsByPath URL_pathname localeCompare (l ++ [x]) =
  match sortUrlsByPath URL_pathname localeCompare l with
  | Some sorted => insertSorted URL_pathname localeCompare x sorted
  | None => None
  end.
Proof. unfold sortUrlsByPath. now rewrite fold_left_app. Qed.

Lemma sortUrlsByPath_Permutation l sorted :
  sortUrlsByPath URL_pathname localeCompare l = Some sorted ->
  Permutation sorted l.
Proof.
  revert sorted. induction l as [|x l IH] using rev_ind; intros sorted.
  - intros [= <-]. reflexivity.
  - rewrite sortUrlsByPath_snoc.
    destruct (sortUrlsByPath URL_pathname localeCompare l) as [s|];
      [|discriminate].
    intros H. apply insertSorted_Permutation in H.
    rewrite H, (IH s eq_refl). apply Permutation_cons_append.
Qed.

Lemma sortUrlsByPath_total l :
  Forall (fun e => is_Some (URL_pathname (loc e))) l ->
  is_Some (sortUrlsByPath URL_pathname localeCompare l).
Proof.
  induction l as [|x l IH] using rev_ind; intros Hl.
  - simpl. eauto.
  - apply Forall_app in Hl. destruct Hl as [Hl Hx].
    rewrite sortUrlsByPath_snoc. destruct (IH Hl) as [s Hs]. rewrite Hs.
    apply insertSorted_total.
    + now inversion Hx.
    + apply sortUrlsByPath_Permutation in Hs. now rewrite Hs.
Qed.

Lemma sortUrlsByPath_throws l :
  (2 <= length l)%nat ->
  Exists (fun e => URL_pathname (loc e) = None) l ->
  sortUrlsByPath URL_pathname localeCompare l = None.
Proof.
  induction l as [|x l IH] using rev_ind; intros Hlen Hex;
    [simpl in Hlen; lia|].
  rewrite sortUrlsByPath_snoc. rewrite length_app in Hlen. simpl in Hlen.
  destruct (sortUrlsByPath URL_pathname localeCompare l) as [s|] eqn:Hs;
    [|reflexivity].
  pose proof (sortUrlsByPath_Permutation _ _ Hs) as Hperm.
  destruct s as [|y ys].
  { apply Permutation_nil in Hperm. subst l. simpl in Hlen. lia. }
  apply insertSorted_throws.
  apply Exists_app in Hex. destruct Hex as [Hex|Hex].
  - destruct l as [|a [|b l']].
    + inversion Hex.
    + pose proof (Permutation_length Hperm) as Hone.
      destruct ys; [|discriminate].
      apply Permutation_length_1 in Hperm. subst y.
      right. apply Exists_cons in Hex. destruct Hex as [Ha|Hnil]; [exact Ha|].
      inversion Hnil.
    + assert (Hnone : Some (y :: ys) = None)
        by (apply IH; [simpl; lia | exact Hex]).
      discriminate Hnone.
  - left. apply Exists_cons in Hex. destruct Hex as [Hx|Hnil]; [exact Hx|].
    inversion Hnil.
Qed.
End Sort.

(** C10. Whatever the platform, provided [new URL("/about")] throws (the
    string has no scheme): [sortUrlsByPath] returns on every list whose
    [loc]s all parse, throws on every list of two or more entries one of
    whose [loc]s does not parse, and there is a sitemap document, which
    [parseSitemapUrls] turns into entries that include the relative
    [loc] ["/about"], on whose entries [sortUrlsByPath] throws; a site
    submission over that sitemap is answered 500 instead of being
    accepted. *)
Theorem sortUrlsByPath_throws_on_unparsable_loc
    (URL_pathname : string -> option string)
    (localeCompare : string -> string -> Z) :
  URL_pathname "/about" = None ->
  (forall entries,
     Forall (fun e => is_Some (URL_pathname (loc e))) entries ->
     is_Some (sortUrlsByPath URL_pathname localeCompare entries)) /\
  (forall entries,
     (2 <= length entries)%nat ->
     Exists (fun e => URL_pathname (loc e) = None) entries ->
     sortUrlsByPath URL_pathname localeCompare entries = None) /\
  Exists (fun e => loc e = "/about") (parseSitemapUrls Sample.relative_xml) /\
  sortUrlsByPath URL_pathname localeCompare
    (parseSitemapUrls Sample.relative_xml) = None /\
  (forall fetchUrl sitemapUrl,
     fetchUrl sitemapUrl = inr Sample.relative_xml ->
     postSite fetchUrl URL_pathname localeCompare sitemapUrl 100 =
       InternalServerError).
Proof.
  intros Habout.
  assert (Hparse : parseSitemapUrls Sample.relative_xml =
                   [ {| loc := "https://a.example/"; lastmod := None; priority := None |};
                     {| loc := "/about"; lastmod := None; priority := None |} ])
    by (vm_compute; reflexivity).
  assert (Hthrows : sortUrlsByPath URL_pathname localeCompare
                      (parseSitemapUrls Sample.relative_xml) = None).
  { apply sortUrlsByPath_throws; rewrite Hparse; [simpl; lia|].
    apply Exists_cons_tl, Exists_cons_hd. exact Habout. }
  split; [apply sortUrlsByPath_total|].
  split; [apply sortUrlsByPath_throws|].
  split; [rewrite Hparse; apply Exists_cons_tl, Exists_cons_hd; reflexivity|].
  split; [exact Hthrows|].
  intros fetchUrl sitemapUrl Hfetch. unfold postSite.
  rewrite collectAllUrls_unfold. unfold collectBody.
  change (MAX_SITEMAP_DEPTH <=? 0)%nat with false. rewrite Hfetch.
  replace (isSitemapIndex Sample.relative_xml) with false
    by (vm_compute; reflexivity).
  cbn [urls]. rewrite Hparse in *.
  change (slice0 _ (100 - 0)) with
    [ {| loc := "https://a.example/"; lastmod := None; priority := None |};
      {| loc := "/about"; lastmod := None; priority := None |} ].
  change (JS.len _ =? 0) with false. cbv iota.
  now rewrite Hthrows.
Qed.

Lemma sortUrlsByPath_throws_on_unparsable_loc_witness :
  Sample.URL_pathname "/about" = None /\
  sortUrlsByPath Sample.URL_pathname Sample.localeCompare
    (parseSitemapUrls Sample.relative_xml) = None /\
  postSite Sample.fetchUrl Sample.URL_pathname Sample.localeCompare
    "https://a.example/relative.xml" 100 = InternalServerError.
Proof.
  pose proof (sortUrlsByPath_throws_on_unparsable_loc
                Sample.URL_pathname Sample.localeCompare eq_refl)
    as (_ & _ & _ & Hthrows & Hpost).
  split; [reflexivity|]. split; [exact Hthrows|].
  apply Hpost. reflexivity.
Defined.

End SortProofs.

Module SiteCaptureProofs.
Import Sitemap SiteCapture.

Lemma insert_middle {A} (ws : list A) (w : nat) (x : A) :
  ws !! w = Some x ->
  exists l1 l2, ws = l1 ++ x :: l2 /\ forall y, <[w := y]> ws = l1 ++ y :: l2.
Proof.
  intros Hw. exists (take w ws), (drop (S w) ws). split.
  - symmetry. now apply take_drop_middle.
  - intros y. apply insert_take_drop. now apply lookup_lt_Some with x.
Qed.

Lemma inflight_app l1 l2 : inflight (l1 ++ l2) = inflight l1 ++ inflight l2.
Proof. apply flat_map_app. Qed.

Lemma inflight_returned ws : forallb is_returned ws = true -> inflight ws = [].
Proof.
  induction ws as [|w ws IH]; simpl; [reflexivity|].
  intros H. apply andb_true_iff in H. destruct H as [Hw Hws].
  destruct w; try discriminate. simpl. now apply IH.
Qed.

Lemma returned_lookup ws (w : nat) x :
  forallb is_returned ws = true -> ws !! w = Some x -> x = Returned.
Proof.
  intros Hall Hw. rewrite forallb_forall in Hall.
  assert (Hin : In x ws).
  { apply list_elem_of_In. now apply list_elem_of_lookup_2 with w. }
  apply Hall in Hin. now destruct x.
Qed.

Lemma returned_not_threw ws :
  forallb is_returned ws = true -> existsb is_threw ws = false.
Proof.
  induction ws as [|w ws IH]; simpl; [reflexivity|].
  intros H. apply andb_true_iff in H. destruct H as [Hw Hws].
  destruct w; try discriminate. now apply IH.
Qed.

Lemma len_partition {A} (f : A -> bool) (l : list A) :
  JS.len (List.filter f l) + JS.len (List.filter (fun x => negb (f x)) l) = JS.len l.
Proof.
  unfold JS.len. induction l as [|x l IH]; simpl; [reflexivity|].
  destruct (f x); simpl; lia.
Qed.

(** The workers as [spawn] leaves them: each one awaits a capture or
    has returned at once, for want of an entry. *)
Lemma spawn_spec n queue ws queue' :
  spawn n queue = (ws, queue') ->
  length ws = n /\
  inflight ws ++ queue' = queue /\
  (In Returned ws -> queue' = []) /\
  existsb is_threw ws = false /\
  (forall (w : nat) c f, ws !! w <> Some (Updating c f)).
Proof.
  revert queue ws queue'. induction n as [|n IH]; intros queue ws queue'; simpl.
  - intros [= <- <-]. repeat split; auto. intros [].
  - destruct queue as [|entry rest]; simpl.
    + destruct (spawn n []) as [ws0 q0] eqn:Hsp. intros [= <- <-].
      destruct (IH _ _ _ Hsp) as (Hlen & Happ & Hret & Hthrew & Hupd).
      apply app_eq_nil in Happ. destruct Happ as [Hnone ->].
      repeat split; simpl; auto; [now rewrite Hnone|].
      intros [|w] c f; [discriminate | apply Hupd].
    + destruct (spawn n rest) as [ws0 q0] eqn:Hsp. intros [= <- <-].
      destruct (IH _ _ _ Hsp) as (Hlen & Happ & Hret & Hthrew & Hupd).
      repeat split; simpl; auto.
      * now rewrite Happ.
      * intros [H|H]; [discriminate | auto].
      * intros [|w] c f; [discriminate | apply Hupd].
Qed.

Lemma invariant_start n all : invariant n all (processSiteCapture n all).
Proof.
  unfold processSiteCapture. destruct (spawn n all) as [ws queue'] eqn:Hsp.
  destruct (spawn_spec _ _ _ _ Hsp) as (Hlen & Happ & Hret & Hthrew & Hupd).
  constructor; simpl; auto; try discriminate; try lia.
  - now rewrite Happ.
  - intros w c f Hw. now apply Hupd in Hw.
Qed.

Lemma in_middle_other {A} (x y z : A) l1 l2 :
  In z (l1 ++ y :: l2) -> z <> y -> In z (l1 ++ x :: l2).
Proof.
  rewrite !in_app_iff. simpl. intros [H|[H|H]] Hne; auto. congruence.
Qed.

Lemma existsb_middle {A} (f : A -> bool) x y l1 l2 :
  f x = false ->
  existsb f (l1 ++ y :: l2) = false -> existsb f (l1 ++ x :: l2) = false.
Proof.
  rewrite !existsb_app. simpl. intros ->.
  destruct (existsb f l1), (f y); simpl; auto; discriminate.
Qed.

Lemma existsb_middle_true {A} (f : A -> bool) y l1 l2 :
  f y = true -> existsb f (l1 ++ y :: l2) = true.
Proof.
  rewrite existsb_app. simpl. intros ->. now rewrite orb_true_r.
Qed.

Lemma length_middle {A} (x y : A) l1 l2 :
  length (l1 ++ y :: l2) = length (l1 ++ x :: l2).
Proof. now rewrite !length_app. Qed.

(** The worker found at an index after worker [w] took a new state. *)
Lemma lookup_insert_cases {A} (ws : list A) (w w' : nat) (y z : A) :
  <[w := y]> ws !! w' = Some z ->
  (w' = w /\ z = y) \/ (w' <> w /\ ws !! w' = Some z).
Proof.
  intros H. apply list_lookup_insert_Some in H.
  destruct H as [(-> & -> & _)|[Hne H]]; [now left | right; split; congruence].
Qed.

(** A worker that leaves a state other than [Threw] leaves no [Threw]
    behind that was not there. *)
Lemma threw_before ws (w : nat) x y :
  ws !! w = Some x -> is_threw x = false ->
  existsb is_threw (<[w := y]> ws) = false -> existsb is_threw ws = false.
Proof.
  intros Hw Hx H. destruct (insert_middle _ _ _ Hw) as (l1 & l2 & Hws & Hins).
  rewrite Hins in H. rewrite Hws. now apply existsb_middle with y.
Qed.

Lemma invariant_step n all l s s' :
  invariant n all s -> step l s = Some s' -> invariant n all s'.
Proof.
  intros [Honce Hcap Hfail Hgroup Hdrained Htotal Hsent Hrow Hpend Hful] Hstep.
  assert (Hc0 : 0 <= capturedCount s) by (rewrite Hcap; unfold JS.len; lia).
  assert (Hf0 : 0 <= failedCount s) by (rewrite Hfail; unfold JS.len; lia).
  destruct l as [w success | w stored | stored handlerStored]; simpl in Hstep.
  - (* processUrl settles *)
    destruct (workers s !! w) as [[entry|? ?| |]|] eqn:Hw; try discriminate.
    injection Hstep as <-.
    destruct (insert_middle _ _ _ Hw) as (l1 & l2 & Hws & Hins).
    constructor; cbn [queue capturedCount failedCount workers row processed settled].
    + rewrite Hins, <- Honce, Hws, map_app, !inflight_app. simpl.
      rewrite <- !app_assoc. simpl.
      apply Permutation_app_head, Permutation_middle.
    + rewrite List.filter_app, SitemapProofs.len_app. simpl.
      destruct success; simpl; unfold JS.len in *; simpl; lia.
    + rewrite List.filter_app, SitemapProofs.len_app. simpl.
      destruct success; simpl; unfold JS.len in *; simpl; lia.
    + rewrite Hins, <- Hgroup, Hws. apply length_middle.
    + rewrite Hins. intros Hin. apply Hdrained. rewrite Hws.
      eapply in_middle_other; [exact Hin | discriminate].
    + exact Htotal.
    + intros w' c f Hw'. apply lookup_insert_cases in Hw'.
      destruct Hw' as [[_ [= -> ->]]|[_ Hw']].
      * destruct success; lia.
      * apply Hsent in Hw'. destruct success; lia.
    + destruct success; lia.
    + exact Hpend.
    + intros H. destruct (Hful H) as [Hall _].
      discriminate (returned_lookup _ _ _ Hall Hw).
  - (* the progress update settles *)
    destruct (workers s !! w) as [[?|c f| |]|] eqn:Hw; try discriminate.
    destruct (insert_middle _ _ _ Hw) as (l1 & l2 & Hws & Hins).
    pose proof (Hsent _ _ _ Hw) as Hcf.
    assert (Hnot : settled s <> Fulfilled).
    { intros H. destruct (Hful H) as [Hall _].
      discriminate (returned_lookup _ _ _ Hall Hw). }
    assert (Hsent' : forall next w' c' f',
              next <> Updating c' f' ->
              <[w := next]> (workers s) !! w' = Some (Updating c' f') ->
              0 <= c' <= capturedCount s /\ 0 <= f' <= failedCount s).
    { intros next w' c' f' Hnext Hw'. apply lookup_insert_cases in Hw'.
      destruct Hw' as [[_ Heq]|[_ Hw']]; [congruence | now apply Hsent in Hw']. }
    destruct stored; [destruct (queue s) as [|entry rest] eqn:Hq|];
      simpl in Hstep; injection Hstep as <-;
      constructor;
      cbn [queue capturedCount failedCount workers row processed settled
           updateSiteCaptureProgress total_pages captured_pages failed_pages
           status];
      try assumption; try (intros H; contradiction);
      try (rewrite Hins, <- Hgroup, Hws; apply length_middle);
      try (intros w' c' f'; apply Hsent'; discriminate).
    + rewrite Hins, <- Honce, Hws, !inflight_app. reflexivity.
    + reflexivity.
    + rewrite Hins, <- Honce, Hws, !inflight_app. simpl.
      rewrite <- !app_assoc. simpl.
      apply Permutation_app_head, Permutation_app_head, Permutation_middle.
    + rewrite Hins. intros Hin. assert (Hin' : In Returned (workers s)).
      { rewrite Hws. eapply in_middle_other; [exact Hin | discriminate]. }
      apply Hdrained in Hin'. congruence.
    + rewrite Hins, <- Honce, Hws, !inflight_app. reflexivity.
    + rewrite Hins. intros Hin. apply Hdrained. rewrite Hws.
      eapply in_middle_other; [exact Hin | discriminate].
  - (* Promise.all settles *)
    destruct (settled s) eqn:Hset; try discriminate.
    destruct (existsb is_threw (workers s)) eqn:Hthrew.
    { injection Hstep as <-. constructor; simpl; auto; try discriminate.
      - now destruct handlerStored.
      - now destruct handlerStored. }
    destruct (forallb is_returned (workers s)) eqn:Hall; try discriminate.
    destruct stored; injection Hstep as <-; constructor; simpl; auto;
      try discriminate.
    + now destruct handlerStored.
    + now destruct handlerStored.
Qed.

Lemma invariant_run n all ls s s' :
  invariant n all s -> run ls s = Some s' -> invariant n all s'.
Proof.
  revert s. induction ls as [|l ls IH]; intros s Hinv; simpl.
  - now intros [= <-].
  - destruct (step l s) as [s1|] eqn:Hstep; [|discriminate].
    apply IH. now apply invariant_step with l s.
Qed.

Lemma drained_state n all s :
  (1 <= n)%nat -> invariant n all s -> settled s = Fulfilled ->
  queue s = [] /\ inflight (workers s) = [] /\
  Permutation (List.map fst (processed s)) all.
Proof.
  intros Hn [Honce Hcap Hfail Hgroup Hdrained Htotal Hsent Hrow Hpend Hful] Hset.
  destruct (Hful Hset) as [Hall _].
  assert (Hq : queue s = []).
  { apply Hdrained. destruct (workers s) as [|w ws] eqn:Hws; [simpl in Hgroup; lia|].
    left. apply (returned_lookup (w :: ws) 0%nat); [exact Hall | reflexivity]. }
  pose proof (inflight_returned _ Hall) as Hfly.
  split; [exact Hq|]. split; [exact Hfly|].
  now rewrite Hq, Hfly, !app_nil_r in Honce.
Qed.

(** *** Every job can drain

    Whatever the captures return, the workers can be scheduled so that
    the queue drains and [processSiteCapture] returns. *)

Lemma work_middle x l1 l2 :
  list_sum (List.map work_of (l1 ++ x :: l2)) =
  (list_sum (List.map work_of l1) + work_of x + list_sum (List.map work_of l2))%nat.
Proof. rewrite map_app, list_sum_app. simpl. lia. Qed.

Lemma workers_cases ws :
  existsb is_threw ws = false ->
  (exists (w : nat) entry, ws !! w = Some (Capturing entry)) \/
  (exists (w : nat) c f, ws !! w = Some (Updating c f)) \/
  forallb is_returned ws = true.
Proof.
  induction ws as [|x ws IH]; simpl; [auto|].
  intros H. apply orb_false_iff in H. destruct H as [Hx Hws].
  destruct x as [entry|c f| |]; try discriminate.
  - left. now exists 0%nat, entry.
  - right. left. now exists 0%nat, c, f.
  - destruct (IH Hws) as [(w & entry & Hw)|[(w & c & f & Hw)|Hall]].
    + left. now exists (S w), entry.
    + right. left. now exists (S w), c, f.
    + right. right. exact Hall.
Qed.

Lemma filter_length_Permutation {A} (p : A -> bool) l l' :
  Permutation l l' -> length (List.filter p l) = length (List.filter p l').
Proof.
  induction 1 as [|x l l' _ IH|x y l|l l' l'' _ IH1 _ IH2]; simpl.
  - reflexivity.
  - destruct (p x); simpl; now rewrite IH.
  - destruct (p x), (p y); reflexivity.
  - now rewrite IH1.
Qed.

Lemma run_step l ls s s' :
  step l s = Some s' -> run (l :: ls) s = run ls s'.
Proof. intros H. simpl. now rewrite H. Qed.

Lemma can_drain (outcome : SitemapUrl -> bool) n :
  forall s,
    (pending_work s <= n)%nat ->
    existsb is_threw (workers s) = false ->
    settled s = Pending ->
    Forall (fun p => snd p = outcome (fst p)) (processed s) ->
    exists ls s',
      run ls s = Some s' /\ settled s' = Fulfilled /\
      Forall (fun p => snd p = outcome (fst p)) (processed s').
Proof.
  induction n as [|n IH]; intros s Hwork Hclean Hpending Hout;
    destruct (workers_cases _ Hclean) as [(w & entry & Hw)|[(w & c & f & Hw)|Hall]].
  - destruct (insert_middle _ _ _ Hw) as (l1 & l2 & Hws & _).
    unfold pending_work in Hwork. rewrite Hws, work_middle in Hwork.
    simpl in Hwork. lia.
  - destruct (insert_middle _ _ _ Hw) as (l1 & l2 & Hws & _).
    unfold pending_work in Hwork. rewrite Hws, work_middle in Hwork.
    simpl in Hwork. lia.
  - exists [Join true true]. eexists. simpl.
    rewrite Hpending, (returned_not_threw _ Hall), Hall.
    split; [reflexivity|]. split; [reflexivity | exact Hout].
  - (* a capture settles *)
    destruct (insert_middle _ _ _ Hw) as (l1 & l2 & Hws & Hins).
    destruct (step (CaptureSettled w (outcome entry)) s) as [s1|] eqn:Hstep;
      [|simpl in Hstep; now rewrite Hw in Hstep].
    assert (Hs1 : (exists c f, workers s1 = l1 ++ Updating c f :: l2) /\
                  queue s1 = queue s /\ settled s1 = settled s /\
                  processed s1 = processed s ++ [(entry, outcome entry)]).
    { simpl in Hstep. rewrite Hw in Hstep. injection Hstep as <-.
      simpl. rewrite Hins. split; [eexists _, _; reflexivity | auto]. }
    destruct Hs1 as ((c & f & Hws1) & Hq1 & Hset1 & Hproc1).
    destruct (IH s1) as (ls & s' & Hrun & Hful & Hout').
    + unfold pending_work in *. rewrite Hws1, Hq1, work_middle.
      rewrite Hws, work_middle in Hwork. simpl in *. lia.
    + rewrite Hws1. rewrite Hws in Hclean.
      now apply existsb_middle with (Capturing entry).
    + congruence.
    + rewrite Hproc1. apply Forall_app. split; [exact Hout|].
      constructor; [reflexivity | constructor].
    + exists (CaptureSettled w (outcome entry) :: ls), s'.
      rewrite (run_step _ _ _ _ Hstep). auto.
  - (* its progress update is stored: the worker loops or returns *)
    destruct (insert_middle _ _ _ Hw) as (l1 & l2 & Hws & Hins).
    destruct (step (UpdateSettled w true) s) as [s1|] eqn:Hstep;
      [|simpl in Hstep; rewrite Hw in Hstep;
        destruct (workerLoop (queue s)); discriminate].
    assert (Hs1 : workers s1 = l1 ++ fst (workerLoop (queue s)) :: l2 /\
                  queue s1 = snd (workerLoop (queue s)) /\
                  settled s1 = settled s /\ processed s1 = processed s).
    { simpl in Hstep. rewrite Hw in Hstep.
      destruct (workerLoop (queue s)) as [next queue']. injection Hstep as <-.
      simpl. now rewrite Hins. }
    destruct Hs1 as (Hws1 & Hq1 & Hset1 & Hproc1).
    destruct (IH s1) as (ls & s' & Hrun & Hful & Hout').
    + unfold pending_work in *. rewrite Hws1, Hq1, work_middle.
      rewrite Hws, work_middle in Hwork.
      destruct (queue s); simpl in *; lia.
    + rewrite Hws1. rewrite Hws in Hclean.
      apply existsb_middle with (Updating c f); [|exact Hclean].
      now destruct (queue s).
    + congruence.
    + now rewrite Hproc1.
    + exists (UpdateSettled w true :: ls), s'.
      rewrite (run_step _ _ _ _ Hstep). auto.
  - exists [Join true true]. eexists. simpl.
    rewrite Hpending, (returned_not_threw _ Hall), Hall.
    split; [reflexivity|]. split; [reflexivity | exact Hout].
Qed.

(** X18. For every list of URLs, every worker group of at least one
    worker and every assignment of results to the captures there is a
    schedule on which [processSiteCapture] returns with the queue
    drained: every URL of the list was handed to [processUrl] exactly
    once and got the result assigned to it. *)
Lemma every_job_can_drain concurrency all (outcome : SitemapUrl -> bool) :
  (1 <= concurrency)%nat ->
  exists ls s,
    run ls (processSiteCapture concurrency all) = Some s /\
    settled s = Fulfilled /\
    queue s = [] /\
    Permutation (List.map fst (processed s)) all /\
    Forall (fun p => snd p = outcome (fst p)) (processed s) /\
    capturedCount s = JS.len (List.filter outcome all).
Proof.
  intros Hn.
  destruct (can_drain outcome (pending_work (processSiteCapture concurrency all))
              (processSiteCapture concurrency all))
    as (ls & s & Hrun & Hful & Hout); [lia | | | |].
  - unfold processSiteCapture.
    destruct (spawn concurrency all) as [ws queue'] eqn:Hsp.
    now destruct (spawn_spec _ _ _ _ Hsp) as (_ & _ & _ & Hthrew & _).
  - unfold processSiteCapture. now destruct (spawn concurrency all).
  - unfold processSiteCapture. destruct (spawn concurrency all). constructor.
  - exists ls, s.
    pose proof (invariant_run _ _ _ _ _ (invariant_start concurrency all) Hrun)
      as Hinv.
    destruct (drained_state _ _ _ Hn Hinv Hful) as (Hq & _ & Hperm).
    repeat (split; [assumption|]).
    rewrite (inv_captured _ _ _ Hinv).
    assert (Hsame : List.filter snd (processed s) =
                    List.filter (fun p => outcome (fst p)) (processed s)).
    { apply List.filter_ext_in. intros p Hp.
      rewrite List.Forall_forall in Hout. now apply Hout. }
    rewrite Hsame. unfold JS.len. f_equal.
    rewrite <- (filter_length_Permutation outcome _ _ Hperm), filter_map_swap.
    now rewrite length_map.
Qed.

Lemma every_job_can_drain_witness :
  exists ls s,
    run ls (processSiteCapture 2 Sample.three_pages) = Some s /\
    settled s = Fulfilled /\ queue s = [] /\
    Permutation (List.map fst (processed s)) Sample.three_pages /\
    capturedCount s = 1.
Proof.
  destruct (every_job_can_drain 2 Sample.three_pages
              (fun e => String.eqb (loc e) "https://a.example/") ltac:(lia))
    as (ls & s & Hrun & Hful & Hq & Hperm & _ & Hcap).
  exists ls, s. split; [exact Hrun|]. split; [exact Hful|].
  split; [exact Hq|]. split; [exact Hperm | exact Hcap].
Defined.

(** *** Progress updates that settle in the order of their issue *)

Lemma ordered_start n all : ordered [] (processSiteCapture n all).
Proof.
  unfold processSiteCapture. destruct (spawn n all) as [ws queue'].
  constructor; simpl.
  - constructor.
  - intros w [].
  - auto.
  - intros older w H. now destruct older.
Qed.

Lemma ordered_capture o s w success s' :
  ordered o s -> step (CaptureSettled w success) s = Some s' ->
  ordered (o ++ [w]) s'.
Proof.
  intros [Honce Hupd Hrow Hyoung] Hstep. simpl in Hstep.
  destruct (workers s !! w) as [[entry|? ?| |]|] eqn:Hw; try discriminate.
  injection Hstep as <-.
  assert (Hfresh : ~ In w o).
  { intros Hin. destruct (Hupd w Hin) as (c & f & Hc). congruence. }
  assert (Hlt : (w < length (workers s))%nat) by now apply lookup_lt_Some in Hw.
  constructor; cbn [queue capturedCount failedCount workers row processed settled].
  - apply (Permutation_NoDup (Permutation_cons_append o w)).
    now constructor.
  - intros w' Hin. apply in_app_iff in Hin. destruct Hin as [Hin|[<-|[]]].
    + rewrite list_lookup_insert_ne by (intros ->; contradiction).
      now apply Hupd.
    + rewrite list_lookup_insert_eq by exact Hlt. eauto.
  - intros H. now destruct o.
  - intros older w' H _. apply app_inj_tail in H. destruct H as [_ <-].
    now rewrite list_lookup_insert_eq by exact Hlt.
Qed.

Lemma ordered_update o s w stored s' :
  ordered (w :: o) s -> step (UpdateSettled w stored) s = Some s' ->
  ordered o s'.
Proof.
  intros [Honce Hupd Hrow Hyoung] Hstep. simpl in Hstep.
  destruct (workers s !! w) as [[?|c f| |]|] eqn:Hw; try discriminate.
  inversion Honce as [|? ? Hfresh Honce']; subst.
  assert (Hother : forall next w', In w' o ->
            <[w := next]> (workers s) !! w' = workers s !! w').
  { intros next w' Hin. apply list_lookup_insert_ne. intros ->. contradiction. }
  assert (Hkeep : forall next,
            (let '(_, queue') := (next, queue s) in True) ->
            forall w', In w' o ->
              exists c' f', <[w := next]> (workers s) !! w' = Some (Updating c' f')).
  { intros next _ w' Hin. rewrite Hother by exact Hin.
    apply Hupd. now right. }
  destruct stored.
  - (* the store wrote the values of the call *)
    destruct (workerLoop (queue s)) as [next queue'] eqn:Hloop.
    injection Hstep as <-.
    assert (Hnext : is_threw next = false).
    { unfold workerLoop in Hloop. destruct (queue s); now injection Hloop as <- _. }
    constructor;
      cbn [queue capturedCount failedCount workers row processed settled
           updateSiteCaptureProgress captured_pages failed_pages].
    + exact Honce'.
    + now apply Hkeep.
    + intros -> Hclean.
      assert (Hclean0 : existsb is_threw (workers s) = false)
        by now apply (threw_before _ _ _ _ Hw eq_refl Hclean).
      pose proof (Hyoung [] w eq_refl Hclean0) as Hsent.
      rewrite Hw in Hsent. now injection Hsent as -> ->.
    + intros older w' -> Hclean.
      assert (Hclean0 : existsb is_threw (workers s) = false)
        by now apply (threw_before _ _ _ _ Hw eq_refl Hclean).
      rewrite Hother by (apply in_app_iff; right; now left).
      now apply (Hyoung (w :: older) w').
  - (* the store refused the update: the worker throws *)
    injection Hstep as <-.
    assert (Hthrew : existsb is_threw (<[w := Threw]> (workers s)) = true).
    { destruct (insert_middle _ _ _ Hw) as (l1 & l2 & _ & Hins).
      rewrite Hins. now apply existsb_middle_true. }
    constructor; cbn [queue capturedCount failedCount workers row processed settled].
    + exact Honce'.
    + now apply Hkeep.
    + intros _ Hclean. congruence.
    + intros older w' _ Hclean. congruence.
Qed.

Lemma ordered_join o s stored handlerStored s' :
  ordered o s -> step (Join stored handlerStored) s = Some s' -> ordered o s'.
Proof.
  intros [Honce Hupd Hrow Hyoung] Hstep. simpl in Hstep.
  assert (Hrej : ordered o (onRejected handlerStored s)).
  { constructor; simpl; try assumption.
    intros Ho Hclean. destruct (Hrow Ho Hclean). now destruct handlerStored. }
  destruct (settled s); try discriminate.
  destruct (existsb is_threw (workers s)) eqn:Hthrew.
  { now injection Hstep as <-. }
  destruct (forallb is_returned (workers s)); try discriminate.
  destruct stored; injection Hstep as <-; [|exact Hrej].
  constructor; simpl; try assumption.
  - intros Ho _. now apply Hrow.
  - intros older w Ho _. now apply (Hyoung older).
Qed.

Lemma ordered_run ls : forall o s s',
  ordered o s -> run ls s = Some s' -> in_order ls o = true ->
  exists o', ordered o' s'.
Proof.
  induction ls as [|l ls IH]; intros o s s' Hord; simpl.
  - intros [= <-] _. now exists o.
  - destruct (step l s) as [s1|] eqn:Hstep; [|discriminate].
    intros Hrun Hin. destruct l as [w success | w stored | stored handlerStored].
    + apply (IH _ _ _ (ordered_capture _ _ _ _ _ Hord Hstep) Hrun Hin).
    + destruct o as [|oldest others]; [discriminate|].
      apply andb_true_iff in Hin. destruct Hin as [Hw Hin].
      apply Nat.eqb_eq in Hw. subst oldest.
      apply (IH _ _ _ (ordered_update _ _ _ _ _ Hord Hstep) Hrun Hin).
    + apply (IH _ _ _ (ordered_join _ _ _ _ _ Hord Hstep) Hrun Hin).
Qed.

(** C2, amended. For every list of URLs, every worker count of at least
    one and every interleaving of the workers: when the workers drain the
    queue and [processSiteCapture] returns (no progress update and no
    completion was refused by the store), the job is in a terminal state,
    the entries handed to [processUrl] are the URLs of the list, each
    exactly once, each counted once as captured or as failed, the two
    counters of the job add up to [totalPages], and nothing is left to
    run.  When moreover the progress updates settled in the order in
    which the workers issued them, the persisted counters are the
    counters of the job and add up to [totalPages]. *)
Theorem drained_job_counts_every_url
    (concurrency : nat) (all : list SitemapUrl) (ls : list label) (s : state) :
  (1 <= concurrency)%nat ->
  run ls (processSiteCapture concurrency all) = Some s ->
  settled s = Fulfilled ->
  (terminal (status (row s)) = true /\
   total_pages (row s) = JS.len all /\
   Permutation (List.map fst (processed s)) all /\
   capturedCount s = JS.len (List.filter snd (processed s)) /\
   failedCount s = JS.len (List.filter (fun p => negb (snd p)) (processed s)) /\
   capturedCount s + failedCount s = total_pages (row s) /\
   (forall l, step l s = None)) /\
  (in_order ls [] = true ->
   captured_pages (row s) = capturedCount s /\
   failed_pages (row s) = failedCount s /\
   captured_pages (row s) + failed_pages (row s) = total_pages (row s)).
Proof.
  intros Hn Hrun Hset.
  pose proof (invariant_run _ _ _ _ _ (invariant_start concurrency all) Hrun)
    as Hinv.
  destruct (drained_state _ _ _ Hn Hinv Hset) as (Hq & Hfly & Hperm).
  destruct Hinv as [Honce Hcap Hfail Hgroup Hdrained Htotal Hsent Hrow Hpend Hful].
  destruct (Hful Hset) as [Hall Hstatus].
  assert (Hlen : JS.len (processed s) = JS.len all).
  { unfold JS.len.
    rewrite <- (Permutation_length Hperm), length_map. reflexivity. }
  assert (Hsum : capturedCount s + failedCount s = total_pages (row s)).
  { rewrite Hcap, Hfail, Htotal, <- Hlen. apply len_partition. }
  split.
  - split; [|split; [|split; [|split; [|split; [|split]]]]]; try assumption.
    + rewrite Hstatus. now destruct (capturedCount s >? 0).
    + intros [w success | w stored | stored handlerStored]; simpl.
      * destruct (workers s !! w) as [x|] eqn:Hw; [|reflexivity].
        now rewrite (returned_lookup _ _ _ Hall Hw).
      * destruct (workers s !! w) as [x|] eqn:Hw; [|reflexivity].
        now rewrite (returned_lookup _ _ _ Hall Hw).
      * now rewrite Hset.
  - intros Hin.
    destruct (ordered_run _ _ _ _ (ordered_start concurrency all) Hrun Hin)
      as (o & [_ Hupd Hheld _]).
    assert (Ho : o = []).
    { destruct o as [|w o]; [reflexivity|].
      destruct (Hupd w (or_introl eq_refl)) as (c & f & Hw).
      discriminate (returned_lookup _ _ _ Hall Hw). }
    destruct (Hheld Ho (returned_not_threw _ Hall)) as [Hc Hf].
    split; [exact Hc|]. split; [exact Hf|]. now rewrite Hc, Hf.
Qed.

Lemma drained_job_counts_every_url_witness :
  exists s,
    run Sample.drained_schedule (processSiteCapture 2 Sample.three_pages) = Some s /\
    row s = {| total_pages := 3; captured_pages := 1; failed_pages := 2;
               status := completed |} /\
    captured_pages (row s) + failed_pages (row s) = total_pages (row s) /\
    Permutation (List.map fst (processed s)) Sample.three_pages.
Proof.
  assert (Hrun : run Sample.drained_schedule (processSiteCapture 2 Sample.three_pages)
                 = Some Sample.drained_final) by (vm_compute; reflexivity).
  exists Sample.drained_final. split; [exact Hrun|]. split; [reflexivity|].
  pose proof (drained_job_counts_every_url 2 Sample.three_pages
                Sample.drained_schedule Sample.drained_final
                ltac:(lia) Hrun eq_refl)
    as ((_ & _ & Hperm & _) & Hordered).
  destruct (Hordered eq_refl) as (_ & _ & Hsum).
  split; [exact Hsum | exact Hperm].
Defined.

(** C2 as stated fails: a job over one page whose only progress update
    is refused by the store ends in the terminal state [failed] with
    persisted counters 0 and 0 against a total of 1; nothing is left to
    run. *)
Lemma refused_update_breaks_total :
  exists s,
    run Sample.refused_schedule
        (processSiteCapture SITE_CAPTURE_CONCURRENCY [Sample.page "https://a.example/"]) = Some s /\
    terminal (status (row s)) = true /\
    (forall l, step l s = None) /\
    captured_pages (row s) + failed_pages (row s) <> total_pages (row s).
Proof.
  exists Sample.refused_final.
  split; [vm_compute; reflexivity|]. split; [reflexivity|]. split; [|discriminate].
  intros [w ?|w ?|? ?]; try reflexivity; destruct w as [|[|w]]; reflexivity.
Qed.

(** X24. A progress update can be overtaken.  Two workers over two
    pages, whatever the captures return and with nothing refused: when
    the progress update issued first settles after the one issued
    second, the job drains and [processSiteCapture] returns with both
    pages counted, yet the row keeps the counters of the first update,
    which add up to 1 of a total of 2. *)
Theorem overtaken_update_is_lost (a b : SitemapUrl) (first second : bool) :
  exists s,
    run [CaptureSettled 0 first; CaptureSettled 1 second;
         UpdateSettled 1 true; UpdateSettled 0 true; Join true true]%nat
        (processSiteCapture 2 [a; b]) = Some s /\
    settled s = Fulfilled /\
    terminal (status (row s)) = true /\
    capturedCount s + failedCount s = 2 /\
    total_pages (row s) = 2 /\
    captured_pages (row s) = (if first then 1 else 0) /\
    failed_pages (row s) = (if first then 0 else 1) /\
    captured_pages (row s) + failed_pages (row s) = 1.
Proof.
  destruct first, second; eexists; (split; [vm_compute; reflexivity|]);
    repeat split; reflexivity.
Qed.
(** C5. For every job whose workers drain the queue and whose
    [processSiteCapture] returns: the final status is [completed] exactly
    when [capturedCount > 0], and [failed] otherwise; [capturedCount] is
    the number of entries whose capture succeeded, so the job is
    [completed] exactly when at least one capture succeeded, however many
    failed. *)
Theorem final_status_completed_iff_captured
    (concurrency : nat) (all : list SitemapUrl) (ls : list label) (s : state) :
  run ls (processSiteCapture concurrency all) = Some s ->
  settled s = Fulfilled ->
  (status (row s) = completed <-> 0 < capturedCount s) /\
  (status (row s) = failed <-> ~ 0 < capturedCount s) /\
  capturedCount s = JS.len (List.filter snd (processed s)) /\
  (status (row s) = completed <-> exists entry, In (entry, true) (processed s)).
Proof.
  intros Hrun Hset.
  pose proof (invariant_run _ _ _ _ _ (invariant_start concurrency all) Hrun)
    as [Honce Hcap Hfail Hgroup Hdrained Htotal Hsent Hrow Hpend Hful].
  destruct (Hful Hset) as [Hall Hstatus].
  assert (Hsome : 0 < capturedCount s <-> exists entry, In (entry, true) (processed s)).
  { rewrite Hcap. unfold JS.len. split.
    - intros Hpos. destruct (List.filter snd (processed s)) as [|[e b] l] eqn:Hf;
        [simpl in Hpos; lia|].
      assert (Hin : In (e, b) (List.filter snd (processed s)))
        by (rewrite Hf; now left).
      apply List.filter_In in Hin. destruct Hin as [Hin Hb]. simpl in Hb.
      subst b. now exists e.
    - intros [e Hin].
      assert (Hin' : In (e, true) (List.filter snd (processed s)))
        by (apply List.filter_In; now split).
      destruct (List.filter snd (processed s)); [destruct Hin' | simpl; lia]. }
  assert (Hdec : status (row s) = completed <-> 0 < capturedCount s).
  { rewrite Hstatus. destruct (Z.gtb_spec (capturedCount s) 0); split;
      intros; try lia; try discriminate; reflexivity. }
  split; [exact Hdec|]. split; [|split; [exact Hcap|]].
  - split.
    + intros Hfailed Hpos. apply Hdec in Hpos. congruence.
    + intros Hno. rewrite Hstatus.
      destruct (Z.gtb_spec (capturedCount s) 0); [lia | reflexivity].
  - split; intros H; [apply Hsome, Hdec, H | apply Hdec, Hsome, H].
Qed.

Lemma final_status_completed_iff_captured_witness :
  exists s,
    run Sample.drained_schedule (processSiteCapture 2 Sample.three_pages) = Some s /\
    capturedCount s = 1 /\ failedCount s = 2 /\
    (status (row s) = completed <-> 0 < capturedCount s) /\
    status (row s) = completed.
Proof.
  assert (Hrun : run Sample.drained_schedule (processSiteCapture 2 Sample.three_pages)
                 = Some Sample.drained_final) by (vm_compute; reflexivity).
  exists Sample.drained_final.
  split; [exact Hrun|]. split; [reflexivity|]. split; [reflexivity|].
  pose proof (final_status_completed_iff_captured 2 Sample.three_pages
                Sample.drained_schedule Sample.drained_final Hrun eq_refl)
    as (Hiff & _).
  split; [exact Hiff | reflexivity].
Defined.

End SiteCaptureProofs.

Module CleanupProofs.
Import Cleanup.

Example sweep_sample :
  let st := runCleanup_screenshots Sample.blob_outage 2000 Sample.before_sweep in
  List.map (fun r => (id r, status r)) (screenshots st) =
    [("shot-1", expired); ("shot-3", completed)] /\
  deletedCount st = 1 /\ errorCount st = 1 /\
  calls st =
    [DeleteScreenshot "screenshots" "2024/05/01/shot-1.png";
     UpdateScreenshotStatus "shot-1" expired;
     DeleteScreenshot "screenshots" "2024/05/01/shot-2.png";
     DeleteScreenshotRecord "shot-2"].
Proof. vm_compute. repeat split. Qed.

Lemma lookup_id_update_same i st table r :
  lookup_id i table = Some r ->
  lookup_id i (updateScreenshotStatus i st table) = Some (with_status st r).
Proof.
  unfold lookup_id, updateScreenshotStatus.
  induction table as [|x table IH]; simpl; [discriminate|].
  destruct (String.eqb_spec (id x) i) as [Heq|Hne]; simpl.
  - rewrite Heq, String.eqb_refl. now intros [= <-].
  - destruct (String.eqb_spec (id x) i); [contradiction | exact IH].
Qed.

Lemma lookup_id_update_other i j st table :
  i <> j ->
  lookup_id i (updateScreenshotStatus j st table) = lookup_id i table.
Proof.
  intros Hne. unfold lookup_id, updateScreenshotStatus.
  induction table as [|x table IH]; simpl; [reflexivity|].
  destruct (String.eqb_spec (id x) j) as [Heq|_]; simpl.
  - destruct (String.eqb_spec (id x) i); [congruence | exact IH].
  - destruct (String.eqb (id x) i); [reflexivity | exact IH].
Qed.

Lemma lookup_id_delete_same i table :
  lookup_id i (deleteScreenshotRecord i table) = None.
Proof.
  unfold lookup_id, deleteScreenshotRecord.
  induction table as [|x table IH]; simpl; [reflexivity|].
  destruct (String.eqb (id x) i) eqn:Heq; simpl; [exact IH|].
  now rewrite Heq.
Qed.

Lemma lookup_id_delete_other i j table :
  i <> j ->
  lookup_id i (deleteScreenshotRecord j table) = lookup_id i table.
Proof.
  intros Hne. unfold lookup_id, deleteScreenshotRecord.
  induction table as [|x table IH]; simpl; [reflexivity|].
  destruct (String.eqb_spec (id x) j) as [Heq|_]; simpl.
  - destruct (String.eqb_spec (id x) i); [congruence | exact IH].
  - destruct (String.eqb (id x) i); [reflexivity | exact IH].
Qed.

(** With [id] a key, a row of the table is the one found under its id. *)
Lemma lookup_id_key table r :
  List.NoDup (List.map id table) -> In r table -> lookup_id (id r) table = Some r.
Proof.
  unfold lookup_id. induction table as [|x table IH]; simpl; [tauto|].
  intros Hnd [->|Hin].
  - now rewrite String.eqb_refl.
  - inversion Hnd as [|? ? Hx Hnd']; subst.
    destruct (String.eqb_spec (id x) (id r)) as [Heq|_]; [|now apply IH].
    exfalso. apply Hx. rewrite Heq. now apply in_map.
Qed.

Lemma map_id_update i st table :
  List.map id (updateScreenshotStatus i st table) = List.map id table.
Proof.
  unfold updateScreenshotStatus. rewrite map_map. apply map_ext.
  intros r. now destruct (String.eqb (id r) i).
Qed.

Lemma NoDup_map_filter {A B} (g : A -> B) (p : A -> bool) l :
  List.NoDup (List.map g l) -> List.NoDup (List.map g (List.filter p l)).
Proof.
  induction l as [|x l IH]; simpl; [auto|].
  intros Hnd. inversion Hnd as [|? ? Hx Hnd']; subst.
  destruct (p x); simpl; [|auto]. constructor; [|auto].
  intros Hin. apply Hx. apply in_map_iff in Hin. destruct Hin as (y & Hy & Hin).
  apply List.filter_In in Hin. rewrite <- Hy. apply in_map. tauto.
Qed.

Lemma NoDup_map_firstn {A B} (g : A -> B) n l :
  List.NoDup (List.map g l) -> List.NoDup (List.map g (firstn n l)).
Proof.
  revert l. induction n as [|n IH]; intros [|x l]; simpl; auto; [constructor|].
  intros Hnd. inversion Hnd as [|? ? Hx Hnd']; subst. constructor; [|auto].
  intros Hin. apply Hx. apply in_map_iff in Hin. destruct Hin as (y & Hy & Hin).
  rewrite <- Hy. apply in_map. now apply SitemapProofs.firstn_In_incl with n.
Qed.

Lemma getExpiredScreenshots_In now table r :
  In r (getExpiredScreenshots now table) ->
  In r table /\ status r = completed /\ expiresAt r < now.
Proof.
  unfold getExpiredScreenshots. intros H.
  apply SitemapProofs.firstn_In_incl, List.filter_In in H.
  destruct H as [Hin Hb]. apply andb_true_iff in Hb. destruct Hb as [Hst Hexp].
  repeat split; [exact Hin | now destruct (status r) | lia].
Qed.

Lemma deleteScreenshot_In b key objects o :
  In o (deleteScreenshot b key objects) -> In o objects.
Proof. unfold deleteScreenshot. intros H. now apply List.filter_In in H. Qed.

Lemma deleteScreenshot_gone b key objects :
  ~ In (b, key) (deleteScreenshot b key objects).
Proof.
  unfold deleteScreenshot. intros H. apply List.filter_In in H. destruct H as [_ H].
  simpl in H. now rewrite !String.eqb_refl in H.
Qed.

Section Sweep.
Variable f : faults.

(** What one iteration does to the row of another screenshot, to the
    counters, to the calls made so far and to the store of blobs. *)
Lemma cleanupScreenshot_other st s i :
  i <> id s ->
  lookup_id i (screenshots (cleanupScreenshot f st s)) = lookup_id i (screenshots st).
Proof.
  intros Hne. unfold cleanupScreenshot, onCleanupError.
  destruct (deleteScreenshot_fails f _ _); simpl.
  - destruct (updateScreenshotStatus_fails f _); simpl;
      [reflexivity | now apply lookup_id_update_other].
  - destruct (deleteScreenshotRecord_fails f _); simpl.
    + destruct (updateScreenshotStatus_fails f _); simpl;
        [reflexivity | now apply lookup_id_update_other].
    + now apply lookup_id_delete_other.
Qed.

Lemma cleanupScreenshot_counts st s :
  deletedCount (cleanupScreenshot f st s) + errorCount (cleanupScreenshot f st s)
  = deletedCount st + errorCount st + 1.
Proof.
  unfold cleanupScreenshot, onCleanupError.
  destruct (deleteScreenshot_fails f _ _); simpl; [lia|].
  destruct (deleteScreenshotRecord_fails f _); simpl; lia.
Qed.

Lemma cleanupScreenshot_calls st s c :
  In c (calls st) -> In c (calls (cleanupScreenshot f st s)).
Proof.
  intros Hin. unfold cleanupScreenshot, onCleanupError.
  destruct (deleteScreenshot_fails f _ _); simpl.
  - rewrite !in_app_iff. tauto.
  - destruct (deleteScreenshotRecord_fails f _); simpl;
      rewrite !in_app_iff; tauto.
Qed.

Lemma cleanupScreenshot_blobs st s b :
  ~ In b (blobs st) -> ~ In b (blobs (cleanupScreenshot f st s)).
Proof.
  intros Hb. unfold cleanupScreenshot, onCleanupError.
  destruct (deleteScreenshot_fails f _ _); simpl; [exact Hb|].
  destruct (deleteScreenshotRecord_fails f _); simpl;
    intros Hin; apply deleteScreenshot_In in Hin; tauto.
Qed.

Lemma cleanupScreenshot_NoDup st s :
  List.NoDup (List.map id (screenshots st)) ->
  List.NoDup (List.map id (screenshots (cleanupScreenshot f st s))).
Proof.
  intros Hnd. unfold cleanupScreenshot, onCleanupError.
  destruct (deleteScreenshot_fails f _ _); simpl.
  - destruct (updateScreenshotStatus_fails f _); simpl;
      [exact Hnd | now rewrite map_id_update].
  - destruct (deleteScreenshotRecord_fails f _); simpl.
    + destruct (updateScreenshotStatus_fails f _); simpl;
        [exact Hnd | now rewrite map_id_update].
    + now apply NoDup_map_filter.
Qed.

(** The same facts for the whole loop. *)
Lemma cleanupScreenshots_other batch st i :
  ~ In i (List.map id batch) ->
  lookup_id i (screenshots (cleanupScreenshots f batch st)) = lookup_id i (screenshots st).
Proof.
  revert st. induction batch as [|s batch IH]; intros st Hni; simpl; [reflexivity|].
  simpl in Hni. rewrite IH by tauto. apply cleanupScreenshot_other.
  intros ->. tauto.
Qed.

Lemma cleanupScreenshots_counts batch st :
  deletedCount (cleanupScreenshots f batch st) + errorCount (cleanupScreenshots f batch st)
  = deletedCount st + errorCount st + JS.len batch.
Proof.
  revert st. induction batch as [|s batch IH]; intros st.
  - unfold JS.len. simpl. lia.
  - change (cleanupScreenshots f (s :: batch) st)
      with (cleanupScreenshots f batch (cleanupScreenshot f st s)).
    rewrite IH, cleanupScreenshot_counts.
    unfold JS.len. simpl length. lia.
Qed.

Lemma cleanupScreenshots_calls batch st c :
  In c (calls st) -> In c (calls (cleanupScreenshots f batch st)).
Proof.
  revert st. induction batch as [|s batch IH]; intros st; simpl; [auto|].
  intros H. apply IH. now apply cleanupScreenshot_calls.
Qed.

Lemma cleanupScreenshots_blobs batch st b :
  ~ In b (blobs st) -> ~ In b (blobs (cleanupScreenshots f batch st)).
Proof.
  revert st. induction batch as [|s batch IH]; intros st; simpl; [auto|].
  intros H. apply IH. now apply cleanupScreenshot_blobs.
Qed.

Lemma cleanupScreenshots_NoDup batch st :
  List.NoDup (List.map id (screenshots st)) ->
  List.NoDup (List.map id (screenshots (cleanupScreenshots f batch st))).
Proof.
  revert st. induction batch as [|s batch IH]; intros st; simpl; [auto|].
  intros H. apply IH. now apply cleanupScreenshot_NoDup.
Qed.

(** The fate of one screenshot of the batch. *)
Lemma cleanupScreenshots_each batch st a :
  List.NoDup (List.map id batch) ->
  In a batch ->
  lookup_id (id a) (screenshots st) = Some a ->
  let st' := cleanupScreenshots f batch st in
  In (DeleteScreenshot (bucket a) (storageKey a)) (calls st') /\
  (deleteScreenshot_fails f (bucket a) (storageKey a) = true ->
   In (UpdateScreenshotStatus (id a) expired) (calls st') /\
   (updateScreenshotStatus_fails f (id a) = false ->
    lookup_id (id a) (screenshots st') = Some (with_status expired a))) /\
  (deleteScreenshot_fails f (bucket a) (storageKey a) = false ->
   deleteScreenshotRecord_fails f (id a) = false ->
   lookup_id (id a) (screenshots st') = None /\
   ~ In (bucket a, storageKey a) (blobs st')).
Proof.
  intros Hnd Hin Hrow st'. subst st'.
  apply in_split in Hin. destruct Hin as (l1 & l2 & ->).
  rewrite map_app in Hnd. simpl in Hnd.
  pose proof (NoDup_remove_2 _ _ _ Hnd) as Hfresh.
  rewrite in_app_iff in Hfresh.
  unfold cleanupScreenshots. rewrite fold_left_app. simpl.
  fold (cleanupScreenshots f l1 st).
  set (st1 := cleanupScreenshots f l1 st).
  fold (cleanupScreenshots f l2 (cleanupScreenshot f st1 a)).
  assert (Hrow1 : lookup_id (id a) (screenshots st1) = Some a).
  { unfold st1. rewrite cleanupScreenshots_other; [exact Hrow | tauto]. }
  split; [|split].
  - apply cleanupScreenshots_calls. unfold cleanupScreenshot, onCleanupError.
    destruct (deleteScreenshot_fails f _ _); simpl.
    + rewrite !in_app_iff. simpl. tauto.
    + destruct (deleteScreenshotRecord_fails f _); simpl;
        rewrite !in_app_iff; simpl; tauto.
  - intros Hfail. split.
    + apply cleanupScreenshots_calls. unfold cleanupScreenshot, onCleanupError.
      rewrite Hfail. simpl. rewrite !in_app_iff. simpl. tauto.
    + intros Hupd. rewrite cleanupScreenshots_other by tauto.
      unfold cleanupScreenshot, onCleanupError. rewrite Hfail, Hupd. simpl.
      now apply lookup_id_update_same.
  - intros Hblob Hrec. split.
    + rewrite cleanupScreenshots_other by tauto.
      unfold cleanupScreenshot. rewrite Hblob, Hrec. simpl.
      apply lookup_id_delete_same.
    + apply cleanupScreenshots_blobs.
      unfold cleanupScreenshot. rewrite Hblob, Hrec. simpl.
      apply deleteScreenshot_gone.
Qed.
End Sweep.

(** The batch of a sweep over a table keyed by [id]: its rows are rows
    of the table, found under their ids, and no id occurs twice. *)
Lemma getExpiredScreenshots_NoDup now table :
  List.NoDup (List.map id table) ->
  List.NoDup (List.map id (getExpiredScreenshots now table)).
Proof.
  intros Hkey. unfold getExpiredScreenshots.
  now apply NoDup_map_firstn, NoDup_map_filter.
Qed.

Lemma getExpiredScreenshots_row now table a :
  List.NoDup (List.map id table) ->
  In a (getExpiredScreenshots now table) ->
  lookup_id (id a) table = Some a.
Proof.
  intros Hkey Hin. apply lookup_id_key; [exact Hkey|].
  now apply getExpiredScreenshots_In in Hin.
Qed.

(** With the guard free, the screenshots' part of a run is the loop over
    the selected batch, started with fresh counters. *)
Lemma runCleanup_screenshots_idle f now st :
  isRunning st = false ->
  let looped :=
    cleanupScreenshots f (getExpiredScreenshots now (screenshots st))
      {| isRunning := true; screenshots := screenshots st;
         blobs := blobs st; deletedCount := 0; errorCount := 0;
         calls := [] |} in
  runCleanup_screenshots f now st =
    {| isRunning := false; screenshots := screenshots looped;
       blobs := blobs looped; deletedCount := deletedCount looped;
       errorCount := errorCount looped; calls := calls looped |}.
Proof. intros Hidle. unfold runCleanup_screenshots. now rewrite Hidle. Qed.

(** C8. For every run of the sweep over a table keyed by [id], whatever
    calls reject, as its loop over the expired screenshots leaves the
    stores: the loop ends having handled every
    screenshot of the batch, each counted once as deleted or as an error;
    the blob deletion of each one is attempted; for each one whose blob
    deletion rejects, the update of its status to [expired] is issued,
    and the row then holds [expired] instead of [completed] when the
    store takes the update; every other one of the batch is gone from the
    table and the blob store when the store takes the deletion of its
    row. *)
Theorem sweep_marks_failed_deletions_expired
    (f : faults) (now : Z) (st : state) :
  isRunning st = false ->
  List.NoDup (List.map id (screenshots st)) ->
  let batch := getExpiredScreenshots now (screenshots st) in
  let st' := runCleanup_screenshots f now st in
  isRunning st' = false /\
  deletedCount st' + errorCount st' = JS.len batch /\
  forall a, In a batch ->
    In (DeleteScreenshot (bucket a) (storageKey a)) (calls st') /\
    (deleteScreenshot_fails f (bucket a) (storageKey a) = true ->
     In (UpdateScreenshotStatus (id a) expired) (calls st') /\
     (updateScreenshotStatus_fails f (id a) = false ->
      lookup_id (id a) (screenshots st') = Some (with_status expired a) /\
      status (with_status expired a) <> completed)) /\
    (deleteScreenshot_fails f (bucket a) (storageKey a) = false ->
     deleteScreenshotRecord_fails f (id a) = false ->
     lookup_id (id a) (screenshots st') = None /\
     ~ In (bucket a, storageKey a) (blobs st')).
Proof.
  intros Hidle Hkey batch st'. subst st'.
  rewrite (runCleanup_screenshots_idle f now st Hidle). cbv zeta. fold batch.
  cbn [isRunning screenshots blobs deletedCount errorCount calls].
  split; [reflexivity|]. split.
  - rewrite cleanupScreenshots_counts. simpl. lia.
  - intros a Hin.
    pose proof (getExpiredScreenshots_NoDup now _ Hkey) as Hnd.
    pose proof (getExpiredScreenshots_row now _ a Hkey Hin) as Hrow.
    match goal with
    | |- context [cleanupScreenshots f batch ?s0] =>
        pose proof (cleanupScreenshots_each f batch s0 a Hnd Hin Hrow)
          as (Hcall & Hfail & Hok)
    end.
    split; [exact Hcall|]. split; [|exact Hok].
    intros Hblob. destruct (Hfail Hblob) as [Hupd Hstored].
    split; [exact Hupd|]. intros Haccept.
    split; [now apply Hstored | discriminate].
Qed.

Lemma sweep_marks_failed_deletions_expired_witness :
  let st' := runCleanup_screenshots Sample.blob_outage 2000 Sample.before_sweep in
  isRunning st' = false /\
  deletedCount st' + errorCount st' = 2 /\
  lookup_id "shot-1" (screenshots st') =
    Some {| id := "shot-1"; bucket := "screenshots";
            storageKey := "2024/05/01/shot-1.png";
            expiresAt := 1000; status := expired |} /\
  lookup_id "shot-2" (screenshots st') = None.
Proof.
  pose proof (sweep_marks_failed_deletions_expired
                Sample.blob_outage 2000 Sample.before_sweep eq_refl
                ltac:(repeat constructor; simpl; intuition discriminate))
    as (Hrun & Hcount & Heach).
  split; [exact Hrun|]. split; [exact Hcount|]. split.
  - apply (Heach {| id := "shot-1"; bucket := "screenshots";
                    storageKey := "2024/05/01/shot-1.png";
                    expiresAt := 1000; status := completed |});
      [left; reflexivity | reflexivity | reflexivity].
  - apply (Heach {| id := "shot-2"; bucket := "screenshots";
                    storageKey := "2024/05/01/shot-2.png";
                    expiresAt := 1500; status := completed |});
      [right; left; reflexivity | reflexivity | reflexivity].
Defined.

End CleanupProofs.

Module RateLimitWindow.
Import RateLimit.

Lemma span_digits_digits s : Forall (fun c => JS.is_digit c = true) (fst (JS.span_digits s)).
Proof.
  induction s as [|c s IH]; simpl; [constructor|].
  destruct (JS.is_digit c) eqn:Hc; [|constructor].
  destruct (JS.span_digits s) as [ds tl]. simpl in *. now constructor.
Qed.

Lemma parseInt_nonneg ds :
  Forall (fun c => JS.is_digit c = true) ds -> 0 <= JS.parseInt ds.
Proof.
  intros H. unfold JS.parseInt.
  assert (G : forall acc, 0 <= acc ->
            0 <= fold_left (fun a c => 10 * a + JS.digit_value c) ds acc).
  { induction H as [|c ds Hc _ IH]; intros acc Hacc; simpl; [exact Hacc|].
    apply IH. unfold JS.is_digit in Hc. apply andb_true_iff in Hc.
    destruct Hc as [Hlo Hhi]. apply Nat.leb_le in Hlo.
    unfold JS.digit_value. lia. }
  apply G. lia.
Qed.


(** What [parseRateLimit] can return: a count that is not negative and
    one of the two windows. *)
Lemma parseRateLimit_range limit :
  0 <= requests (parseRateLimit limit) /\
  (windowMs (parseRateLimit limit) = 1000 \/
   windowMs (parseRateLimit limit) = 60000).
Proof.
  unfold parseRateLimit.
  pose proof (span_digits_digits limit) as Hd.
  destruct (JS.span_digits limit) as [[|d ds] tl]; cbn [fst] in Hd;
    [cbn; lia|].
  pose proof (parseInt_nonneg _ Hd).
  destruct tl as [|[[] [] [] [] [] [] [] []] unit];
    cbn [requests windowMs]; try lia;
    destruct (String.eqb unit "second"); cbn [requests windowMs]; try lia;
    destruct (String.eqb unit "minute"); cbn [requests windowMs]; lia.
Qed.

Lemma rateLimitMiddleware_spec k R W now m :
  parseRateLimit (rateLimit k) = {| requests := R; windowMs := W |} ->
  rateLimitMiddleware (Some k) now m =
    let timestamps :=
      List.filter (fun ts => now - ts <? W) (default [] (m !! name k)) in
    if JS.len timestamps >=? R then
      (TooManyRequests
         (Z.max 1 (JS.ceil_div (List.hd now timestamps + W - now) 1000)),
       <[name k := timestamps]> m)
    else
      (Next (Some (R, R - JS.len (timestamps ++ [now]),
                   if W =? 1000 then "1s" else "1m")),
       <[name k := timestamps ++ [now]]> m).
Proof. intros H. unfold rateLimitMiddleware. rewrite H. reflexivity. Qed.

Lemma parseRateLimit_eta limit :
  parseRateLimit limit =
    {| requests := requests (parseRateLimit limit);
       windowMs := windowMs (parseRateLimit limit) |}.
Proof. now destruct (parseRateLimit limit). Qed.

(** Filtering for a later instant subsumes filtering for an earlier one,
    and for a longer window. *)
Lemma filter_window_twice now now' W W' l :
  now' <= now -> W <= W' ->
  List.filter (fun ts => now - ts <? W) (List.filter (fun ts => now' - ts <? W') l)
  = List.filter (fun ts => now - ts <? W) l.
Proof.
  intros Hnow HW. induction l as [|ts l IH]; simpl; [reflexivity|].
  destruct (Z.ltb_spec (now' - ts) W'); simpl.
  - now rewrite IH.
  - destruct (Z.ltb_spec (now - ts) W); [lia | exact IH].
Qed.

Lemma filter_length_le {A} (p : A -> bool) l :
  JS.len (List.filter p l) <= JS.len l.
Proof. unfold JS.len. pose proof (List.filter_length_le p l). lia. Qed.

Lemma filter_len_incl {A} (p q : A -> bool) l :
  (forall x, In x l -> p x = true -> q x = true) ->
  JS.len (List.filter p l) <= JS.len (List.filter q l).
Proof.
  unfold JS.len. induction l as [|x l IH]; intros H; simpl; [lia|].
  assert (IH' := IH (fun y Hy => H y (or_intror Hy))).
  specialize (H x (or_introl eq_refl)).
  destruct (p x); [rewrite H by reflexivity; simpl; lia|].
  destruct (q x); simpl; lia.
Qed.

Section Client.
Variable k : ApiKey.
Variable R W : Z.
Hypothesis Hspec : parseRateLimit (rateLimit k) = {| requests := R; windowMs := W |}.
Hypothesis HW : 0 < W.

(** The invariant of the window of one client whose requests come at
    non-decreasing instants: [hist] are the instants let through so
    far, [last] the instant of the latest request. *)
Lemma serve_window times : forall hist m last,
  default [] (m !! name k) = List.filter (fun ts => last - ts <? W) hist ->
  Forall (fun ts => ts <= last) hist ->
  (forall t, JS.len (List.filter (fun ts => (t - W <? ts) && (ts <=? t)) hist) <= R) ->
  Sorted Z.le (last :: times) ->
  forall t,
    JS.len (List.filter (fun ts => (t - W <? ts) && (ts <=? t))
              (hist ++ fst (serve k times m))) <= R.
Proof.
  induction times as [|now rest IH]; intros hist m last Hwin Hpast Hbound Hsorted t.
  - simpl. rewrite app_nil_r. apply Hbound.
  - apply Sorted_inv in Hsorted. destruct Hsorted as [Hsorted Hhd].
    apply HdRel_inv in Hhd.
    cbn [serve]. rewrite (rateLimitMiddleware_spec k R W now m Hspec). cbv zeta.
    rewrite Hwin, filter_window_twice by lia.
    set (timestamps := List.filter (fun ts => now - ts <? W) hist).
    destruct (Z.geb_spec (JS.len timestamps) R) as [Hfull|Hroom]; cbn [fst snd].
    + apply (IH hist _ now); auto.
      * now rewrite lookup_insert_eq.
      * eapply List.Forall_impl; [|exact Hpast]. simpl. intros; lia.
    + change (hist ++ now :: fst (serve k rest (<[name k := timestamps ++ [now]]> m)))
        with (hist ++ [now] ++ fst (serve k rest (<[name k := timestamps ++ [now]]> m))).
      rewrite app_assoc.
      apply (IH (hist ++ [now]) _ now); auto.
      * rewrite lookup_insert_eq. cbn [default from_option id].
        rewrite List.filter_app. cbn [List.filter].
        destruct (Z.ltb_spec (now - now) W); [reflexivity | lia].
      * apply Forall_app. split; [|repeat constructor; lia].
        eapply List.Forall_impl; [|exact Hpast]. simpl. intros; lia.
      * intros t'. rewrite List.filter_app, SitemapProofs.len_app.
        cbn [List.filter].
        destruct (Z.leb_spec now t') as [Hle|Hgt].
        -- assert (Hsub : JS.len (List.filter (fun ts => (t' - W <? ts) && (ts <=? t')) hist)
                          <= JS.len timestamps).
           { apply filter_len_incl. intros ts _ Hts.
             apply andb_true_iff in Hts. destruct Hts as [Hlo _].
             apply Z.ltb_lt in Hlo. apply Z.ltb_lt. lia. }
           destruct ((t' - W <? now) && true); unfold JS.len in *; simpl; lia.
        -- rewrite andb_false_r. specialize (Hbound t').
           unfold JS.len in *. simpl. lia.
Qed.
End Client.

(** X1. The guarantee of the sliding window.  A client whose window is
    empty sends requests at instants that never decrease; whatever its
    limit string, no more than [requests] of the requests let through
    fall in any interval [(t - windowMs, t]]. *)
Theorem sliding_window_never_exceeds_limit
    (k : ApiKey) (times : list Z) (m : gmap string (list Z)) (t : Z) :
  default [] (m !! name k) = [] ->
  Sorted Z.le times ->
  JS.len (List.filter
            (fun ts => (t - windowMs (parseRateLimit (rateLimit k)) <? ts) && (ts <=? t))
            (fst (serve k times m)))
  <= requests (parseRateLimit (rateLimit k)).
Proof.
  intros Hempty Hsorted.
  destruct (parseRateLimit_range (rateLimit k)) as [HR HW].
  destruct times as [|t0 rest]; [simpl; exact HR|].
  apply (serve_window k _ _ (parseRateLimit_eta _) ltac:(lia) (t0 :: rest) [] m t0).
  - now rewrite Hempty.
  - constructor.
  - intros t'. exact HR.
  - constructor; [exact Hsorted | constructor; lia].
Qed.

Lemma sliding_window_never_exceeds_limit_witness :
  JS.len (List.filter (fun ts => (6000 - 1000 <? ts) && (ts <=? 6000))
            (fst (serve {| name := "Production"; rateLimit := "2/second" |}
                    [5000; 5300; 5900; 6100] ∅)))
  <= 2.
Proof.
  apply (sliding_window_never_exceeds_limit
           {| name := "Production"; rateLimit := "2/second" |}
           [5000; 5300; 5900; 6100] ∅ 6000).
  - reflexivity.
  - repeat (constructor; try lia).
Defined.

(** A call reads and writes the window of its own key only. *)
Lemma rateLimitMiddleware_frame k now m j :
  j <> name k -> snd (rateLimitMiddleware (Some k) now m) !! j = m !! j.
Proof.
  intros Hne. rewrite (rateLimitMiddleware_spec k _ _ now m (parseRateLimit_eta _)).
  cbv zeta. destruct (_ >=? _); cbn [snd]; now rewrite lookup_insert_ne.
Qed.

Lemma rateLimitMiddleware_local k now m1 m2 :
  m1 !! name k = m2 !! name k ->
  fst (rateLimitMiddleware (Some k) now m1) = fst (rateLimitMiddleware (Some k) now m2) /\
  snd (rateLimitMiddleware (Some k) now m1) !! name k =
  snd (rateLimitMiddleware (Some k) now m2) !! name k.
Proof.
  intros Heq.
  rewrite !(rateLimitMiddleware_spec k _ _ now _ (parseRateLimit_eta _)).
  cbv zeta. rewrite Heq. destruct (_ >=? _); cbn [fst snd];
    now rewrite !lookup_insert_eq.
Qed.

Lemma serveAll_frame others m j :
  Forall (fun r => name (fst r) <> j) others ->
  serveAll others m !! j = m !! j.
Proof.
  unfold serveAll. intros H. revert m.
  induction H as [|r others Hr _ IH]; intros m; simpl; [reflexivity|].
  rewrite IH. apply rateLimitMiddleware_frame. congruence.
Qed.

(** X2. Requests made under other key names, however many and whenever
    they come, change neither the answer a client gets nor the window
    recorded for it; and a call leaves the windows of all other names as
    it found them. *)
Theorem other_clients_do_not_interfere
    (k : ApiKey) (now : Z) (others : list (ApiKey * Z)) (m : gmap string (list Z)) :
  Forall (fun r => name (fst r) <> name k) others ->
  fst (rateLimitMiddleware (Some k) now (serveAll others m)) =
  fst (rateLimitMiddleware (Some k) now m) /\
  snd (rateLimitMiddleware (Some k) now (serveAll others m)) !! name k =
  snd (rateLimitMiddleware (Some k) now m) !! name k /\
  forall j, j <> name k ->
    snd (rateLimitMiddleware (Some k) now (serveAll others m)) !! j =
    serveAll others m !! j.
Proof.
  intros Hothers.
  destruct (rateLimitMiddleware_local k now (serveAll others m) m
              (serveAll_frame others m (name k) Hothers)) as [Hout Hwin].
  split; [exact Hout|]. split; [exact Hwin|].
  intros j Hj. now apply rateLimitMiddleware_frame.
Qed.

Lemma other_clients_do_not_interfere_witness :
  fst (rateLimitMiddleware (Some {| name := "Production"; rateLimit := "2/second" |})
         5900
         (serveAll [({| name := "Staging"; rateLimit := "1/minute" |}, 5100);
                    ({| name := "Staging"; rateLimit := "1/minute" |}, 5200)]
            (<["Production" := [5000; 5300]]> ∅))) =
  fst (rateLimitMiddleware (Some {| name := "Production"; rateLimit := "2/second" |})
         5900 (<["Production" := [5000; 5300]]> ∅)).
Proof.
  apply (other_clients_do_not_interfere
           {| name := "Production"; rateLimit := "2/second" |} 5900
           [({| name := "Staging"; rateLimit := "1/minute" |}, 5100);
            ({| name := "Staging"; rateLimit := "1/minute" |}, 5200)]
           (<["Production" := [5000; 5300]]> ∅)).
  repeat constructor; discriminate.
Defined.

Lemma ceil_div_covers x : x <= 1000 * JS.ceil_div x 1000.
Proof.
  unfold JS.ceil_div. pose proof (Z.mul_div_le (- x) 1000 ltac:(lia)). lia.
Qed.

(** From a window that holds no more timestamps than the limit, a
    refused client that waits the [retryAfter] seconds it is told is let
    through. *)
Lemma retry_after_from_bounded_window
    (k : ApiKey) (now later retryAfter : Z) (m m' : gmap string (list Z)) :
  1 <= requests (parseRateLimit (rateLimit k)) ->
  JS.len (default [] (m !! name k)) <= requests (parseRateLimit (rateLimit k)) ->
  rateLimitMiddleware (Some k) now m = (TooManyRequests retryAfter, m') ->
  now + 1000 * retryAfter <= later ->
  1 <= retryAfter /\
  exists headers,
    fst (rateLimitMiddleware (Some k) later m') = Next (Some headers).
Proof.
  intros HR Hlen Hcall Hlater.
  destruct (parseRateLimit_range (rateLimit k)) as [_ HW].
  rewrite (rateLimitMiddleware_spec k _ _ now m (parseRateLimit_eta _)) in Hcall.
  cbv zeta in Hcall.
  set (W := windowMs (parseRateLimit (rateLimit k))) in *.
  set (R := requests (parseRateLimit (rateLimit k))) in *.
  set (timestamps := List.filter (fun ts => now - ts <? W) (default [] (m !! name k))) in *.
  destruct (Z.geb_spec (JS.len timestamps) R) as [Hfull|Hroom]; [|discriminate].
  injection Hcall as <- <-.
  split; [lia|].
  rewrite (rateLimitMiddleware_spec k _ _ later _ (parseRateLimit_eta _)).
  cbv zeta. fold W R. rewrite lookup_insert_eq. cbn [default from_option id].
  pose proof (filter_length_le (fun ts => now - ts <? W) (default [] (m !! name k)))
    as Hle. fold timestamps in Hle.
  destruct timestamps as [|oldest tl] eqn:Hts;
    [unfold JS.len in Hfull; simpl in Hfull; lia|].
  cbn [List.hd] in Hlater. cbn [List.filter].
  pose proof (ceil_div_covers (oldest + W - now)).
  destruct (Z.ltb_spec (later - oldest) W) as [Hin|Hout]; [lia|].
  pose proof (filter_length_le (fun ts => later - ts <? W) tl) as Htl.
  destruct (Z.geb_spec (JS.len (List.filter (fun ts => later - ts <? W) tl)) R)
    as [Hfull'|_]; [|cbn [fst]; eauto].
  unfold JS.len in *. simpl length in *. lia.
Qed.

(** The window recorded for a client never holds more timestamps than
    its limit. *)
Lemma serve_window_length k times : forall m,
  JS.len (default [] (m !! name k)) <= requests (parseRateLimit (rateLimit k)) ->
  JS.len (default [] (snd (serve k times m) !! name k))
  <= requests (parseRateLimit (rateLimit k)).
Proof.
  induction times as [|now rest IH]; intros m Hlen; [exact Hlen|].
  cbn [serve snd]. apply IH.
  rewrite (rateLimitMiddleware_spec k _ _ now m (parseRateLimit_eta _)). cbv zeta.
  pose proof (filter_length_le
                (fun ts => now - ts <? windowMs (parseRateLimit (rateLimit k)))
                (default [] (m !! name k))) as Hle.
  destruct (Z.geb_spec
              (JS.len (List.filter
                         (fun ts => now - ts <? windowMs (parseRateLimit (rateLimit k)))
                         (default [] (m !! name k))))
              (requests (parseRateLimit (rateLimit k)))) as [Hfull|Hroom];
    cbn [snd]; rewrite lookup_insert_eq; cbn [default from_option id].
  - lia.
  - rewrite SitemapProofs.len_app. unfold JS.len in *. simpl length. lia.
Qed.

(** X3. A client whose window starts empty and that, after any
    requests of its own, is refused with [retryAfter] is let through
    when it calls again once that many seconds have passed, for every
    limit of at least one request; the [retryAfter] announced is at
    least 1. *)
Theorem retry_after_is_enough
    (k : ApiKey) (times : list Z) (now later retryAfter : Z)
    (m m' : gmap string (list Z)) :
  1 <= requests (parseRateLimit (rateLimit k)) ->
  default [] (m !! name k) = [] ->
  rateLimitMiddleware (Some k) now (snd (serve k times m)) =
    (TooManyRequests retryAfter, m') ->
  now + 1000 * retryAfter <= later ->
  1 <= retryAfter /\
  exists headers,
    fst (rateLimitMiddleware (Some k) later m') = Next (Some headers).
Proof.
  intros HR Hempty Hcall Hlater.
  apply (retry_after_from_bounded_window k now later retryAfter
           (snd (serve k times m)) m'); auto.
  apply serve_window_length. rewrite Hempty. unfold JS.len. simpl. lia.
Qed.

Lemma retry_after_is_enough_witness :
  1 <= 1 /\
  exists headers,
    fst (rateLimitMiddleware (Some {| name := "Production"; rateLimit := "2/second" |})
           6900
           (snd (rateLimitMiddleware
                   (Some {| name := "Production"; rateLimit := "2/second" |}) 5900
                   (snd (serve {| name := "Production"; rateLimit := "2/second" |}
                           [5000; 5300] ∅)))))
    = Next (Some headers).
Proof.
  apply (retry_after_is_enough
           {| name := "Production"; rateLimit := "2/second" |} [5000; 5300]
           5900 6900 1 ∅).
  - vm_compute. discriminate.
  - reflexivity.
  - apply injective_projections; [vm_compute; reflexivity | reflexivity].
  - lia.
Defined.

Lemma cleanupWindows_lookup cleanedAt (m : gmap string (list Z)) i :
  default [] (cleanupWindows cleanedAt m !! i) =
  List.filter (fun t => cleanedAt - t <? 60000) (default [] (m !! i)).
Proof.
  unfold cleanupWindows. rewrite map_lookup_filter, lookup_fmap.
  destruct (m !! i) as [ts|]; simpl; [|reflexivity].
  case_guard as Hg; simpl in *; [reflexivity|].
  destruct (List.filter _ ts); [reflexivity | discriminate Hg].
Qed.

(** X4. The periodic clean-up of the windows, with its horizon of one
    minute, is invisible to the limiter: after a clean-up at an earlier
    instant a call is answered as without it and records the same
    window, whatever the limit string of the key. *)
Theorem cleanup_is_invisible
    (k : ApiKey) (cleanedAt now : Z) (m : gmap string (list Z)) :
  cleanedAt <= now ->
  fst (rateLimitMiddleware (Some k) now (cleanupWindows cleanedAt m)) =
  fst (rateLimitMiddleware (Some k) now m) /\
  snd (rateLimitMiddleware (Some k) now (cleanupWindows cleanedAt m)) !! name k =
  snd (rateLimitMiddleware (Some k) now m) !! name k.
Proof.
  intros Hnow.
  destruct (parseRateLimit_range (rateLimit k)) as [_ HW].
  rewrite !(rateLimitMiddleware_spec k _ _ now _ (parseRateLimit_eta _)).
  cbv zeta. rewrite cleanupWindows_lookup, filter_window_twice by lia.
  destruct (_ >=? _); cbn [fst snd]; now rewrite !lookup_insert_eq.
Qed.

Lemma cleanup_is_invisible_witness :
  fst (rateLimitMiddleware (Some {| name := "Production"; rateLimit := "2/second" |})
         5900 (cleanupWindows 5600 (<["Production" := [5000; 5300]]> ∅))) =
  fst (rateLimitMiddleware (Some {| name := "Production"; rateLimit := "2/second" |})
         5900 (<["Production" := [5000; 5300]]> ∅)).
Proof.
  apply (cleanup_is_invisible
           {| name := "Production"; rateLimit := "2/second" |} 5600 5900
           (<["Production" := [5000; 5300]]> ∅)).
  lia.
Defined.


(** *** The per-address limiter *)

Lemma memoryRateLimitMiddleware_open n ip now (m : gmap string RateLimitEntry) :
  match m !! ip with None => True | Some e => resetTime e < now end ->
  memoryRateLimitMiddleware n ip now m =
    (Next None, <[ip := {| count := 1; resetTime := now + 60000 |}]> m).
Proof.
  unfold memoryRateLimitMiddleware. destruct (m !! ip) as [e|]; [|reflexivity].
  intros H. destruct (Z.gtb_spec now (resetTime e)); [reflexivity | lia].
Qed.

Lemma serveAddress_in_window n ip rest : forall (m : gmap string RateLimitEntry) e,
  m !! ip = Some e ->
  Forall (fun t => t <= resetTime e) rest ->
  fst (serveAddress n ip rest m) = firstn (Z.to_nat (n - count e)) rest.
Proof.
  induction rest as [|now rest IH]; intros m e He Hin.
  - now rewrite firstn_nil.
  - inversion Hin as [|? ? Hnow Hrest]; subst.
    cbn [serveAddress]. unfold memoryRateLimitMiddleware. rewrite He. cbv zeta.
    destruct (Z.gtb_spec now (resetTime e)) as [?|_]; [lia|].
    destruct (Z.geb_spec (count e) n) as [Hfull|Hroom]; cbn [fst snd].
    + rewrite (IH m e He Hrest).
      replace (Z.to_nat (n - count e)) with 0%nat by lia. reflexivity.
    + rewrite (IH _ {| count := count e + 1; resetTime := resetTime e |});
        [|apply lookup_insert_eq | exact Hrest].
      cbn [count].
      replace (Z.to_nat (n - count e)) with (S (Z.to_nat (n - (count e + 1)))) by lia.
      reflexivity.
Qed.

(** X5. A fixed window: of the requests of one address that come before
    the window started by the first one closes, the first is let
    through whatever the limit, then as many as make the limit; every
    further one is refused. *)
Theorem fixed_window_admits_the_limit
    (requestsPerMinute : Z) (ip : string) (first : Z) (rest : list Z)
    (m : gmap string RateLimitEntry) :
  match m !! ip with None => True | Some e => resetTime e < first end ->
  Forall (fun t => t <= first + 60000) rest ->
  fst (serveAddress requestsPerMinute ip (first :: rest) m) =
    first :: firstn (Z.to_nat (requestsPerMinute - 1)) rest.
Proof.
  intros Hopen Hin. cbn [serveAddress].
  rewrite (memoryRateLimitMiddleware_open _ _ _ _ Hopen). cbn [fst snd].
  f_equal.
  apply (serveAddress_in_window requestsPerMinute ip rest _
           {| count := 1; resetTime := first + 60000 |});
    [apply lookup_insert_eq | exact Hin].
Qed.

Lemma fixed_window_admits_the_limit_witness :
  fst (serveAddress 2 "203.0.113.7" [1000; 1001; 30000; 61000] ∅) = [1000; 1001] /\
  fst (serveAddress 0 "203.0.113.7" [1000; 1001; 30000; 61000] ∅) = [1000].
Proof.
  split.
  - apply (fixed_window_admits_the_limit 2 "203.0.113.7" 1000 [1001; 30000; 61000] ∅).
    + rewrite lookup_empty. exact I.
    + repeat (constructor; try lia).
  - apply (fixed_window_admits_the_limit 0 "203.0.113.7" 1000 [1001; 30000; 61000] ∅).
    + rewrite lookup_empty. exact I.
    + repeat (constructor; try lia).
Defined.

Lemma ceil_div_exact x : x mod 1000 = 0 -> 1000 * JS.ceil_div x 1000 = x.
Proof.
  intros Hx. unfold JS.ceil_div.
  assert (Hneg : (- x) mod 1000 = 0) by (apply Z.mod_opp_l_z; [lia | exact Hx]).
  pose proof (Z.div_mod (- x) 1000 ltac:(lia)). lia.
Qed.

(** X6. The per-address limiter tells a refused client to retry after
    the seconds left in the window, rounded up, with no floor: the
    figure is 0 at the instant the window closes.  A retry at exactly the
    instant so announced is refused once more when the time left was a
    whole number of seconds, because the window is only replaced at
    instants strictly past [resetTime]; any later retry is let through. *)
Theorem memory_retry_needs_one_more_tick
    (requestsPerMinute : Z) (ip : string) (now : Z)
    (m : gmap string RateLimitEntry) (e : RateLimitEntry) :
  m !! ip = Some e ->
  requestsPerMinute <= count e ->
  now <= resetTime e ->
  let retryAfter := JS.ceil_div (resetTime e - now) 1000 in
  memoryRateLimitMiddleware requestsPerMinute ip now m =
    (TooManyRequests retryAfter, m) /\
  ((resetTime e - now) mod 1000 = 0 ->
   memoryRateLimitMiddleware requestsPerMinute ip (now + 1000 * retryAfter) m =
     (TooManyRequests 0, m)) /\
  (forall later, resetTime e < later ->
     fst (memoryRateLimitMiddleware requestsPerMinute ip later m) = Next None).
Proof.
  intros He Hfull Hnow retryAfter. subst retryAfter.
  split; [|split].
  - unfold memoryRateLimitMiddleware. rewrite He.
    destruct (Z.gtb_spec now (resetTime e)); [lia|].
    destruct (Z.geb_spec (count e) requestsPerMinute); [reflexivity | lia].
  - intros Hwhole. rewrite (ceil_div_exact _ Hwhole).
    replace (now + (resetTime e - now)) with (resetTime e) by lia.
    unfold memoryRateLimitMiddleware. rewrite He.
    destruct (Z.gtb_spec (resetTime e) (resetTime e)); [lia|].
    destruct (Z.geb_spec (count e) requestsPerMinute); [|lia].
    now rewrite Z.sub_diag.
  - intros later Hlater.
    rewrite memoryRateLimitMiddleware_open; [reflexivity | now rewrite He].
Qed.

Lemma memory_retry_needs_one_more_tick_witness :
  let m : gmap string RateLimitEntry :=
    <["203.0.113.7" := {| count := 2; resetTime := 61000 |}]> ∅ in
  memoryRateLimitMiddleware 2 "203.0.113.7" 59000 m = (TooManyRequests 2, m) /\
  memoryRateLimitMiddleware 2 "203.0.113.7" (59000 + 1000 * 2) m = (TooManyRequests 0, m) /\
  fst (memoryRateLimitMiddleware 2 "203.0.113.7" 61001 m) = Next None.
Proof.
  intros m.
  destruct (memory_retry_needs_one_more_tick 2 "203.0.113.7" 59000 m
              {| count := 2; resetTime := 61000 |})
    as (Hrefused & Hagain & Hlater).
  - apply lookup_insert_eq.
  - simpl. lia.
  - simpl. lia.
  - split; [exact Hrefused|]. split.
    + apply Hagain. reflexivity.
    + apply Hlater. simpl. lia.
Defined.

End RateLimitWindow.

Module PoolProofs.
Import Browser.

Lemma task_eqb_eq a b : task_eqb a b = true -> a = b.
Proof.
  destruct a, b; simpl; try discriminate; intros H;
    apply Nat.eqb_eq in H; now subst.
Qed.

Lemma held_app l1 l2 : held (l1 ++ l2) = held l1 + held l2.
Proof. unfold held. rewrite List.filter_app, length_app. lia. Qed.

Lemma handing_off_app l1 l2 :
  handing_off (l1 ++ l2) = handing_off l1 + handing_off l2.
Proof. unfold handing_off. rewrite List.filter_app, length_app. lia. Qed.

Lemma resume_counts t ts rest :
  resume t ts = Some rest ->
  held ts = held rest + held [t] /\
  handing_off ts = handing_off rest + handing_off [t].
Proof.
  revert rest. induction ts as [|t' ts IH]; intros rest; simpl; [discriminate|].
  destruct (task_eqb t t') eqn:Heq.
  - intros [= <-]. apply task_eqb_eq in Heq. subst t'.
    change (t :: ts) with ([t] ++ ts). rewrite held_app, handing_off_app. lia.
  - destruct (resume t ts) as [r|]; [|discriminate]. simpl. intros [= <-].
    destruct (IH r eq_refl) as [Hh Ho].
    change (t' :: ts) with ([t'] ++ ts). change (t' :: r) with ([t'] ++ r).
    rewrite !held_app, !handing_off_app. lia.
Qed.

(** What one step does to the counter, against the pages the suspended
    calls account for. *)
Lemma step_accounting maxConcurrentPages l s s' :
  step maxConcurrentPages l s = Some s' ->
  activePages s' - held (tasks s') =
  activePages s - held (tasks s) + (if failed_creation l then 1 else 0).
Proof.
  destruct l as [c|c ok|c|c|next ok|next ok|]; simpl.
  - intros [= <-]. unfold acquirePage.
    destruct (activePages s <? maxConcurrentPages); simpl;
      rewrite ?held_app; unfold held; simpl; lia.
  - destruct (resume _ _) as [rest|] eqn:Hr; [|discriminate]. intros [= <-].
    apply resume_counts in Hr. destruct Hr as [Hr _].
    destruct ok; simpl; rewrite ?held_app, Hr; unfold held; simpl; lia.
  - destruct (resume _ _) as [rest|] eqn:Hr; [|discriminate]. intros [= <-].
    apply resume_counts in Hr. destruct Hr as [Hr _].
    simpl. rewrite held_app, Hr. unfold held; simpl; lia.
  - destruct (resume _ _) as [rest|] eqn:Hr; [|discriminate]. intros [= <-].
    apply resume_counts in Hr. destruct Hr as [Hr _].
    unfold releasePage_closed.
    destruct (pageQueue s) as [|next queue']; simpl;
      [|destruct (isShuttingDown s); simpl];
      rewrite ?held_app, Hr; unfold held; simpl; lia.
  - destruct (resume _ _) as [rest|] eqn:Hr; [|discriminate]. intros [= <-].
    apply resume_counts in Hr. destruct Hr as [Hr _].
    destruct ok; simpl; rewrite ?held_app, Hr; unfold held; simpl; lia.
  - destruct (resume _ _) as [rest|] eqn:Hr; [|discriminate]. intros [= <-].
    apply resume_counts in Hr. destruct Hr as [Hr _].
    destruct ok; simpl; rewrite ?held_app, Hr; unfold held; simpl; lia.
  - intros [= <-]. simpl. lia.
Qed.

Lemma run_accounting maxConcurrentPages ls : forall s s',
  run maxConcurrentPages ls s = Some s' ->
  activePages s' - held (tasks s') =
  activePages s - held (tasks s) +
  Z.of_nat (length (List.filter failed_creation ls)).
Proof.
  induction ls as [|l ls IH]; intros s s'; simpl.
  - intros [= <-]. lia.
  - destruct (step maxConcurrentPages l s) as [s1|] eqn:Hstep; [|discriminate].
    intros Hrun. rewrite (IH _ _ Hrun), (step_accounting _ _ _ _ Hstep).
    destruct (failed_creation l); simpl length; lia.
Qed.

(** X8. Accounting of the pool.  After any schedule from the initial
    state, [activePages] is the number of suspended calls that count a
    page plus the number of page creations that failed: the slot taken
    by a page creation that throws after [activePages++] is never given
    back, so with no call left suspended the counter still holds one
    slot per failure. *)
Theorem failed_page_creation_leaks_its_slot
    (maxConcurrentPages : Z) (ls : list label) (s : state) :
  run maxConcurrentPages ls initial = Some s ->
  activePages s =
    held (tasks s) + Z.of_nat (length (List.filter failed_creation ls)) /\
  (tasks s = [] ->
   activePages s = Z.of_nat (length (List.filter failed_creation ls))).
Proof.
  intros Hrun. pose proof (run_accounting _ _ _ _ Hrun) as H.
  change (activePages initial - held (tasks initial)) with 0 in H.
  split; [lia|]. intros Hnone. rewrite Hnone in H.
  change (held []) with 0 in H. lia.
Qed.

Lemma failed_page_creation_leaks_its_slot_witness :
  exists s,
    run 1 [AcquireCall 1; AcquireReady 1 false; AcquireCall 2]%nat initial = Some s /\
    tasks s = [] /\ activePages s = 1 /\ pageQueue s = [2%nat].
Proof.
  eexists. split; [reflexivity|]. split; [reflexivity|]. split; [|reflexivity].
  apply (failed_page_creation_leaks_its_slot 1
           [AcquireCall 1; AcquireReady 1 false; AcquireCall 2]%nat);
    reflexivity.
Defined.

Lemma step_quiet maxConcurrentPages l s s' :
  match l with AcquireCall _ => handing_off (tasks s) = 0 | _ => True end ->
  step maxConcurrentPages l s = Some s' ->
  activePages s + handing_off (tasks s) <= maxConcurrentPages ->
  activePages s' + handing_off (tasks s') <= maxConcurrentPages.
Proof.
  destruct l as [c|c ok|c|c|next ok|next ok|]; simpl; intros Hq.
  - intros [= <-]. unfold acquirePage.
    destruct (Z.ltb_spec (activePages s) maxConcurrentPages); simpl;
      rewrite ?handing_off_app; unfold handing_off in *; simpl; lia.
  - destruct (resume _ _) as [rest|] eqn:Hr; [|discriminate]. intros [= <-].
    apply resume_counts in Hr. destruct Hr as [_ Hr].
    destruct ok; simpl; rewrite ?handing_off_app, Hr; unfold handing_off; simpl; lia.
  - destruct (resume _ _) as [rest|] eqn:Hr; [|discriminate]. intros [= <-].
    apply resume_counts in Hr. destruct Hr as [_ Hr].
    simpl. rewrite handing_off_app, Hr. unfold handing_off; simpl; lia.
  - destruct (resume _ _) as [rest|] eqn:Hr; [|discriminate]. intros [= <-].
    apply resume_counts in Hr. destruct Hr as [_ Hr].
    unfold releasePage_closed.
    destruct (pageQueue s) as [|next queue']; simpl;
      [|destruct (isShuttingDown s); simpl];
      rewrite ?handing_off_app, Hr; unfold handing_off; simpl; lia.
  - destruct (resume _ _) as [rest|] eqn:Hr; [|discriminate]. intros [= <-].
    apply resume_counts in Hr. destruct Hr as [_ Hr].
    destruct ok; simpl; rewrite ?handing_off_app, Hr; unfold handing_off; simpl; lia.
  - destruct (resume _ _) as [rest|] eqn:Hr; [|discriminate]. intros [= <-].
    apply resume_counts in Hr. destruct Hr as [_ Hr].
    destruct ok; simpl; rewrite ?handing_off_app, Hr; unfold handing_off; simpl; lia.
  - intros [= <-]. simpl. lia.
Qed.

(** X9. The ceiling holds outside the hand-off window: on every
    schedule in which no [acquirePage] call runs while a [releasePage] is
    suspended at its [await initBrowser()], [activePages] stays between 0
    and [maxConcurrentPages], even with the leases being handed off
    counted in. *)
Theorem ceiling_holds_outside_handoff
    (maxConcurrentPages : Z) (ls : list label) (s : state) :
  0 <= maxConcurrentPages ->
  quiet maxConcurrentPages ls initial = true ->
  run maxConcurrentPages ls initial = Some s ->
  0 <= activePages s <= maxConcurrentPages /\
  activePages s + handing_off (tasks s) <= maxConcurrentPages.
Proof.
  intros Hmax Hquiet Hrun.
  assert (Hinv : forall ls s0 s1,
            quiet maxConcurrentPages ls s0 = true ->
            run maxConcurrentPages ls s0 = Some s1 ->
            activePages s0 + handing_off (tasks s0) <= maxConcurrentPages ->
            activePages s1 + handing_off (tasks s1) <= maxConcurrentPages).
  { clear. induction ls as [|l ls IH]; intros s0 s1; simpl.
    - now intros _ [= <-].
    - destruct (step maxConcurrentPages l s0) as [s'|] eqn:Hstep; [|discriminate].
      intros Hq Hrun H0. apply andb_true_iff in Hq. destruct Hq as [Hl Hq].
      apply (IH s' s1 Hq Hrun). apply (step_quiet _ l s0 s'); auto.
      destruct l; auto. now apply Z.eqb_eq. }
  pose proof (Hinv ls initial s Hquiet Hrun ltac:(unfold handing_off; simpl; lia)) as Hceil.
  pose proof (run_accounting _ _ _ _ Hrun) as Hacc.
  change (activePages initial - held (tasks initial)) with 0 in Hacc.
  unfold handing_off, held in *. lia.
Qed.

Lemma ceiling_holds_outside_handoff_witness :
  exists s,
    run 3 (Sample.release_in_progress ++ [BrowserReady 4 true; AcquireCall 5]%nat)
        initial = Some s /\
    0 <= activePages s <= 3 /\ pageQueue s = [5%nat].
Proof.
  eexists. split; [reflexivity|]. split; [|reflexivity].
  apply (ceiling_holds_outside_handoff 3
           (Sample.release_in_progress ++ [BrowserReady 4 true; AcquireCall 5]%nat));
    [lia | reflexivity | reflexivity].
Defined.

Lemma handoff_window_exceeds_ceiling_witness :
  exists s',
    run 1 [ReleaseCall 1; PageClosed 1; AcquireCall 3; BrowserReady 2 true]%nat
        {| activePages := 1; pageQueue := [2%nat]; isShuttingDown := false;
           tasks := [Holding 1%nat];
           log := [Taken 1; Resolved 1; Queued 2]%nat |} = Some s' /\
    activePages s' = 1 + 1.
Proof.
  apply (BrowserProofs.handoff_window_exceeds_ceiling 1
           {| activePages := 1; pageQueue := [2%nat]; isShuttingDown := false;
              tasks := [Holding 1%nat];
              log := [Taken 1; Resolved 1; Queued 2]%nat |} 1%nat 3%nat 2%nat []).
  - reflexivity.
  - reflexivity.
  - reflexivity.
  - left. reflexivity.
Defined.

End PoolProofs.

Module ParserProofs.
Import Sitemap.

Lemma span_until_prefix stop s a b :
  JS.span_until stop s = (a, b) -> ~ In stop (list_ascii_of_string a).
Proof.
  revert a b. induction s as [|c s IH]; intros a b; simpl.
  - intros [= <- <-]. simpl. tauto.
  - destruct (Ascii.eqb_spec c stop) as [->|Hne].
    + intros [= <- <-]. simpl. tauto.
    + destruct (JS.span_until stop s) as [a' b'] eqn:Hs. intros [= <- <-].
      simpl. intros [H|H]; [congruence | now apply (IH a' b')].
Qed.

(** The capture of [<T[^>]*>([^<]+)</T>] is not empty and holds no [<]. *)
Lemma text_element_at_capture o c s txt after :
  JS.text_element_at o c s = Some (txt, after) ->
  txt <> "" /\ ~ In "<"%char (list_ascii_of_string txt).
Proof.
  unfold JS.text_element_at. destruct (JS.open_tag o s) as [body|]; [|discriminate].
  destruct (JS.span_until "<" body) as [t rest] eqn:Hspan.
  destruct t as [|x t]; [discriminate|].
  destruct (JS.strip_prefix JS.eqb_ci c rest); [|discriminate].
  intros [= <- <-]. split; [discriminate|].
  now apply span_until_prefix in Hspan.
Qed.

Lemma exec_Some {A} (match_at : string -> option A) s r :
  JS.exec match_at s = Some r -> exists s', match_at s' = Some r.
Proof.
  induction s as [|c s IH]; simpl.
  - destruct (match_at "") eqn:H; [|discriminate]. intros [= <-]. eauto.
  - destruct (match_at (String c s)) eqn:H; [intros [= <-]; eauto | exact IH].
Qed.

Lemma exec_all_In {A} (match_at : string -> option (A * string)) s : forall skip r,
  In r (JS.exec_all match_at skip s) -> exists s' rest, match_at s' = Some (r, rest).
Proof.
  induction s as [|c s IH]; intros skip r.
  - destruct skip; simpl; [|tauto].
    destruct (match_at "") as [[r' rest]|] eqn:H; simpl; [|tauto].
    intros [<-|[]]. eauto.
  - destruct skip as [|k]; simpl; [|apply IH].
    destruct (match_at (String c s)) as [[r' rest]|] eqn:H; [|apply IH].
    intros [<-|Hin]; [eauto | now apply IH in Hin].
Qed.

Lemma trim_start_In c s :
  In c (list_ascii_of_string (JS.trim_start s)) -> In c (list_ascii_of_string s).
Proof.
  induction s as [|x s IH]; simpl; [tauto|].
  destruct (JS.is_space x); simpl; tauto.
Qed.

Lemma trim_end_In c s :
  In c (list_ascii_of_string (JS.trim_end s)) -> In c (list_ascii_of_string s).
Proof.
  induction s as [|x s IH]; simpl; [tauto|].
  destruct (JS.trim_end s) as [|y t].
  - destruct (JS.is_space x); simpl; tauto.
  - simpl in *. tauto.
Qed.

Lemma trim_In c s :
  In c (list_ascii_of_string (JS.trim s)) -> In c (list_ascii_of_string s).
Proof. unfold JS.trim. intros H. now apply trim_start_In, trim_end_In. Qed.

Lemma trim_end_idem s : JS.trim_end (JS.trim_end s) = JS.trim_end s.
Proof.
  induction s as [|x s IH]; simpl; [reflexivity|].
  destruct (JS.trim_end s) as [|y t] eqn:Ht.
  - destruct (JS.is_space x) eqn:Hx; simpl; [reflexivity | now rewrite Hx].
  - cbn [JS.trim_end] in IH |- *. fold JS.trim_end in *.
    change (JS.trim_end (String x (String y t))) with
      (match JS.trim_end (String y t) with
       | EmptyString => if JS.is_space x then EmptyString else String x EmptyString
       | t' => String x t'
       end).
    now rewrite IH.
Qed.

(** A string that does not start with white space keeps its first
    character under [trim_end], so [trim_start] leaves the result alone. *)
Lemma trim_start_trim_end s :
  JS.trim_start s = s -> JS.trim_start (JS.trim_end s) = JS.trim_end s.
Proof.
  destruct s as [|x s]; [reflexivity|].
  simpl. destruct (JS.is_space x) eqn:Hx.
  - intros H. exfalso.
    assert (Hlen : (String.length (JS.trim_start s) <= String.length s)%nat).
    { clear. induction s as [|y s IH]; simpl; [lia|].
      destruct (JS.is_space y); simpl; lia. }
    rewrite H in Hlen. simpl in Hlen. lia.
  - intros _. destruct (JS.trim_end s); simpl; now rewrite Hx.
Qed.

Lemma trim_start_idem s : JS.trim_start (JS.trim_start s) = JS.trim_start s.
Proof.
  induction s as [|x s IH]; simpl; [reflexivity|].
  destruct (JS.is_space x) eqn:Hx; [exact IH | simpl; now rewrite Hx].
Qed.

Lemma trim_idem s : JS.trim (JS.trim s) = JS.trim s.
Proof.
  unfold JS.trim.
  rewrite (trim_start_trim_end (JS.trim_start s) (trim_start_idem s)).
  apply trim_end_idem.
Qed.

Lemma element_text_capture o c urlBlock txt :
  element_text o c urlBlock = Some txt ->
  txt <> "" /\ ~ In "<"%char (list_ascii_of_string txt).
Proof.
  unfold element_text.
  destruct (JS.exec (JS.text_element_at o c) urlBlock) as [[t after]|] eqn:H;
    [|discriminate].
  intros [= <-]. apply exec_Some in H. destruct H as [s' H].
  now apply text_element_at_capture in H.
Qed.

Lemma sitemapRegex_at_capture s captured rest :
  sitemapRegex_at s = Some (captured, rest) ->
  ~ In "<"%char (list_ascii_of_string captured).
Proof.
  unfold sitemapRegex_at. destruct (JS.open_tag "<sitemap" s) as [body|]; [|discriminate].
  intros H. apply exec_Some in H. destruct H as [p H].
  destruct (JS.text_element_at "<loc" "</loc>" p) as [[t after]|] eqn:Ht; [|discriminate].
  destruct (JS.find JS.eqb_ci "</sitemap>" after) as [[? r]|]; [|discriminate].
  injection H as <- <-. now apply text_element_at_capture in Ht.
Qed.

(** X10. What the two parsers can return, whatever the document: every
    entry of [parseSitemapUrls] has a [loc] that is not empty, has no
    white space around it and holds no [<], and a [lastmod], when it has
    one, of the same kind; every URL of [parseSitemapIndex] likewise. *)
Theorem parsed_locations_are_clean (xml : string) :
  (forall e, In e (parseSitemapUrls xml) ->
     loc e <> "" /\ JS.trim (loc e) = loc e /\
     ~ In "<"%char (list_ascii_of_string (loc e)) /\
     (forall d, lastmod e = Some d ->
        JS.trim d = d /\ ~ In "<"%char (list_ascii_of_string d))) /\
  (forall u, In u (parseSitemapIndex xml) ->
     u <> "" /\ JS.trim u = u /\ ~ In "<"%char (list_ascii_of_string u)).
Proof.
  split.
  - intros e He. unfold parseSitemapUrls in He.
    apply list_elem_of_In, list_elem_of_omap in He.
    destruct He as (block & _ & Hblock).
    unfold parseUrlBlock in Hblock.
    destruct (element_text "<loc" "</loc>" block) as [captured|] eqn:Hloc;
      [|discriminate].
    destruct (String.eqb_spec (JS.trim captured) "") as [|Hne]; [discriminate|].
    injection Hblock as <-. cbn [loc lastmod].
    apply element_text_capture in Hloc. destruct Hloc as [_ Hclean].
    split; [exact Hne|]. split; [apply trim_idem|].
    split; [intros H; apply Hclean; now apply trim_In|].
    intros d Hd.
    destruct (element_text "<lastmod" "</lastmod>" block) as [m|] eqn:Hmod;
      [|discriminate].
    injection Hd as <-. apply element_text_capture in Hmod.
    split; [apply trim_idem|]. intros H. apply (proj2 Hmod). now apply trim_In.
  - intros u Hu. unfold parseSitemapIndex in Hu.
    apply List.filter_In in Hu. destruct Hu as [Hu Hne].
    apply in_map_iff in Hu. destruct Hu as (captured & <- & Hin).
    apply exec_all_In in Hin. destruct Hin as (s' & rest & Hm).
    apply sitemapRegex_at_capture in Hm.
    split; [|split; [apply trim_idem|]].
    + intros Heq. rewrite Heq in Hne. discriminate.
    + intros H. apply Hm. now apply trim_In.
Qed.

End ParserProofs.

Module ReadBackProofs.
Import Sitemap Sample.

Lemma append_cons x (a b : string) : String x a +:+ b = String x (a +:+ b).
Proof. reflexivity. Qed.

Lemma append_nil (b : string) : "" +:+ b = b.
Proof. reflexivity. Qed.

Lemma append_assoc (a b c : string) : (a +:+ b) +:+ c = a +:+ (b +:+ c).
Proof.
  induction a as [|x a IH]; [reflexivity|]. rewrite !append_cons. now f_equal.
Qed.

Lemma append_length (a b : string) :
  String.length (a +:+ b) = (String.length a + String.length b)%nat.
Proof.
  induction a as [|x a IH]; [reflexivity|].
  rewrite append_cons. cbn [String.length Nat.add]. now f_equal.
Qed.

Lemma eqb_ci_lt c : JS.eqb_ci "<" c = true -> c = "<"%char.
Proof.
  destruct c as [[] [] [] [] [] [] [] []]; vm_compute; intros H;
    first [reflexivity | discriminate H].
Qed.

Lemma eqb_ci_clean c u :
  ~ In "<"%char (list_ascii_of_string u) -> In c (list_ascii_of_string u) ->
  JS.eqb_ci "<" c = false.
Proof.
  intros Hclean Hin. destruct (JS.eqb_ci "<" c) eqn:H; [|reflexivity].
  apply eqb_ci_lt in H. subst c. contradiction.
Qed.

Lemma clean_cons x u :
  ~ In "<"%char (list_ascii_of_string (String x u)) ->
  JS.eqb_ci "<" x = false /\ ~ In "<"%char (list_ascii_of_string u).
Proof.
  intros H. split.
  - apply (eqb_ci_clean x (String x u) H). now left.
  - intros Hin. apply H. now right.
Qed.

Lemma find_skip p u t :
  ~ In "<"%char (list_ascii_of_string u) ->
  JS.find JS.eqb_ci (String "<" p) (u +:+ t) =
  match JS.find JS.eqb_ci (String "<" p) t with
  | Some (b, r) => Some (u +:+ b, r)
  | None => None
  end.
Proof.
  induction u as [|x u IH]; intros Hclean.
  - rewrite append_nil. destruct (JS.find _ _ t) as [[b r]|]; [|reflexivity].
    now rewrite append_nil.
  - apply clean_cons in Hclean. destruct Hclean as [Hx Hu].
    change (String x u +:+ t) with (String x (u +:+ t)).
    change (JS.find JS.eqb_ci (String "<" p) (String x (u +:+ t))) with
      (match JS.strip_prefix JS.eqb_ci (String "<" p) (String x (u +:+ t)) with
       | Some rest => Some (EmptyString, rest)
       | None =>
           match JS.find JS.eqb_ci (String "<" p) (u +:+ t) with
           | Some (before, rest) => Some (String x before, rest)
           | None => None
           end
       end).
    cbn [JS.strip_prefix]. rewrite Hx, (IH Hu).
    destruct (JS.find _ _ t) as [[b r]|]; [|reflexivity].
    now rewrite append_cons.
Qed.

Lemma exec_skip {A} (f : string -> option A) u t :
  (forall c s, In c (list_ascii_of_string u) -> f (String c s) = None) ->
  JS.exec f (u +:+ t) = JS.exec f t.
Proof.
  induction u as [|x u IH]; intros Hf; [reflexivity|].
  change (String x u +:+ t) with (String x (u +:+ t)).
  cbn [JS.exec]. rewrite (Hf x (u +:+ t)) by now left.
  apply IH. intros c s Hc. apply Hf. now right.
Qed.

Lemma text_element_at_clean o c x s :
  JS.eqb_ci "<" x = false -> JS.text_element_at (String "<" o) c (String x s) = None.
Proof.
  intros Hx. unfold JS.text_element_at, JS.open_tag.
  cbn [JS.strip_prefix]. now rewrite Hx.
Qed.

Lemma urlRegex_at_clean x s :
  JS.eqb_ci "<" x = false -> urlRegex_at (String x s) = None.
Proof.
  intros Hx. unfold urlRegex_at, JS.open_tag.
  cbn [JS.strip_prefix]. now rewrite Hx.
Qed.

Lemma span_until_app stop a rest :
  ~ In stop (list_ascii_of_string a) ->
  JS.span_until stop (a +:+ String stop rest) = (a, String stop rest).
Proof.
  induction a as [|x a IH]; intros Hclean.
  - rewrite append_nil. simpl. now rewrite Ascii.eqb_refl.
  - rewrite append_cons. cbn [JS.span_until].
    destruct (Ascii.eqb_spec x stop) as [->|_]; [exfalso; apply Hclean; now left|].
    rewrite IH; [reflexivity|]. intros H. apply Hclean. now right.
Qed.

Lemma exec_all_at {A} (f : string -> option (A * string)) c s :
  JS.exec_all f 0 (String c s) =
  match f (String c s) with
  | Some (r, rest) =>
      r :: JS.exec_all f (Nat.pred (String.length (String c s) - String.length rest)) s
  | None => JS.exec_all f 0 s
  end.
Proof. reflexivity. Qed.

Lemma exec_all_skip {A} (f : string -> option (A * string)) a b :
  JS.exec_all f (String.length a) (a +:+ b) = JS.exec_all f 0 b.
Proof. induction a as [|x a IH]; [reflexivity | exact IH]. Qed.

Lemma exec_all_match {A} (f : string -> option (A * string)) m rest r :
  m <> "" -> f (m +:+ rest) = Some (r, rest) ->
  JS.exec_all f 0 (m +:+ rest) = r :: JS.exec_all f 0 rest.
Proof.
  destruct m as [|c m]; [congruence|]. intros _ Hf.
  change (String c m +:+ rest) with (String c (m +:+ rest)) in *.
  rewrite exec_all_at, Hf. f_equal.
  replace (Nat.pred (String.length (String c (m +:+ rest)) - String.length rest))
    with (String.length m)
    by (cbn [String.length]; rewrite append_length; lia).
  apply exec_all_skip.
Qed.

Lemma exec_all_clean {A} (f : string -> option (A * string)) u t :
  (forall c s, In c (list_ascii_of_string u) -> f (String c s) = None) ->
  JS.exec_all f 0 (u +:+ t) = JS.exec_all f 0 t.
Proof.
  induction u as [|x u IH]; intros Hf; [reflexivity|].
  change (String x u +:+ t) with (String x (u +:+ t)).
  rewrite exec_all_at, (Hf x (u +:+ t)) by now left.
  apply IH. intros c s Hc. apply Hf. now right.
Qed.

(** The block of one element, as the outer pattern captures it: with or
    without the [<url>] tag that a match starting at [<urlset] leaves
    in it. *)
Lemma element_text_loc pre u :
  pre = "" \/ pre = "<url>" ->
  u <> "" -> ~ In "<"%char (list_ascii_of_string u) ->
  element_text "<loc" "</loc>" (pre +:+ "<loc>" +:+ u +:+ "</loc>") = Some u.
Proof.
  intros Hpre Hne Hclean. unfold element_text.
  assert (Hat : JS.text_element_at "<loc" "</loc>" ("<loc>" +:+ u +:+ "</loc>")
                = Some (u, "")).
  { unfold JS.text_element_at, JS.open_tag. rewrite !append_cons, append_nil.
    cbn [JS.strip_prefix].
    change (JS.eqb_ci "<" "<") with true. change (JS.eqb_ci "l" "l") with true.
    change (JS.eqb_ci "o" "o") with true. change (JS.eqb_ci "c" "c") with true.
    cbn [JS.span_until]. change (Ascii.eqb ">" ">") with true. cbv iota.
    change (u +:+ "</loc>") with (u +:+ String "<" "/loc>").
    rewrite (span_until_app "<" u "/loc>" Hclean).
    destruct u as [|x u]; [congruence|]. reflexivity. }
  destruct Hpre as [-> | ->].
  - change ("" +:+ "<loc>" +:+ u +:+ "</loc>") with ("<loc>" +:+ u +:+ "</loc>").
    change ("<loc>" +:+ u +:+ "</loc>") with (String "<" ("loc>" +:+ u +:+ "</loc>")) in *.
    cbn [JS.exec]. now rewrite Hat.
  - change ("<url>" +:+ "<loc>" +:+ u +:+ "</loc>")
      with (String "<" (String "u" (String "r" (String "l" (String ">"
              ("<loc>" +:+ u +:+ "</loc>")))))).
    cbn [JS.exec].
    replace (JS.text_element_at "<loc" "</loc>"
               (String "<" (String "u" (String "r" (String "l" (String ">"
                  ("<loc>" +:+ u +:+ "</loc>")))))))
      with (@None (string * string)) by reflexivity.
    rewrite !text_element_at_clean by reflexivity.
    change ("<loc>" +:+ u +:+ "</loc>") with (String "<" ("loc>" +:+ u +:+ "</loc>")) in *.
    cbn [JS.exec]. now rewrite Hat.
Qed.

Lemma exec_cons_None {A} (f : string -> option A) c s :
  f (String c s) = None -> JS.exec f (String c s) = JS.exec f s.
Proof. intros H. cbn [JS.exec]. now rewrite H. Qed.

Lemma element_text_absent o c pre u :
  (o = "<lastmod" /\ c = "</lastmod>") \/ (o = "<priority" /\ c = "</priority>") ->
  pre = "" \/ pre = "<url>" ->
  ~ In "<"%char (list_ascii_of_string u) ->
  element_text o c (pre +:+ "<loc>" +:+ u +:+ "</loc>") = None.
Proof.
  intros Ho Hpre Hclean. unfold element_text.
  assert (Hu : JS.exec (JS.text_element_at o c) (u +:+ "</loc>") = None).
  { rewrite exec_skip.
    - destruct Ho as [[-> ->]|[-> ->]]; reflexivity.
    - intros x s Hx. destruct Ho as [[-> ->]|[-> ->]];
        apply text_element_at_clean; now apply (eqb_ci_clean x u). }
  destruct Hpre as [-> | ->]; rewrite !append_cons, ?append_nil;
    destruct Ho as [[-> ->]|[-> ->]];
    repeat (rewrite exec_cons_None by reflexivity);
    now rewrite Hu.
Qed.

Lemma parseUrlBlock_loc pre u :
  pre = "" \/ pre = "<url>" ->
  ~ In "<"%char (list_ascii_of_string u) -> JS.trim u <> "" ->
  parseUrlBlock (pre +:+ "<loc>" +:+ u +:+ "</loc>") =
    Some {| loc := JS.trim u; lastmod := None; priority := None |}.
Proof.
  intros Hpre Hclean Htrim. unfold parseUrlBlock.
  assert (Hne : u <> "") by (intros ->; now apply Htrim).
  rewrite (element_text_loc pre u Hpre Hne Hclean).
  destruct (String.eqb_spec (JS.trim u) ""); [contradiction|].
  rewrite !element_text_absent; auto.
Qed.

Lemma find_after_tag (tag : string) u t b r :
  tag = "<loc>" \/ tag = "<url><loc>" ->
  JS.find JS.eqb_ci "</url>" (u +:+ t) = Some (b, r) ->
  JS.find JS.eqb_ci "</url>" (tag +:+ u +:+ t) = Some (tag +:+ b, r).
Proof.
  intros [-> | ->] H; rewrite !append_cons, append_nil;
    cbn [JS.find JS.strip_prefix];
    change (JS.eqb_ci "<" "<") with true; change (JS.eqb_ci "/" "l") with false;
    change (JS.eqb_ci "/" "u") with false;
    change (JS.eqb_ci "<" "l") with false; change (JS.eqb_ci "<" "o") with false;
    change (JS.eqb_ci "<" "c") with false; change (JS.eqb_ci "<" ">") with false;
    change (JS.eqb_ci "<" "u") with false; change (JS.eqb_ci "<" "r") with false;
    cbv iota; now rewrite H.
Qed.

Lemma find_close_url (tag : string) u rest :
  tag = "<loc>" \/ tag = "<url><loc>" ->
  ~ In "<"%char (list_ascii_of_string u) ->
  JS.find JS.eqb_ci "</url>" (tag +:+ u +:+ "</loc></url>" +:+ rest) =
    Some (tag +:+ u +:+ "</loc>", rest).
Proof.
  intros Htag Hclean. apply find_after_tag; [exact Htag|].
  rewrite (find_skip "/url>" u _ Hclean).
  replace (JS.find JS.eqb_ci "</url>" ("</loc></url>" +:+ rest))
    with (Some ("</loc>", rest)) by reflexivity.
  reflexivity.
Qed.

(** One element, and the first element of a document: there the match
    starts at [<urlset], whose first four characters are [<url]. *)
Lemma urlRegex_at_element u rest :
  ~ In "<"%char (list_ascii_of_string u) ->
  urlRegex_at ("<url><loc>" +:+ u +:+ "</loc></url>" +:+ rest) =
    Some ("<loc>" +:+ u +:+ "</loc>", rest).
Proof.
  intros Hclean. unfold urlRegex_at.
  replace (JS.open_tag "<url" ("<url><loc>" +:+ u +:+ "</loc></url>" +:+ rest))
    with (Some ("<loc>" +:+ u +:+ "</loc></url>" +:+ rest)) by reflexivity.
  apply (find_close_url "<loc>"); auto.
Qed.

Lemma urlRegex_at_urlset attrs u rest :
  ~ In ">"%char (list_ascii_of_string attrs) ->
  ~ In "<"%char (list_ascii_of_string u) ->
  urlRegex_at ("<urlset" +:+ attrs +:+ ">" +:+ "<url><loc>" +:+ u +:+
               "</loc></url>" +:+ rest) =
    Some ("<url><loc>" +:+ u +:+ "</loc>", rest).
Proof.
  intros Hattrs Hclean. unfold urlRegex_at, JS.open_tag.
  rewrite !append_cons, append_nil. cbn [JS.strip_prefix].
  change (JS.eqb_ci "<" "<") with true. change (JS.eqb_ci "u" "u") with true.
  change (JS.eqb_ci "r" "r") with true. change (JS.eqb_ci "l" "l") with true.
  cbv iota. cbn [JS.span_until].
  change (Ascii.eqb "s" ">") with false. change (Ascii.eqb "e" ">") with false.
  change (Ascii.eqb "t" ">") with false. cbv iota.
  rewrite (span_until_app ">" attrs _ Hattrs).
  apply (find_close_url "<url><loc>" u rest); auto.
Qed.

Lemma exec_all_elements locs tail :
  Forall (fun u => ~ In "<"%char (list_ascii_of_string u)) locs ->
  JS.exec_all urlRegex_at 0 (url_elements locs tail) =
  List.map (fun u => "<loc>" +:+ u +:+ "</loc>") locs ++
  JS.exec_all urlRegex_at 0 tail.
Proof.
  induction 1 as [|u locs Hu _ IH]; [reflexivity|].
  cbn [url_elements List.map app]. rewrite <- IH.
  replace ("<url><loc>" +:+ u +:+ "</loc></url>" +:+ url_elements locs tail)
    with (("<url><loc>" +:+ u +:+ "</loc></url>") +:+ url_elements locs tail)
    by now rewrite !append_assoc.
  apply exec_all_match; [discriminate|].
  rewrite !append_assoc. now apply urlRegex_at_element.
Qed.

Lemma omap_blocks locs :
  Forall (fun u => ~ In "<"%char (list_ascii_of_string u) /\ JS.trim u <> "") locs ->
  omap parseUrlBlock (List.map (fun u => "<loc>" +:+ u +:+ "</loc>") locs) =
  List.map (fun u => {| loc := JS.trim u; lastmod := None; priority := None |}) locs.
Proof.
  induction 1 as [|u locs [Hclean Htrim] _ IH]; [reflexivity|].
  cbn [List.map omap list_omap].
  pose proof (parseUrlBlock_loc "" u (or_introl eq_refl) Hclean Htrim) as Hb.
  change ("" +:+ "<loc>" +:+ u +:+ "</loc>") with ("<loc>" +:+ u +:+ "</loc>") in Hb.
  rewrite Hb, IH. reflexivity.
Qed.

(** X23. Reading back a generated sitemap: from a [<urlset>] document
    with one [<url><loc>...</loc></url>] element per location,
    [parseSitemapUrls] returns the locations, trimmed, in order and with
    no other field, whatever the attributes of [<urlset>] (free of [<]
    and [>]) and the locations (free of [<], not blank), although its
    first match starts at [<urlset] and takes the first element with
    it. *)
Theorem parseSitemapUrls_reads_back (attrs : string) (locs : list string) :
  ~ In "<"%char (list_ascii_of_string attrs) ->
  ~ In ">"%char (list_ascii_of_string attrs) ->
  Forall (fun u => ~ In "<"%char (list_ascii_of_string u) /\ JS.trim u <> "") locs ->
  parseSitemapUrls (urlset attrs locs) =
    List.map (fun u => {| loc := JS.trim u; lastmod := None; priority := None |}) locs.
Proof.
  intros Hlt Hgt Hlocs. unfold parseSitemapUrls, urlset.
  assert (Hend : JS.exec_all urlRegex_at 0 "</urlset>" = []) by reflexivity.
  destruct Hlocs as [|u locs [Hclean Htrim] Hrest].
  - cbn [url_elements List.map].
    assert (Hnone : JS.exec_all urlRegex_at 0 ("<urlset" +:+ attrs +:+ ">" +:+ "</urlset>")
                    = []); [|now rewrite Hnone].
    rewrite !append_cons, append_nil. rewrite exec_all_at.
    replace (urlRegex_at _) with (@None (string * string)).
    + rewrite !exec_all_at, !urlRegex_at_clean by reflexivity.
      rewrite exec_all_clean.
      * rewrite exec_all_at, urlRegex_at_clean by reflexivity. exact Hend.
      * intros c s Hc. apply urlRegex_at_clean.
        destruct (JS.eqb_ci "<" c) eqn:H; [|reflexivity].
        apply eqb_ci_lt in H. subst c. contradiction.
    + symmetry. unfold urlRegex_at, JS.open_tag. cbn [JS.strip_prefix].
      change (JS.eqb_ci "<" "<") with true. change (JS.eqb_ci "u" "u") with true.
      change (JS.eqb_ci "r" "r") with true. change (JS.eqb_ci "l" "l") with true.
      cbv iota. cbn [JS.span_until].
      change (Ascii.eqb "s" ">") with false. change (Ascii.eqb "e" ">") with false.
      change (Ascii.eqb "t" ">") with false. cbv iota.
      rewrite (span_until_app ">" attrs _ Hgt). reflexivity.
  - cbn [url_elements List.map].
    replace ("<urlset" +:+ attrs +:+ ">" +:+ "<url><loc>" +:+ u +:+ "</loc></url>" +:+
             url_elements locs "</urlset>")
      with (("<urlset" +:+ attrs +:+ ">" +:+ "<url><loc>" +:+ u +:+ "</loc></url>") +:+
            url_elements locs "</urlset>")
      by now rewrite !append_assoc.
    rewrite (exec_all_match urlRegex_at _ _ ("<url><loc>" +:+ u +:+ "</loc>")).
    + rewrite exec_all_elements, Hend, app_nil_r.
      * cbn [omap list_omap].
        pose proof (parseUrlBlock_loc "<url>" u (or_intror eq_refl) Hclean Htrim)
          as Hb.
        change ("<url>" +:+ "<loc>" +:+ u +:+ "</loc>")
          with ("<url><loc>" +:+ u +:+ "</loc>") in Hb.
        rewrite Hb. now rewrite omap_blocks.
      * eapply List.Forall_impl; [|exact Hrest]. simpl. tauto.
    + discriminate.
    + rewrite !append_assoc. now apply urlRegex_at_urlset.
Qed.

Lemma parseSitemapUrls_reads_back_witness :
  parseSitemapUrls
    (urlset " xmlns='http://www.sitemaps.org/schemas/sitemap/0.9'"
       ["https://a.example/"; " https://a.example/pricing "]) =
    [ {| loc := "https://a.example/"; lastmod := None; priority := None |};
      {| loc := "https://a.example/pricing"; lastmod := None; priority := None |} ].
Proof.
  apply (parseSitemapUrls_reads_back
           " xmlns='http://www.sitemaps.org/schemas/sitemap/0.9'"
           ["https://a.example/"; " https://a.example/pricing "]).
  - vm_compute. intuition discriminate.
  - vm_compute. intuition discriminate.
  - repeat constructor; vm_compute; intuition discriminate.
Defined.

End ReadBackProofs.

Module OrderProofs.
Import Sitemap SiteCapture SitemapProofs SortProofs.

Section Order.
Variable URL_pathname : string -> option string.
Variable localeCompare : string -> string -> Z.
Hypothesis Hantisym :
  forall x y, 0 < localeCompare x y -> localeCompare y x < 0.

Lemma comparePaths_flip x y c :
  comparePaths URL_pathname localeCompare x y = Some c -> 0 <= c ->
  exists c', comparePaths URL_pathname localeCompare y x = Some c' /\ c' <= 0.
Proof.
  unfold comparePaths.
  destruct (URL_pathname (loc x)) as [px|]; [|discriminate].
  destruct (URL_pathname (loc y)) as [py|]; [|discriminate].
  intros [= <-] Hc. eexists. split; [reflexivity|].
  destruct (Z.leb_spec (localeCompare py px) 0) as [|Hpos]; [assumption|].
  apply Hantisym in Hpos. lia.
Qed.

Lemma insertSorted_Sorted x sorted sorted' :
  Sorted (fun a b => exists c,
            comparePaths URL_pathname localeCompare a b = Some c /\ c <= 0) sorted ->
  insertSorted URL_pathname localeCompare x sorted = Some sorted' ->
  Sorted (fun a b => exists c,
            comparePaths URL_pathname localeCompare a b = Some c /\ c <= 0) sorted' /\
  (forall y, HdRel (fun a b => exists c,
               comparePaths URL_pathname localeCompare a b = Some c /\ c <= 0) y sorted ->
             (exists c, comparePaths URL_pathname localeCompare y x = Some c /\ c <= 0) ->
             HdRel (fun a b => exists c,
               comparePaths URL_pathname localeCompare a b = Some c /\ c <= 0) y sorted').
Proof.
  revert sorted'. induction sorted as [|y ys IH]; intros sorted' Hs; simpl.
  - intros [= <-]. split; [repeat constructor|]. intros z _ Hz. now constructor.
  - destruct (comparePaths URL_pathname localeCompare x y) as [c|] eqn:Hc;
      [|discriminate].
    destruct (Z.ltb_spec c 0) as [Hlt|Hge].
    + intros [= <-]. split.
      * constructor; [exact Hs|]. constructor. exists c. split; [exact Hc | lia].
      * intros z _ Hz. now constructor.
    + destruct (insertSorted URL_pathname localeCompare x ys) as [s|] eqn:Hins;
        [|discriminate].
      simpl. intros [= <-].
      apply Sorted_inv in Hs. destruct Hs as [Hys Hhd].
      destruct (IH s Hys eq_refl) as [Hsorted Hrel].
      split.
      * constructor; [exact Hsorted|]. apply Hrel; [exact Hhd|].
        now apply comparePaths_flip with c.
      * intros z Hz _. apply HdRel_inv in Hz. now constructor.
Qed.

Lemma sortUrlsByPath_Sorted l sorted :
  sortUrlsByPath URL_pathname localeCompare l = Some sorted ->
  Sorted (fun a b => exists c,
            comparePaths URL_pathname localeCompare a b = Some c /\ c <= 0) sorted.
Proof.
  revert sorted. induction l as [|x l IH] using rev_ind; intros sorted.
  - intros [= <-]. constructor.
  - rewrite sortUrlsByPath_snoc.
    destruct (sortUrlsByPath URL_pathname localeCompare l) as [s|]; [|discriminate].
    intros H. now apply (insertSorted_Sorted x s sorted (IH s eq_refl)).
Qed.
End Order.

(** X12. When [sortUrlsByPath] returns, with a collation that is
    antisymmetric in sign: the result is a rearrangement of the entries,
    and of any two neighbours in it the paths of both parse and the
    first path does not collate after the second. *)
Theorem sortUrlsByPath_sorts
    (URL_pathname : string -> option string)
    (localeCompare : string -> string -> Z)
    (entries sorted : list SitemapUrl) :
  (forall x y, 0 < localeCompare x y -> localeCompare y x < 0) ->
  sortUrlsByPath URL_pathname localeCompare entries = Some sorted ->
  Permutation sorted entries /\
  Sorted (fun a b => exists pathA pathB,
            URL_pathname (loc a) = Some pathA /\
            URL_pathname (loc b) = Some pathB /\
            localeCompare pathA pathB <= 0) sorted.
Proof.
  intros Hanti Hsort. split; [now apply sortUrlsByPath_Permutation in Hsort|].
  apply (sortUrlsByPath_Sorted _ _ Hanti) in Hsort.
  eapply Sorted_ind with (P := fun l => Sorted _ l); [constructor | | exact Hsort].
  intros a l _ IH Hhd. constructor; [exact IH|].
  destruct Hhd as [|b l' (c & Hc & Hle)]; constructor.
  unfold comparePaths in Hc.
  destruct (URL_pathname (loc a)) as [pa|]; [|discriminate].
  destruct (URL_pathname (loc b)) as [pb|]; [|discriminate].
  injection Hc as <-. eauto.
Qed.

Lemma localeCompare_antisym x : forall y,
  Sample.localeCompare y x = - Sample.localeCompare x y.
Proof.
  induction x as [|a x IH]; intros [|b y]; simpl; try reflexivity.
  rewrite (Nat.compare_antisym (nat_of_ascii a) (nat_of_ascii b)).
  destruct (nat_of_ascii a ?= nat_of_ascii b)%nat; simpl; auto.
Qed.

Lemma sortUrlsByPath_sorts_witness :
  Permutation
    [Sample.page "https://a.example/"; Sample.page "https://a.example/blog/hello";
     Sample.page "https://a.example/pricing"]
    [Sample.page "https://a.example/pricing"; Sample.page "https://a.example/";
     Sample.page "https://a.example/blog/hello"] /\
  Sorted (fun a b => exists pathA pathB,
            Sample.URL_pathname (loc a) = Some pathA /\
            Sample.URL_pathname (loc b) = Some pathB /\
            Sample.localeCompare pathA pathB <= 0)
    [Sample.page "https://a.example/"; Sample.page "https://a.example/blog/hello";
     Sample.page "https://a.example/pricing"].
Proof.
  apply (sortUrlsByPath_sorts Sample.URL_pathname Sample.localeCompare
           [Sample.page "https://a.example/pricing"; Sample.page "https://a.example/";
            Sample.page "https://a.example/blog/hello"]).
  - intros x y H. rewrite (localeCompare_antisym x y). lia.
  - vm_compute. reflexivity.
Defined.

(** X13. What a 202 reply promises, for a budget of at least one page:
    [totalPages] is at least 1 and at most [maxPages], it is the number
    of URLs handed to the background job and the total that job starts
    with, and these URLs are the collected ones rearranged, each listed
    by a sitemap reached from the root below the depth limit. *)
Theorem accepted_job_respects_budget
    (fetchUrl : string -> string + string)
    (URL_pathname : string -> option string)
    (localeCompare : string -> string -> Z)
    (sitemapUrl : string) (maxPages totalPages : Z) (sortedUrls : list SitemapUrl) :
  1 <= maxPages ->
  postSite fetchUrl URL_pathname localeCompare sitemapUrl maxPages =
    Accepted totalPages sortedUrls ->
  1 <= totalPages <= maxPages /\
  totalPages = JS.len sortedUrls /\
  Permutation sortedUrls (urls (collectAllUrls fetchUrl sitemapUrl maxPages 0)) /\
  (forall e, In e sortedUrls -> Yields fetchUrl 0 sitemapUrl e) /\
  total_pages (row (processSiteCapture SITE_CAPTURE_CONCURRENCY sortedUrls)) = totalPages.
Proof.
  intros Hmax. unfold postSite.
  destruct (Z.eqb_spec (JS.len (urls (collectAllUrls fetchUrl sitemapUrl maxPages 0))) 0)
    as [|Hne]; [discriminate|].
  destruct (sortUrlsByPath _ _ _) as [sorted|] eqn:Hsort; [|discriminate].
  intros [= <- <-].
  pose proof (sortUrlsByPath_Permutation _ _ _ _ Hsort) as Hperm.
  pose proof (collectIter_le fetchUrl (S MAX_SITEMAP_DEPTH) sitemapUrl maxPages 0
                ltac:(lia)) as Hle.
  fold (collectAllUrls fetchUrl) in Hle.
  assert (Hlen : JS.len sorted = JS.len (urls (collectAllUrls fetchUrl sitemapUrl maxPages 0))).
  { unfold JS.len. now rewrite (Permutation_length Hperm). }
  split; [|split; [reflexivity|split; [exact Hperm|split]]].
  - rewrite Hlen. unfold JS.len in *. lia.
  - intros e He. apply (collectIter_Yields fetchUrl (S MAX_SITEMAP_DEPTH) _ maxPages).
    fold (collectAllUrls fetchUrl). apply (Permutation_in _ Hperm He).
  - unfold processSiteCapture. now destruct (spawn _ _).
Qed.

Lemma accepted_job_respects_budget_witness :
  exists totalPages sortedUrls,
    postSite Sample.fetchUrl Sample.URL_pathname Sample.localeCompare
      "https://a.example/sitemap.xml" 2 = Accepted totalPages sortedUrls /\
    1 <= totalPages <= 2.
Proof.
  eexists. eexists. split; [vm_compute; reflexivity|].
  eapply (accepted_job_respects_budget Sample.fetchUrl Sample.URL_pathname
            Sample.localeCompare "https://a.example/sitemap.xml" 2);
    [lia | vm_compute; reflexivity].
Defined.

(** X14. A sitemap index that lists itself, and nothing else, is
    fetched at depths 0, 1 and 2 and then refused: the result has no URL
    and the one error of the depth limit. *)
Theorem self_listing_index_stops_at_depth
    (fetchUrl : string -> string + string) (sitemapUrl xml : string) (maxPages : Z) :
  fetchUrl sitemapUrl = inr xml ->
  isSitemapIndex xml = true ->
  parseSitemapIndex xml = [sitemapUrl] ->
  1 <= maxPages ->
  collectAllUrls fetchUrl sitemapUrl maxPages 0 =
    {| urls := [];
       errors := ["Max sitemap depth (3) reached at " +:+ sitemapUrl] |}.
Proof.
  intros Hfetch Hidx Hself Hmax.
  assert (Hlevel : forall d budget,
            (d < MAX_SITEMAP_DEPTH)%nat -> 1 <= budget ->
            collectAllUrls fetchUrl sitemapUrl budget d =
            pushAll emptyResult (collectAllUrls fetchUrl sitemapUrl (budget - 0) (S d))).
  { intros d budget Hd Hb. rewrite (collectAllUrls_unfold fetchUrl sitemapUrl budget d).
    unfold collectBody.
    destruct (Nat.leb_spec MAX_SITEMAP_DEPTH d); [lia|].
    rewrite Hfetch, Hidx, Hself. cbn [collectNested emptyResult urls].
    change (JS.len (@nil SitemapUrl)) with 0.
    destruct (Z.geb_spec 0 budget); [lia | reflexivity]. }
  rewrite (Hlevel 0%nat), pushAll_empty_l, Z.sub_0_r by (unfold MAX_SITEMAP_DEPTH; lia).
  rewrite (Hlevel 1%nat), pushAll_empty_l, Z.sub_0_r by (unfold MAX_SITEMAP_DEPTH; lia).
  rewrite (Hlevel 2%nat), pushAll_empty_l, Z.sub_0_r by (unfold MAX_SITEMAP_DEPTH; lia).
  apply collectAllUrls_too_deep. unfold MAX_SITEMAP_DEPTH. lia.
Qed.

Lemma self_listing_index_stops_at_depth_witness :
  collectAllUrls Sample.loop_fetchUrl "https://b.example/sitemap.xml" 100 0 =
    {| urls := [];
       errors := ["Max sitemap depth (3) reached at " +:+ "https://b.example/sitemap.xml"] |}.
Proof.
  apply (self_listing_index_stops_at_depth Sample.loop_fetchUrl
           "https://b.example/sitemap.xml" Sample.loop_xml 100).
  - reflexivity.
  - vm_compute. reflexivity.
  - vm_compute. reflexivity.
  - lia.
Defined.

End OrderProofs.

Module DiscoveryProofs.
Import Discovery.

Example robots_directive :
  findSitemapFromRobots Sample.robots_fetchUrl Sample.URL_resolve "https://c.example/shop"
  = Some "https://c.example/maps/all.xml".
Proof. vm_compute. reflexivity. Qed.

Example discover_sample :
  discoverSitemapUrl Sample.robots_fetchUrl Sample.URL_resolve "https://c.example/shop"
    (Some "https://c.example/hint.xml")
  = Found "https://c.example/maps/all.xml".
Proof. vm_compute. reflexivity. Qed.

(** X11. Order of preference of [discoverSitemapUrl], for a base URL
    that the URL constructor accepts: the candidates are the provided
    URL (when there is one), [/sitemap.xml], [/sitemap_index.xml] and the
    [Sitemap] directive of robots.txt (when there is one); the answer is
    the first candidate that can be fetched, and when none can, the
    error whose message lists all of them in that order. *)
Theorem discovery_takes_first_fetchable
    (fetchUrl : string -> string + string)
    (URL_resolve : string -> string -> option string)
    (baseUrl : string) (providedUrl : option string) (sitemapXml sitemapIndex : string) :
  URL_resolve "/sitemap.xml" baseUrl = Some sitemapXml ->
  URL_resolve "/sitemap_index.xml" baseUrl = Some sitemapIndex ->
  let optional o :=
    match o with
    | Some u => if String.eqb u "" then [] else [u]
    | None => []
    end in
  let candidates :=
    optional providedUrl ++ [sitemapXml; sitemapIndex] ++
    optional (findSitemapFromRobots fetchUrl URL_resolve baseUrl) in
  discoverSitemapUrl fetchUrl URL_resolve baseUrl providedUrl =
    match List.find (fun u => match fetchUrl u with inr _ => true | inl _ => false end)
            candidates with
    | Some u => Found u
    | None =>
        NoSitemapFound ("No sitemap found. Tried: " +:+ String.concat ", " candidates)
    end.
Proof.
  intros Hxml Hindex optional candidates. subst candidates optional.
  assert (Hwell : forall tried,
            Forall (fun u => exists msg, fetchUrl u = inl msg) tried ->
            discoverWellKnown fetchUrl URL_resolve baseUrl tried =
            match List.find (fun u => match fetchUrl u with inr _ => true | inl _ => false end)
                    (tried ++ [sitemapXml; sitemapIndex] ++
                     match findSitemapFromRobots fetchUrl URL_resolve baseUrl with
                     | Some u => if String.eqb u "" then [] else [u]
                     | None => []
                     end) with
            | Some u => Found u
            | None =>
                NoSitemapFound
                  ("No sitemap found. Tried: " +:+
                   String.concat ", "
                     (tried ++ [sitemapXml; sitemapIndex] ++
                      match findSitemapFromRobots fetchUrl URL_resolve baseUrl with
                      | Some u => if String.eqb u "" then [] else [u]
                      | None => []
                      end))
            end).
  { intros tried Htried. unfold discoverWellKnown. rewrite Hxml, Hindex.
    assert (Hskip : forall rest,
              List.find (fun u => match fetchUrl u with inr _ => true | inl _ => false end)
                (tried ++ rest) =
              List.find (fun u => match fetchUrl u with inr _ => true | inl _ => false end)
                rest).
    { intros rest. induction Htried as [|u tried [msg Hu] _ IH]; simpl; [reflexivity|].
      now rewrite Hu. }
    rewrite Hskip. cbn [List.find app].
    destruct (fetchUrl sitemapXml) as [m1|]; [|reflexivity].
    destruct (fetchUrl sitemapIndex) as [m2|]; [|reflexivity].
    unfold noSitemapFound.
    destruct (findSitemapFromRobots fetchUrl URL_resolve baseUrl) as [r|];
      [|now rewrite <- !app_assoc].
    destruct (String.eqb r ""); [now rewrite <- !app_assoc|].
    cbn [List.find]. destruct (fetchUrl r); [|reflexivity].
    now rewrite <- !app_assoc. }
  unfold discoverSitemapUrl.
  destruct providedUrl as [provided|]; [|apply (Hwell []); constructor].
  destruct (String.eqb provided ""); [apply (Hwell []); constructor|].
  destruct (fetchUrl provided) as [msg|xml] eqn:Hp.
  - apply (Hwell [provided]). repeat constructor. eauto.
  - cbn [app List.find]. now rewrite Hp.
Qed.

Lemma discovery_takes_first_fetchable_witness :
  discoverSitemapUrl Sample.robots_fetchUrl Sample.URL_resolve "https://c.example/shop"
    (Some "https://c.example/hint.xml") = Found "https://c.example/maps/all.xml" /\
  discoverSitemapUrl Sample.fetchUrl Sample.URL_resolve "https://c.example/shop"
    (Some "https://c.example/hint.xml") =
  NoSitemapFound
    ("No sitemap found. Tried: https://c.example/hint.xml, " +:+
     "https://c.example/sitemap.xml, https://c.example/sitemap_index.xml").
Proof.
  split.
  - rewrite (discovery_takes_first_fetchable Sample.robots_fetchUrl Sample.URL_resolve
               "https://c.example/shop" (Some "https://c.example/hint.xml")
               "https://c.example/sitemap.xml" "https://c.example/sitemap_index.xml"
               eq_refl eq_refl).
    vm_compute. reflexivity.
  - rewrite (discovery_takes_first_fetchable Sample.fetchUrl Sample.URL_resolve
               "https://c.example/shop" (Some "https://c.example/hint.xml")
               "https://c.example/sitemap.xml" "https://c.example/sitemap_index.xml"
               eq_refl eq_refl).
    vm_compute. reflexivity.
Defined.

End DiscoveryProofs.

Module JobProofs.
Import Sitemap SiteCapture SiteCaptureProofs.

(** X15. Progress never shows more than the total: at every point of
    every schedule, refused updates, updates that overtake one another
    and the error path included, the persisted counters are not negative
    and add up to at most [total_pages], which stays the number of URLs
    of the job. *)
Theorem progress_never_exceeds_total
    (concurrency : nat) (all : list SitemapUrl) (ls : list label) (s : state) :
  run ls (processSiteCapture concurrency all) = Some s ->
  0 <= captured_pages (row s) /\ 0 <= failed_pages (row s) /\
  captured_pages (row s) + failed_pages (row s) <= total_pages (row s) /\
  total_pages (row s) = JS.len all.
Proof.
  intros Hrun.
  pose proof (invariant_run _ _ _ _ _ (invariant_start concurrency all) Hrun)
    as [Honce Hcap Hfail _ _ Htotal _ [Hc Hf] _ _].
  pose proof (len_partition snd (processed s)) as Hpart.
  assert (Hlen : JS.len (processed s) <= JS.len all).
  { unfold JS.len. rewrite <- (Permutation_length Honce), !length_app, length_map. lia. }
  rewrite Htotal. repeat split; lia.
Qed.

Lemma progress_never_exceeds_total_witness :
  exists s,
    run Sample.refused_schedule
        (processSiteCapture 2 [Sample.page "https://a.example/"]) = Some s /\
    captured_pages (row s) + failed_pages (row s) <= total_pages (row s) /\
    total_pages (row s) = 1.
Proof.
  assert (Hrun : run Sample.refused_schedule
                   (processSiteCapture 2 [Sample.page "https://a.example/"])
                 = Some Sample.refused_final) by (vm_compute; reflexivity).
  exists Sample.refused_final. split; [exact Hrun|].
  pose proof (progress_never_exceeds_total 2 [Sample.page "https://a.example/"]
                Sample.refused_schedule Sample.refused_final Hrun)
    as (_ & _ & Hsum & Htotal).
  split; [exact Hsum | exact Htotal].
Defined.

(** *** Every schedule is finite *)

Lemma spawn_work n : forall queue ws queue',
  spawn n queue = (ws, queue') ->
  list_sum (List.map work_of ws) = (2 * length (inflight ws))%nat.
Proof.
  induction n as [|n IH]; intros queue ws queue'; simpl.
  - now intros [= <- <-].
  - destruct queue as [|entry rest]; simpl.
    + destruct (spawn n []) as [ws0 q0] eqn:Hsp. intros [= <- <-].
      simpl. now apply IH in Hsp.
    + destruct (spawn n rest) as [ws0 q0] eqn:Hsp. intros [= <- <-].
      simpl. apply IH in Hsp. lia.
Qed.

Lemma step_measure l s s' :
  step l s = Some s' ->
  (pending_work s + unsettled s = S (pending_work s' + unsettled s'))%nat.
Proof.
  unfold pending_work, unsettled.
  destruct l as [w success | w stored | stored handlerStored]; simpl.
  - destruct (workers s !! w) as [[entry|? ?| |]|] eqn:Hw; try discriminate.
    intros [= <-]. destruct (insert_middle _ _ _ Hw) as (l1 & l2 & Hws & Hins).
    simpl. rewrite Hins, Hws, !work_middle. simpl. lia.
  - destruct (workers s !! w) as [[?|c f| |]|] eqn:Hw; try discriminate.
    destruct (insert_middle _ _ _ Hw) as (l1 & l2 & Hws & Hins).
    destruct stored; [destruct (queue s) as [|entry rest]|];
      simpl; intros [= <-]; simpl; rewrite Hins, Hws, !work_middle; simpl; lia.
  - destruct (settled s); try discriminate.
    destruct (existsb is_threw (workers s)).
    { intros [= <-]. simpl. lia. }
    destruct (forallb is_returned (workers s)); try discriminate.
    destruct stored; intros [= <-]; simpl; lia.
Qed.

(** X16. Every schedule is finite: each step uses up exactly one of the
    [2 * n + 1] awaits of a job over [n] URLs (two per URL and the
    [Promise.all]), so no schedule has more than [2 * n + 1] steps. *)
Theorem every_schedule_is_bounded
    (concurrency : nat) (all : list SitemapUrl) (ls : list label) (s : state) :
  run ls (processSiteCapture concurrency all) = Some s ->
  (length ls + pending_work s + (match settled s with Pending => 1 | _ => 0 end)
   = 2 * length all + 1)%nat /\
  (length ls <= 2 * length all + 1)%nat.
Proof.
  intros Hrun.
  assert (Hgen : forall ls s0 s1, run ls s0 = Some s1 ->
            (length ls + pending_work s1 + unsettled s1
             = pending_work s0 + unsettled s0)%nat).
  { clear. induction ls as [|l ls IH]; intros s0 s1; simpl.
    - intros [= <-]. lia.
    - destruct (step l s0) as [s'|] eqn:Hstep; [|discriminate].
      intros Hrun. apply IH in Hrun. apply step_measure in Hstep. lia. }
  apply Hgen in Hrun.
  assert (Hstart : (pending_work (processSiteCapture concurrency all)
                    + unsettled (processSiteCapture concurrency all)
                    = 2 * length all + 1)%nat).
  { unfold pending_work, unsettled, processSiteCapture.
    destruct (spawn concurrency all) as [ws queue'] eqn:Hsp. simpl.
    rewrite (spawn_work _ _ _ _ Hsp).
    destruct (spawn_spec _ _ _ _ Hsp) as (_ & Happ & _).
    rewrite <- Happ, length_app. lia. }
  unfold unsettled in *. lia.
Qed.

Lemma every_schedule_is_bounded_witness :
  (length Sample.drained_schedule + pending_work Sample.drained_final + 0
   = 2 * length Sample.three_pages + 1)%nat /\
  (length Sample.drained_schedule <= 2 * length Sample.three_pages + 1)%nat.
Proof.
  apply (every_schedule_is_bounded 2 Sample.three_pages Sample.drained_schedule
           Sample.drained_final).
  vm_compute. reflexivity.
Defined.

(** X17. The status is written once: after [processSiteCapture] has
    settled, whatever the workers that are still running do, the status
    and the total of the row stay as they are (the counters may still
    move). *)
Theorem settled_status_is_final (ls : list label) (s s' : state) :
  settled s <> Pending ->
  run ls s = Some s' ->
  status (row s') = status (row s) /\ settled s' = settled s /\
  total_pages (row s') = total_pages (row s).
Proof.
  revert s. induction ls as [|l ls IH]; intros s Hset; simpl.
  - intros [= <-]. auto.
  - destruct (step l s) as [s1|] eqn:Hstep; [|discriminate].
    intros Hrun.
    assert (H1 : status (row s1) = status (row s) /\ settled s1 = settled s /\
                 total_pages (row s1) = total_pages (row s)).
    { destruct l as [w success | w stored | stored handlerStored]; simpl in Hstep.
      - destruct (workers s !! w) as [[entry|? ?| |]|]; try discriminate.
        injection Hstep as <-. simpl; auto.
      - destruct (workers s !! w) as [[?|c f| |]|]; try discriminate.
        destruct (if stored then workerLoop (queue s) else (Threw, queue s)).
        injection Hstep as <-. destruct stored; simpl; auto.
      - destruct (settled s); [contradiction | discriminate | discriminate]. }
    destruct H1 as (Hst & Hse & Htot).
    destruct (IH s1 ltac:(congruence) Hrun) as (Hst' & Hse' & Htot').
    repeat split; congruence.
Qed.

Lemma settled_status_is_final_witness :
  status (row Sample.late_final) = failed /\
  captured_pages (row Sample.late_final) = 3 /\
  settled Sample.late_final = Rejected.
Proof.
  destruct (settled_status_is_final Sample.late_schedule Sample.rejected_job
              Sample.late_final) as (Hstatus & Hsettled & _).
  - discriminate.
  - vm_compute. reflexivity.
  - split; [exact Hstatus|]. split; [reflexivity | exact Hsettled].
Defined.

End JobProofs.

Module SweepProofs.
Import Cleanup CleanupProofs.

Section Sweep.
Variable f : faults.

Lemma cleanupScreenshot_keeps st s o :
  In o (blobs st) -> (bucket s, storageKey s) <> o ->
  In o (blobs (cleanupScreenshot f st s)).
Proof.
  intros Hin Hne. unfold cleanupScreenshot, onCleanupError.
  assert (Hkept : In o (deleteScreenshot (bucket s) (storageKey s) (blobs st))).
  { unfold deleteScreenshot. apply List.filter_In. split; [exact Hin|].
    destruct o as [b key]. simpl.
    destruct (String.eqb_spec b (bucket s)) as [->|]; [|reflexivity].
    destruct (String.eqb_spec key (storageKey s)) as [->|]; [|reflexivity].
    now contradiction Hne. }
  destruct (deleteScreenshot_fails f _ _); simpl; [exact Hin|].
  destruct (deleteScreenshotRecord_fails f _); simpl; exact Hkept.
Qed.

Lemma cleanupScreenshots_keeps batch : forall st o,
  In o (blobs st) ->
  (forall a, In a batch -> (bucket a, storageKey a) <> o) ->
  In o (blobs (cleanupScreenshots f batch st)).
Proof.
  induction batch as [|s batch IH]; intros st o Hin Hne; simpl; [exact Hin|].
  apply IH.
  - apply cleanupScreenshot_keeps; [exact Hin | apply Hne; now left].
  - intros a Ha. apply Hne. now right.
Qed.

End Sweep.

Lemma NoDup_map_inj {A B} (g : A -> B) l x y :
  List.NoDup (List.map g l) -> In x l -> In y l -> g x = g y -> x = y.
Proof.
  induction l as [|z l IH]; simpl; [tauto|].
  intros Hnd Hx Hy Heq. inversion Hnd as [|? ? Hz Hnd']; subst.
  destruct Hx as [->|Hx], Hy as [->|Hy]; auto.
  - exfalso. apply Hz. rewrite Heq. now apply in_map.
  - exfalso. apply Hz. rewrite <- Heq. now apply in_map.
Qed.


(** Where the rows of the table come from: one iteration removes a row
    or sets its status to [expired], and changes nothing else. *)
Lemma updateScreenshotStatus_origin i table a :
  In a (updateScreenshotStatus i expired table) ->
  exists a0, In a0 table /\ id a = id a0 /\ bucket a = bucket a0 /\
             storageKey a = storageKey a0 /\ expiresAt a = expiresAt a0 /\
             (status a = status a0 \/ status a = expired).
Proof.
  unfold updateScreenshotStatus. intros H. apply in_map_iff in H.
  destruct H as (a0 & <- & Hin). exists a0. split; [exact Hin|].
  destruct (String.eqb (id a0) i); simpl; auto 10.
Qed.

Lemma cleanupScreenshot_origin f st s a :
  In a (screenshots (cleanupScreenshot f st s)) ->
  exists a0, In a0 (screenshots st) /\ id a = id a0 /\ bucket a = bucket a0 /\
             storageKey a = storageKey a0 /\ expiresAt a = expiresAt a0 /\
             (status a = status a0 \/ status a = expired).
Proof.
  assert (Hsame : In a (screenshots st) ->
            exists a0, In a0 (screenshots st) /\ id a = id a0 /\
                       bucket a = bucket a0 /\ storageKey a = storageKey a0 /\
                       expiresAt a = expiresAt a0 /\
                       (status a = status a0 \/ status a = expired))
    by (intros H; exists a; auto 10).
  unfold cleanupScreenshot, onCleanupError.
  destruct (deleteScreenshot_fails f _ _); simpl.
  - destruct (updateScreenshotStatus_fails f _); simpl;
      [exact Hsame | apply updateScreenshotStatus_origin].
  - destruct (deleteScreenshotRecord_fails f _); simpl.
    + destruct (updateScreenshotStatus_fails f _); simpl;
        [exact Hsame | apply updateScreenshotStatus_origin].
    + unfold deleteScreenshotRecord. intros H. apply List.filter_In in H.
      apply Hsame. tauto.
Qed.

Lemma cleanupScreenshots_origin f batch : forall st a,
  In a (screenshots (cleanupScreenshots f batch st)) ->
  exists a0, In a0 (screenshots st) /\ id a = id a0 /\ bucket a = bucket a0 /\
             storageKey a = storageKey a0 /\ expiresAt a = expiresAt a0 /\
             (status a = status a0 \/ status a = expired).
Proof.
  induction batch as [|s batch IH]; intros st a; simpl.
  - intros H. exists a. auto 10.
  - intros H. apply IH in H. destruct H as (a1 & H1 & Hid & Hb & Hk & He & Hs).
    apply cleanupScreenshot_origin in H1.
    destruct H1 as (a0 & H0 & Hid0 & Hb0 & Hk0 & He0 & Hs0).
    exists a0. repeat split; try congruence.
    destruct Hs as [Hs|Hs], Hs0 as [Hs0|Hs0]; [left|right|right|right]; congruence.
Qed.

Lemma lookup_id_In i table r : lookup_id i table = Some r -> In r table /\ id r = i.
Proof.
  unfold lookup_id. intros H. apply find_some in H. destruct H as [Hin Heq].
  split; [exact Hin | now apply String.eqb_eq].
Qed.


Lemma lookup_id_none i table :
  (forall r, In r table -> id r <> i) -> lookup_id i table = None.
Proof.
  unfold lookup_id. induction table as [|x table IH]; simpl; [reflexivity|].
  intros H. destruct (String.eqb_spec (id x) i) as [Heq|_].
  - exfalso. now apply (H x (or_introl eq_refl)).
  - apply IH. intros r Hr. apply H. now right.
Qed.

Lemma lookup_id_absent i table r :
  lookup_id i table = None -> In r table -> id r <> i.
Proof.
  unfold lookup_id. intros Hnone Hin Hid.
  apply (find_none _ _ Hnone) in Hin. rewrite Hid, String.eqb_refl in Hin.
  discriminate.
Qed.

Lemma cleanupScreenshot_blob_origin f st s o :
  In o (blobs (cleanupScreenshot f st s)) -> In o (blobs st).
Proof.
  unfold cleanupScreenshot, onCleanupError.
  destruct (deleteScreenshot_fails f _ _); simpl; [auto|].
  destruct (deleteScreenshotRecord_fails f _); simpl;
    apply deleteScreenshot_In.
Qed.

Lemma cleanupScreenshots_blob_origin f batch : forall st o,
  In o (blobs (cleanupScreenshots f batch st)) -> In o (blobs st).
Proof.
  induction batch as [|s batch IH]; intros st o; simpl; [auto|].
  intros H. apply IH in H. now apply cleanupScreenshot_blob_origin in H.
Qed.

Lemma cleanupScreenshot_keeps_failing f st s o :
  In o (blobs st) ->
  ((bucket s, storageKey s) = o ->
   deleteScreenshot_fails f (bucket s) (storageKey s) = true) ->
  In o (blobs (cleanupScreenshot f st s)).
Proof.
  intros Hin Hfail. unfold cleanupScreenshot, onCleanupError.
  destruct (deleteScreenshot_fails f _ _) eqn:Hf; simpl; [exact Hin|].
  assert (Hkept : In o (deleteScreenshot (bucket s) (storageKey s) (blobs st))).
  { unfold deleteScreenshot. apply List.filter_In. split; [exact Hin|].
    destruct o as [b key]. simpl.
    destruct (String.eqb_spec b (bucket s)) as [->|]; [|reflexivity].
    destruct (String.eqb_spec key (storageKey s)) as [->|]; [|reflexivity].
    specialize (Hfail eq_refl). congruence. }
  destruct (deleteScreenshotRecord_fails f _); simpl; exact Hkept.
Qed.

Lemma cleanupScreenshots_keeps_failing f batch : forall st o,
  In o (blobs st) ->
  (forall a, In a batch -> (bucket a, storageKey a) = o ->
     deleteScreenshot_fails f (bucket a) (storageKey a) = true) ->
  In o (blobs (cleanupScreenshots f batch st)).
Proof.
  induction batch as [|s batch IH]; intros st o Hin Hfail; simpl; [exact Hin|].
  apply IH.
  - apply cleanupScreenshot_keeps_failing; [exact Hin | apply Hfail; now left].
  - intros a Ha. apply Hfail. now right.
Qed.

(** A row found in a table keyed by [id] is found, or is gone, in every
    table obtained by filtering it. *)
Lemma lookup_id_filter keep i table r :
  List.NoDup (List.map id table) ->
  lookup_id i table = Some r ->
  lookup_id i (List.filter keep table) = Some r \/
  lookup_id i (List.filter keep table) = None.
Proof.
  intros Hkey Hrow. destruct (lookup_id_In _ _ _ Hrow) as [Hin Hid].
  destruct (keep r) eqn:Hkeep.
  - left. rewrite <- Hid. apply lookup_id_key.
    + now apply NoDup_map_filter.
    + apply List.filter_In. now split.
  - right. apply lookup_id_none. intros a Ha Heq.
    apply List.filter_In in Ha. destruct Ha as [Ha Hka].
    assert (a = r); [|congruence].
    apply (NoDup_map_inj id table); [assumption..|congruence].
Qed.

(** *** A loop in which no call rejects *)

Lemma filter_filter {A} (p q : A -> bool) l :
  List.filter p (List.filter q l) = List.filter (fun x => q x && p x) l.
Proof.
  induction l as [|x l IH]; simpl; [reflexivity|].
  destruct (q x); simpl; [destruct (p x)|]; now rewrite IH.
Qed.

Lemma cleanupScreenshots_clean f batch : forall st,
  (forall a, In a batch ->
     deleteScreenshot_fails f (bucket a) (storageKey a) = false /\
     deleteScreenshotRecord_fails f (id a) = false) ->
  screenshots (cleanupScreenshots f batch st) =
    List.filter (fun r => negb (existsb (String.eqb (id r)) (List.map id batch)))
      (screenshots st) /\
  deletedCount (cleanupScreenshots f batch st) = deletedCount st + JS.len batch /\
  errorCount (cleanupScreenshots f batch st) = errorCount st.
Proof.
  induction batch as [|s batch IH]; intros st Hok.
  - simpl. split; [|unfold JS.len; simpl; lia].
    induction (screenshots st) as [|r l IHl]; simpl; [reflexivity | now f_equal].
  - change (cleanupScreenshots f (s :: batch) st)
      with (cleanupScreenshots f batch (cleanupScreenshot f st s)).
    destruct (IH (cleanupScreenshot f st s) (fun a Ha => Hok a (or_intror Ha)))
      as (Hrows & Hdel & Herr).
    destruct (Hok s (or_introl eq_refl)) as [Hblob Hrec].
    rewrite Hrows, Hdel, Herr. unfold cleanupScreenshot. rewrite Hblob, Hrec.
    cbn [screenshots deletedCount errorCount].
    split; [|unfold JS.len; simpl length; lia].
    unfold deleteScreenshotRecord. rewrite filter_filter.
    apply List.filter_ext. intros r. simpl. now rewrite negb_orb.
Qed.

Lemma filter_firstn_skipn {A} (g : A -> string) n : forall l,
  List.NoDup (List.map g l) ->
  List.filter (fun r => negb (existsb (String.eqb (g r)) (List.map g (firstn n l)))) l
  = skipn n l.
Proof.
  induction n as [|n IH]; intros l Hnd.
  - simpl. induction l as [|x l IHl]; simpl; [reflexivity|].
    inversion Hnd; subst. f_equal. auto.
  - destruct l as [|x l]; [reflexivity|].
    inversion Hnd as [|? ? Hx Hnd']; subst.
    cbn [firstn List.map skipn List.filter existsb].
    rewrite String.eqb_refl. cbn [orb negb].
    rewrite <- (IH l Hnd'). apply List.filter_ext_in. intros r Hr.
    cbn [existsb].
    destruct (String.eqb_spec (g r) (g x)) as [Heq|]; [|reflexivity].
    exfalso. apply Hx. rewrite <- Heq. now apply in_map.
Qed.


End SweepProofs.

Module CascadeProofs.
Import Cleanup SiteSweep.

(** A run is its first loop followed by the loop over the site captures
    selected when the first loop is over. *)
Lemma runCleanup_loops fails f now st :
  runCleanup fails f now st =
    cleanupSiteCaptures fails (getExpiredSiteCaptures now (site_captures (db st)))
      {| db := {| site_captures := site_captures (db st);
                  screenshots := Cleanup.screenshots (looped f now st);
                  site_capture_id := site_capture_id (db st) |};
         blobs := Cleanup.blobs (looped f now st);
         siteDeletedCount := 0 |}.
Proof. reflexivity. Qed.

Lemma filter_all {A} (l : list A) : List.filter (fun _ => true) l = l.
Proof. induction l as [|x l IH]; simpl; [reflexivity | now rewrite IH]. Qed.

Section Sites.
Variable fails : string -> bool.

Lemma cleanupSiteCapture_facts st site :
  site_capture_id (db (cleanupSiteCapture fails st site)) = site_capture_id (db st) /\
  blobs (cleanupSiteCapture fails st site) = blobs st /\
  (forall r, In r (screenshots (db (cleanupSiteCapture fails st site))) ->
     In r (screenshots (db st)) /\
     (fails (siteId site) = false -> references (db st) (siteId site) r = false)).
Proof.
  unfold cleanupSiteCapture. destruct (fails (siteId site)); simpl.
  - split; [reflexivity|]. split; [reflexivity|].
    intros r Hr. split; [exact Hr | discriminate].
  - split; [reflexivity|]. split; [reflexivity|].
    intros r Hr. apply List.filter_In in Hr. destruct Hr as [Hin Href].
    split; [exact Hin|]. intros _. now apply negb_true_iff in Href.
Qed.

Lemma cleanupSiteCaptures_facts sites : forall st,
  site_capture_id (db (cleanupSiteCaptures fails sites st)) = site_capture_id (db st) /\
  blobs (cleanupSiteCaptures fails sites st) = blobs st /\
  (forall r, In r (screenshots (db (cleanupSiteCaptures fails sites st))) ->
     In r (screenshots (db st)) /\
     forall site, In site sites -> fails (siteId site) = false ->
       site_capture_id (db st) (id r) <> Some (siteId site)).
Proof.
  induction sites as [|s sites IH]; intros st; simpl.
  - split; [reflexivity|]. split; [reflexivity|].
    intros r Hr. split; [exact Hr|]. intros site [].
  - destruct (IH (cleanupSiteCapture fails st s)) as (Hcol & Hblobs & Hrows).
    destruct (cleanupSiteCapture_facts st s) as (Hcol1 & Hblobs1 & Hrows1).
    split; [congruence|]. split; [congruence|].
    intros r Hr. destruct (Hrows r Hr) as [Hin Hrest].
    destruct (Hrows1 r Hin) as [Hin0 Hs].
    split; [exact Hin0|]. intros site [<-|Hsite] Hok.
    + specialize (Hs Hok). unfold references in Hs.
      intros Heq. rewrite Heq, String.eqb_refl in Hs. discriminate.
    + rewrite <- Hcol1. now apply Hrest.
Qed.

(** The second loop leaves the table of screenshots filtered: it adds no
    row and changes none. *)
Lemma cleanupSiteCaptures_filter sites : forall st,
  exists keep,
    screenshots (db (cleanupSiteCaptures fails sites st)) =
    List.filter keep (screenshots (db st)).
Proof.
  induction sites as [|s sites IH]; intros st; simpl.
  - exists (fun _ => true). now rewrite filter_all.
  - destruct (IH (cleanupSiteCapture fails st s)) as (keep & ->).
    unfold cleanupSiteCapture. destruct (fails (siteId s)); [now exists keep|].
    cbn [db screenshots deleteSiteCaptureRecord].
    rewrite SweepProofs.filter_filter. eauto.
Qed.

(** A screenshot that belongs to none of the site captures handled, and
    a site capture that is none of them, are still there. *)
Lemma cleanupSiteCaptures_keeps_row sites : forall st r,
  In r (screenshots (db st)) ->
  (forall site, In site sites ->
     site_capture_id (db st) (id r) <> Some (siteId site)) ->
  In r (screenshots (db (cleanupSiteCaptures fails sites st))).
Proof.
  induction sites as [|s sites IH]; intros st r Hin Hfree; simpl; [exact Hin|].
  destruct (cleanupSiteCapture_facts st s) as (Hcol & _ & _).
  apply IH.
  - unfold cleanupSiteCapture. destruct (fails (siteId s)); [exact Hin|].
    cbn [db screenshots deleteSiteCaptureRecord]. apply List.filter_In.
    split; [exact Hin|]. unfold references.
    destruct (site_capture_id (db st) (id r)) as [owner|] eqn:Howner;
      [|reflexivity].
    destruct (String.eqb_spec owner (siteId s)) as [->|]; [|reflexivity].
    exfalso. apply (Hfree s); [now left | reflexivity].
  - intros site Hsite. rewrite Hcol. apply Hfree. now right.
Qed.

Lemma cleanupSiteCaptures_keeps_site sites : forall st site,
  In site (site_captures (db st)) ->
  (forall handled, In handled sites -> siteId handled <> siteId site) ->
  In site (site_captures (db (cleanupSiteCaptures fails sites st))).
Proof.
  induction sites as [|s sites IH]; intros st site Hin Hfree; simpl; [exact Hin|].
  apply IH; [|intros handled Hh; apply Hfree; now right].
  unfold cleanupSiteCapture. destruct (fails (siteId s)); [exact Hin|].
  cbn [db site_captures deleteSiteCaptureRecord]. apply List.filter_In.
  split; [exact Hin|].
  destruct (String.eqb_spec (siteId site) (siteId s)) as [Heq|]; [|reflexivity].
  exfalso. apply (Hfree s); [now left | now symmetry].
Qed.

End Sites.

(** *** What a whole run does to the two tables and to the blobs *)

Section Run.
Variable fails : string -> bool.
Variable f : faults.
Variable now : Z.
Variable st : state.

Lemma runCleanup_column :
  site_capture_id (db (runCleanup fails f now st)) = site_capture_id (db st).
Proof.
  rewrite runCleanup_loops.
  now destruct (cleanupSiteCaptures_facts fails
                  (getExpiredSiteCaptures now (site_captures (db st)))
                  {| db := {| site_captures := site_captures (db st);
                              screenshots := Cleanup.screenshots (looped f now st);
                              site_capture_id := site_capture_id (db st) |};
                     blobs := Cleanup.blobs (looped f now st);
                     siteDeletedCount := 0 |}) as (-> & _).
Qed.

Lemma runCleanup_blobs :
  blobs (runCleanup fails f now st) = Cleanup.blobs (looped f now st).
Proof.
  rewrite runCleanup_loops.
  now destruct (cleanupSiteCaptures_facts fails
                  (getExpiredSiteCaptures now (site_captures (db st)))
                  {| db := {| site_captures := site_captures (db st);
                              screenshots := Cleanup.screenshots (looped f now st);
                              site_capture_id := site_capture_id (db st) |};
                     blobs := Cleanup.blobs (looped f now st);
                     siteDeletedCount := 0 |}) as (_ & -> & _).
Qed.

Lemma runCleanup_filter :
  exists keep,
    screenshots (db (runCleanup fails f now st)) =
    List.filter keep (Cleanup.screenshots (looped f now st)).
Proof.
  rewrite runCleanup_loops.
  apply (cleanupSiteCaptures_filter fails
           (getExpiredSiteCaptures now (site_captures (db st)))
           {| db := {| site_captures := site_captures (db st);
                       screenshots := Cleanup.screenshots (looped f now st);
                       site_capture_id := site_capture_id (db st) |};
              blobs := Cleanup.blobs (looped f now st);
              siteDeletedCount := 0 |}).
Qed.

Lemma runCleanup_NoDup :
  List.NoDup (List.map id (screenshots (db st))) ->
  List.NoDup (List.map id (screenshots (db (runCleanup fails f now st)))).
Proof.
  intros Hkey. destruct runCleanup_filter as (keep & ->).
  apply CleanupProofs.NoDup_map_filter.
  unfold looped. now apply CleanupProofs.cleanupScreenshots_NoDup.
Qed.

(** No run adds a row or a blob; a row it keeps is unchanged or has
    become [expired]. *)
Lemma runCleanup_origin a :
  In a (screenshots (db (runCleanup fails f now st))) ->
  exists a0, In a0 (screenshots (db st)) /\ id a = id a0 /\
             bucket a = bucket a0 /\ storageKey a = storageKey a0 /\
             expiresAt a = expiresAt a0 /\
             (Cleanup.status a = Cleanup.status a0 \/ Cleanup.status a = expired).
Proof.
  destruct runCleanup_filter as (keep & ->). intros H.
  apply List.filter_In in H. destruct H as [H _].
  unfold looped in H. now apply SweepProofs.cleanupScreenshots_origin in H.
Qed.

Lemma runCleanup_blob_origin o :
  In o (blobs (runCleanup fails f now st)) -> In o (blobs st).
Proof.
  rewrite runCleanup_blobs. unfold looped. intros H.
  now apply SweepProofs.cleanupScreenshots_blob_origin in H.
Qed.

(** A blob that is the blob of no selected screenshot is still stored:
    the second loop deletes rows only. *)
Lemma runCleanup_blob_kept o :
  In o (blobs st) ->
  (forall a, In a (getExpiredScreenshots now (screenshots (db st))) ->
     (bucket a, storageKey a) <> o) ->
  In o (blobs (runCleanup fails f now st)).
Proof.
  intros Hin Hfree. rewrite runCleanup_blobs. unfold looped.
  now apply SweepProofs.cleanupScreenshots_keeps.
Qed.

(** A row that was not selected and does not belong to a selected site
    capture is found unchanged. *)
Lemma runCleanup_row_kept r :
  List.NoDup (List.map id (screenshots (db st))) ->
  In r (screenshots (db st)) ->
  ~ In (id r) (List.map id (getExpiredScreenshots now (screenshots (db st)))) ->
  (forall site, In site (getExpiredSiteCaptures now (site_captures (db st))) ->
     site_capture_id (db st) (id r) <> Some (siteId site)) ->
  lookup_id (id r) (screenshots (db (runCleanup fails f now st))) = Some r.
Proof.
  intros Hkey Hin Hout Hfree.
  apply CleanupProofs.lookup_id_key; [now apply runCleanup_NoDup|].
  rewrite runCleanup_loops. apply cleanupSiteCaptures_keeps_row; [|exact Hfree].
  cbn [db screenshots].
  assert (Hrow : lookup_id (id r) (Cleanup.screenshots (looped f now st)) = Some r).
  { unfold looped. rewrite CleanupProofs.cleanupScreenshots_other by exact Hout.
    now apply CleanupProofs.lookup_id_key. }
  now apply SweepProofs.lookup_id_In in Hrow.
Qed.

(** A row that is gone when the first loop is over stays gone. *)
Lemma runCleanup_row_gone i :
  lookup_id i (Cleanup.screenshots (looped f now st)) = None ->
  lookup_id i (screenshots (db (runCleanup fails f now st))) = None.
Proof.
  intros Hnone. destruct runCleanup_filter as (keep & ->).
  apply SweepProofs.lookup_id_none. intros r Hr.
  apply List.filter_In in Hr. destruct Hr as [Hr _].
  now apply (SweepProofs.lookup_id_absent i _ r Hnone).
Qed.
End Run.

(** X19. What a run of the sweep leaves alone, whatever calls reject.  A
    screenshot row that it did not select and that belongs to no
    selected site capture is found unchanged afterwards; so is, in
    particular, every row of a screenshot outside any site capture that
    is not [completed] or not yet past its expiry.  Every blob that is
    the blob of no selected screenshot is still stored, and every site
    capture that is none of the selected ones is still there.  The run
    adds nothing: each row left was there, unchanged or now [expired],
    and each blob left was there. *)
Theorem sweep_spares_what_it_did_not_select
    (fails : string -> bool) (f : faults) (now : Z) (st : state) :
  List.NoDup (List.map id (screenshots (db st))) ->
  let batch := getExpiredScreenshots now (screenshots (db st)) in
  let sites := getExpiredSiteCaptures now (site_captures (db st)) in
  let st' := runCleanup fails f now st in
  (forall r, In r (screenshots (db st)) -> ~ In r batch ->
     (forall site, In site sites ->
        site_capture_id (db st) (id r) <> Some (siteId site)) ->
     lookup_id (id r) (screenshots (db st')) = Some r) /\
  (forall r, In r (screenshots (db st)) ->
     (Cleanup.status r <> completed \/ now <= expiresAt r) ->
     site_capture_id (db st) (id r) = None ->
     lookup_id (id r) (screenshots (db st')) = Some r) /\
  (forall o, In o (blobs st) ->
     (forall a, In a batch -> (bucket a, storageKey a) <> o) ->
     In o (blobs st')) /\
  (forall site, In site (site_captures (db st)) ->
     (forall handled, In handled sites -> siteId handled <> siteId site) ->
     In site (site_captures (db st'))) /\
  (forall a, In a (screenshots (db st')) ->
     exists a0, In a0 (screenshots (db st)) /\ id a = id a0 /\
                bucket a = bucket a0 /\ storageKey a = storageKey a0 /\
                expiresAt a = expiresAt a0 /\
                (Cleanup.status a = Cleanup.status a0 \/
                 Cleanup.status a = expired)) /\
  (forall o, In o (blobs st') -> In o (blobs st)).
Proof.
  intros Hkey batch sites st'. subst st'.
  assert (Hrows : forall r, In r (screenshots (db st)) -> ~ In r batch ->
            (forall site, In site sites ->
               site_capture_id (db st) (id r) <> Some (siteId site)) ->
            lookup_id (id r) (screenshots (db (runCleanup fails f now st))) = Some r).
  { intros r Hr Hout Hfree. apply runCleanup_row_kept; auto.
    intros Hin. apply in_map_iff in Hin.
    destruct Hin as (a & Hid & Ha). apply Hout.
    replace r with a; [exact Ha|].
    apply (SweepProofs.NoDup_map_inj id (screenshots (db st))); auto.
    now apply CleanupProofs.getExpiredScreenshots_In in Ha. }
  split; [exact Hrows|]. split; [|split; [|split; [|split]]].
  - intros r Hr Hlive Hfree. apply Hrows; [exact Hr| |].
    + intros Hin. apply CleanupProofs.getExpiredScreenshots_In in Hin.
      destruct Hin as (_ & Hst & Hexp). destruct Hlive; [congruence | lia].
    + intros site _. now rewrite Hfree.
  - intros o Ho Hne. now apply runCleanup_blob_kept.
  - intros site Hsite Hfree. rewrite runCleanup_loops.
    now apply cleanupSiteCaptures_keeps_site.
  - apply runCleanup_origin.
  - apply runCleanup_blob_origin.
Qed.

Lemma sweep_spares_what_it_did_not_select_witness :
  lookup_id "shot-3"
    (screenshots (db (runCleanup (fun _ => false) Sample.blob_outage 2000
                        Sample.site_store))) =
    Some {| id := "shot-3"; bucket := "screenshots";
            storageKey := "2024/05/02/shot-3.png";
            expiresAt := 9000; Cleanup.status := completed |} /\
  In ("screenshots", "2024/05/02/shot-3.png")
    (blobs (runCleanup (fun _ => false) Sample.blob_outage 2000 Sample.site_store)).
Proof.
  pose proof (sweep_spares_what_it_did_not_select
                (fun _ => false) Sample.blob_outage 2000 Sample.site_store
                ltac:(repeat constructor; simpl; intuition discriminate))
    as (_ & Hlive & Hblob & _).
  split.
  - apply (Hlive {| id := "shot-3"; bucket := "screenshots";
                    storageKey := "2024/05/02/shot-3.png";
                    expiresAt := 9000; Cleanup.status := completed |}).
    + right. right. left. reflexivity.
    + right. simpl. lia.
    + reflexivity.
  - apply Hblob.
    + right. right. left. reflexivity.
    + intros a [<-|[<-|[]]]; discriminate.
Defined.

Lemma filter_twice_shorter {A} (p q : A -> bool) l :
  (length (List.filter p (List.filter q l)) <= length (List.filter p l))%nat.
Proof.
  induction l as [|x l IH]; simpl; [lia|].
  destruct (q x); simpl; destruct (p x); simpl; lia.
Qed.

(** X20. A run in which the stores take every call of the first loop
    works off the backlog by a hundred: the batch is a hundred of the
    overdue rows, or all of them when they are fewer; every row of the
    batch is gone from the table and its blob from the blob store when
    the run is over; and the overdue rows left are fewer by the size of
    the batch at least (the cascade of the second loop may take more).
    With no site capture to delete, the table left is the table less the
    batch. *)
Theorem clean_sweep_takes_a_hundred_off_the_backlog
    (fails : string -> bool) (f : faults) (now : Z) (st : state) :
  List.NoDup (List.map id (screenshots (db st))) ->
  (forall a, In a (getExpiredScreenshots now (screenshots (db st))) ->
     deleteScreenshot_fails f (bucket a) (storageKey a) = false /\
     deleteScreenshotRecord_fails f (id a) = false) ->
  let overdue := fun r => status_eqb (Cleanup.status r) completed
                          && (expiresAt r <? now) in
  let batch := getExpiredScreenshots now (screenshots (db st)) in
  let st' := runCleanup fails f now st in
  JS.len batch = Z.min 100 (JS.len (List.filter overdue (screenshots (db st)))) /\
  (forall a, In a batch ->
     lookup_id (id a) (screenshots (db st')) = None /\
     ~ In (bucket a, storageKey a) (blobs st')) /\
  JS.len (List.filter overdue (screenshots (db st'))) <=
    JS.len (List.filter overdue (screenshots (db st))) - JS.len batch /\
  (getExpiredSiteCaptures now (site_captures (db st)) = [] ->
   screenshots (db st') =
     List.filter (fun r => negb (existsb (String.eqb (id r)) (List.map id batch)))
       (screenshots (db st))).
Proof.
  intros Hkey Hok overdue batch st'. subst st'.
  assert (Hrows : Cleanup.screenshots (looped f now st) =
            List.filter
              (fun r => negb (existsb (String.eqb (id r)) (List.map id batch)))
              (screenshots (db st))).
  { exact (proj1 (SweepProofs.cleanupScreenshots_clean f batch
                    {| isRunning := true;
                       Cleanup.screenshots := screenshots (db st);
                       Cleanup.blobs := blobs st; deletedCount := 0;
                       errorCount := 0; calls := [] |} Hok)). }
  assert (Hsize : JS.len batch =
            Z.min 100 (JS.len (List.filter overdue (screenshots (db st))))).
  { unfold batch, getExpiredScreenshots, JS.len. fold overdue.
    rewrite length_firstn. lia. }
  split; [exact Hsize|]. split; [|split].
  - intros a Ha.
    pose proof (CleanupProofs.getExpiredScreenshots_NoDup now _ Hkey) as Hnd.
    pose proof (CleanupProofs.getExpiredScreenshots_row now _ a Hkey Ha) as Hrow.
    destruct (CleanupProofs.cleanupScreenshots_each f batch
                {| isRunning := true; Cleanup.screenshots := screenshots (db st);
                   Cleanup.blobs := blobs st; deletedCount := 0; errorCount := 0;
                   calls := [] |} a Hnd Ha Hrow) as (_ & _ & Hgone).
    destruct (Hok a Ha) as [Hblob Hrec].
    destruct (Hgone Hblob Hrec) as [Hnone Hno].
    split; [now apply runCleanup_row_gone | now rewrite runCleanup_blobs].
  - destruct (runCleanup_filter fails f now st) as (keep & ->).
    pose proof (filter_twice_shorter overdue keep
                  (Cleanup.screenshots (looped f now st))) as Hle.
    assert (Hleft : List.filter overdue (Cleanup.screenshots (looped f now st)) =
                    skipn 100 (List.filter overdue (screenshots (db st)))).
    { rewrite Hrows, SweepProofs.filter_filter.
      rewrite (List.filter_ext _ (fun r => overdue r &&
                 negb (existsb (String.eqb (id r)) (List.map id batch))))
        by (intros r; apply andb_comm).
      rewrite <- SweepProofs.filter_filter.
      unfold batch, getExpiredScreenshots. fold overdue.
      apply SweepProofs.filter_firstn_skipn.
      now apply CleanupProofs.NoDup_map_filter. }
    rewrite Hleft, length_skipn in Hle. unfold JS.len in *. lia.
  - intros Hnone. rewrite runCleanup_loops, Hnone. exact Hrows.
Qed.

Lemma clean_sweep_takes_a_hundred_off_the_backlog_witness :
  lookup_id "shot-2"
    (screenshots (db (runCleanup (fun _ => false) Sample.no_faults 2000
                        Sample.site_store))) = None /\
  JS.len (List.filter (fun r => status_eqb (Cleanup.status r) completed
                                && (expiresAt r <? 2000))
            (screenshots (db (runCleanup (fun _ => false) Sample.no_faults 2000
                                Sample.site_store)))) <= 2 - 2.
Proof.
  pose proof (clean_sweep_takes_a_hundred_off_the_backlog
                (fun _ => false) Sample.no_faults 2000 Sample.site_store
                ltac:(repeat constructor; simpl; intuition discriminate)
                ltac:(intros a _; split; reflexivity))
    as (_ & Hgone & Hleft & _).
  split; [|exact Hleft].
  apply (Hgone {| id := "shot-2"; bucket := "screenshots";
                  storageKey := "2024/05/01/shot-2.png";
                  expiresAt := 1500; Cleanup.status := completed |}).
  right. left. reflexivity.
Defined.

(** X21. The cascade takes rows, not blobs: when the site phase of a
    sweep deletes a site capture, the row of each of its screenshots is
    gone afterwards, and the blob of a screenshot that the screenshot
    phase did not select (one that is still fresh, for instance) stays
    in the blob store with no row left to lead to it. *)
Theorem cascade_leaves_the_blob_behind
    (fails : string -> bool) (f : faults) (now : Z) (st : SiteSweep.state)
    (site : SiteCaptureRow) (r : Screenshot) :
  In site (getExpiredSiteCaptures now (site_captures (db st))) ->
  fails (siteId site) = false ->
  site_capture_id (db st) (id r) = Some (siteId site) ->
  In (bucket r, storageKey r) (SiteSweep.blobs st) ->
  (forall a, In a (getExpiredScreenshots now (SiteSweep.screenshots (db st))) ->
     (bucket a, storageKey a) <> (bucket r, storageKey r)) ->
  let st' := SiteSweep.runCleanup fails f now st in
  lookup_id (id r) (SiteSweep.screenshots (db st')) = None /\
  In (bucket r, storageKey r) (SiteSweep.blobs st').
Proof.
  intros Hsite Hok Hcol Hblob Hother st'. subst st'. split.
  - rewrite runCleanup_loops.
    match goal with
    | |- context [cleanupSiteCaptures fails ?l ?s0] =>
        destruct (cleanupSiteCaptures_facts fails l s0) as (_ & _ & Hrows)
    end.
    apply SweepProofs.lookup_id_none. intros r' Hr' Hid.
    destruct (Hrows r' Hr') as [_ Hnot].
    apply (Hnot site Hsite Hok). cbn [db site_capture_id]. now rewrite Hid.
  - now apply runCleanup_blob_kept.
Qed.

Lemma cascade_leaves_the_blob_behind_witness :
  lookup_id "shot-9"
    (SiteSweep.screenshots
       (db (SiteSweep.runCleanup (fun _ => false) Sample.blob_outage 2000
              Sample.site_store))) = None /\
  In ("screenshots", "2024/05/02/shot-9.png")
    (SiteSweep.blobs
       (SiteSweep.runCleanup (fun _ => false) Sample.blob_outage 2000
          Sample.site_store)).
Proof.
  apply (cascade_leaves_the_blob_behind (fun _ => false) Sample.blob_outage 2000
           Sample.site_store
           {| siteId := "site-1"; siteExpiresAt := 1800;
              siteStatus := SiteCapture.completed |}
           Sample.late_page).
  - left. reflexivity.
  - reflexivity.
  - reflexivity.
  - right. right. right. left. reflexivity.
  - intros a [<-|[<-|[]]]; discriminate.
Defined.

End CascadeProofs.

Module RouteProofs.
Import Cleanup SiteSweep CascadeProofs Routes.

(** A row that is not [completed] is in no batch, so that no run asks
    the blob store for its blob or touches the row in its first loop;
    the second loop removes it with its site capture, if it has one. *)
Lemma parked_runCleanup i r st fails f now :
  Cleanup.status r <> completed ->
  parked i r st -> parked i r (runCleanup fails f now st).
Proof.
  intros Hstatus [Hkey Hrow Halone Hblob Hown].
  assert (Hout : forall a, In a (getExpiredScreenshots now (screenshots (db st))) ->
                           id a <> i).
  { intros a Ha Heq. apply CleanupProofs.getExpiredScreenshots_In in Ha.
    destruct Ha as (Ha & Hst & _).
    pose proof (CleanupProofs.lookup_id_key _ _ Hkey Ha) as Hfound.
    rewrite Heq in Hfound.
    destruct Hrow as [Hrow|Hrow]; rewrite Hrow in Hfound; [|discriminate].
    injection Hfound as <-. contradiction. }
  assert (Hout' : ~ In i (List.map id (getExpiredScreenshots now (screenshots (db st))))).
  { intros Hi. apply in_map_iff in Hi. destruct Hi as (a & Heq & Ha).
    now apply (Hout a Ha). }
  assert (Hloop : lookup_id i (Cleanup.screenshots (looped f now st)) =
                  lookup_id i (screenshots (db st))).
  { unfold looped. now rewrite CleanupProofs.cleanupScreenshots_other. }
  constructor.
  - now apply runCleanup_NoDup.
  - destruct Hrow as [Hrow|Hrow].
    + destruct (runCleanup_filter fails f now st) as (keep & ->).
      rewrite Hrow in Hloop.
      destruct (SweepProofs.lookup_id_In _ _ _ Hloop) as [Hin Hid].
      destruct (keep r) eqn:Hkeep.
      * left. rewrite <- Hid. apply CleanupProofs.lookup_id_key.
        -- apply CleanupProofs.NoDup_map_filter. unfold looped.
           now apply CleanupProofs.cleanupScreenshots_NoDup.
        -- apply List.filter_In. now split.
      * right. apply SweepProofs.lookup_id_none. intros a Ha Heq.
        apply List.filter_In in Ha. destruct Ha as [Ha Hka].
        assert (a = r); [|congruence].
        apply (SweepProofs.NoDup_map_inj id (Cleanup.screenshots (looped f now st)));
          [|exact Ha|exact Hin|congruence].
        unfold looped. now apply CleanupProofs.cleanupScreenshots_NoDup.
    + right. apply runCleanup_row_gone. now rewrite Hloop.
  - rewrite runCleanup_column. intros Hnone. specialize (Halone Hnone).
    destruct (SweepProofs.lookup_id_In _ _ _ Halone) as [Hin Hid].
    rewrite <- Hid. apply runCleanup_row_kept; auto.
    + now rewrite Hid.
    + intros site _. now rewrite Hid, Hnone.
  - apply runCleanup_blob_kept; [exact Hblob|].
    intros a Ha Heq. apply (Hout a Ha). apply Hown; [|exact Heq].
    now apply CleanupProofs.getExpiredScreenshots_In in Ha.
  - intros a Ha Heq. apply runCleanup_origin in Ha.
    destruct Ha as (a0 & Ha0 & Hid0 & Hb0 & Hk0 & _).
    rewrite Hid0. apply Hown; [exact Ha0|]. congruence.
Qed.

Lemma parked_runCleanups i r runs : forall st,
  Cleanup.status r <> completed -> parked i r st -> parked i r (runCleanups runs st).
Proof.
  unfold runCleanups. induction runs as [|[[fails f] now] runs IH];
    intros st Hs Hp; simpl.
  - exact Hp.
  - apply IH; [exact Hs|]. now apply parked_runCleanup.
Qed.

Lemma runCleanups_column runs : forall st,
  site_capture_id (db (runCleanups runs st)) = site_capture_id (db st).
Proof.
  unfold runCleanups. induction runs as [|[[fails f] now] runs IH];
    intros st; simpl; [reflexivity|].
  now rewrite IH, runCleanup_column.
Qed.

(** What follows for the row and for the requests that name it. *)
Lemma parked_facts i r st :
  Cleanup.status r = expired -> parked i r st ->
  In (bucket r, storageKey r) (blobs st) /\
  (forall now selected,
     In selected (getExpiredScreenshots now (screenshots (db st))) ->
     id selected <> i) /\
  (site_capture_id (db st) i = None ->
   lookup_id i (screenshots (db st)) = Some r).
Proof.
  intros Hstatus [Hkey Hrow Halone Hblob Hown].
  split; [exact Hblob|]. split; [|exact Halone].
  intros now selected Hsel Heq. apply CleanupProofs.getExpiredScreenshots_In in Hsel.
  destruct Hsel as (Hin & Hst & _).
  pose proof (CleanupProofs.lookup_id_key _ _ Hkey Hin) as Hfound.
  rewrite Heq in Hfound.
  destruct Hrow as [Hrow|Hrow]; rewrite Hrow in Hfound; [|discriminate].
  injection Hfound as <-. congruence.
Qed.

(** The run in which the blob deletion of a selected screenshot rejects
    and its row is marked [expired] leaves that row parked. *)
Lemma failed_deletion_parks_row fails f now st a :
  List.NoDup (List.map id (screenshots (db st))) ->
  In a (getExpiredScreenshots now (screenshots (db st))) ->
  deleteScreenshot_fails f (bucket a) (storageKey a) = true ->
  updateScreenshotStatus_fails f (id a) = false ->
  In (bucket a, storageKey a) (blobs st) ->
  (forall b, In b (screenshots (db st)) ->
     (bucket b, storageKey b) = (bucket a, storageKey a) -> id b = id a) ->
  parked (id a) (with_status expired a) (runCleanup fails f now st).
Proof.
  intros Hkey Hin Hfail Hupd Hblob Hown.
  pose proof (CleanupProofs.getExpiredScreenshots_NoDup now _ Hkey) as Hnd.
  pose proof (CleanupProofs.getExpiredScreenshots_row now _ a Hkey Hin) as Hrow0.
  assert (Hrow : lookup_id (id a) (Cleanup.screenshots (looped f now st)) =
                 Some (with_status expired a)).
  { destruct (CleanupProofs.cleanupScreenshots_each f _
                {| isRunning := true; Cleanup.screenshots := screenshots (db st);
                   Cleanup.blobs := blobs st; deletedCount := 0; errorCount := 0;
                   calls := [] |} a Hnd Hin Hrow0) as (_ & Hmark & _).
    destruct (Hmark Hfail) as [_ Hstored]. now apply Hstored. }
  assert (Hkey1 : List.NoDup (List.map id (Cleanup.screenshots (looped f now st)))).
  { unfold looped. now apply CleanupProofs.cleanupScreenshots_NoDup. }
  constructor; cbn [with_status bucket storageKey].
  - now apply runCleanup_NoDup.
  - destruct (runCleanup_filter fails f now st) as (keep & ->).
    now apply SweepProofs.lookup_id_filter.
  - rewrite runCleanup_column. intros Hnone.
    change (id a) with (id (with_status expired a)).
    apply CleanupProofs.lookup_id_key; [now apply runCleanup_NoDup|].
    rewrite runCleanup_loops. apply cleanupSiteCaptures_keeps_row.
    + cbn [db screenshots]. now apply SweepProofs.lookup_id_In in Hrow.
    + intros site _. cbn [db site_capture_id with_status id]. now rewrite Hnone.
  - rewrite runCleanup_blobs. unfold looped.
    apply SweepProofs.cleanupScreenshots_keeps_failing; [exact Hblob|].
    intros b Hb Heq.
    assert (b = a); [|now subst b].
    apply (SweepProofs.NoDup_map_inj id (screenshots (db st))); auto.
    + now apply CleanupProofs.getExpiredScreenshots_In in Hb.
    + now apply CleanupProofs.getExpiredScreenshots_In in Hin.
    + apply Hown; [|exact Heq]. now apply CleanupProofs.getExpiredScreenshots_In in Hb.
  - intros b Hb Heq. apply runCleanup_origin in Hb.
    destruct Hb as (b0 & Hb0 & Hid0 & Hbk0 & Hkey0 & _).
    rewrite Hid0. apply Hown; [exact Hb0|]. congruence.
Qed.

(** C9. The store of [Sample.standalone_store] at instant 2000, the blob
    store refusing to delete the blob of [shot-1]: the run marks the row
    [expired] and leaves the blob.  After that, whatever the number of
    later runs, their instants and the calls that reject in their loops
    (none, for instance), no run selects the row, the row stays
    [expired] and the blob stays where it is: no run of the sweep tries
    the deletion again. *)
Lemma expired_screenshot_is_not_retried :
  let st' := runCleanup (fun _ => false) Sample.blob_outage 2000
               Sample.standalone_store in
  option_map Cleanup.status (lookup_id "shot-1" (screenshots (db st')))
    = Some expired /\
  In ("screenshots", "2024/05/01/shot-1.png") (blobs st') /\
  forall runs,
    option_map Cleanup.status
      (lookup_id "shot-1" (screenshots (db (runCleanups runs st'))))
      = Some expired /\
    In ("screenshots", "2024/05/01/shot-1.png") (blobs (runCleanups runs st')) /\
    forall later,
      ~ Exists (fun r => id r = "shot-1")
          (getExpiredScreenshots later (screenshots (db (runCleanups runs st')))).
Proof.
  cbv zeta.
  set (marked := {| id := "shot-1"; bucket := "screenshots";
                    storageKey := "2024/05/01/shot-1.png";
                    expiresAt := 1000; Cleanup.status := expired |}).
  assert (Hparked : parked "shot-1" marked
                      (runCleanup (fun _ => false) Sample.blob_outage 2000
                         Sample.standalone_store)).
  { constructor.
    - vm_compute. repeat constructor; simpl; intuition discriminate.
    - left. reflexivity.
    - intros _. reflexivity.
    - left. reflexivity.
    - vm_compute. intros a [<-|[<-|[]]] Heq; [reflexivity | discriminate Heq]. }
  split; [reflexivity|]. split; [left; reflexivity|].
  intros runs.
  assert (Hnot : Cleanup.status marked <> completed) by discriminate.
  pose proof (parked_runCleanups _ _ runs _ Hnot Hparked) as Hlater.
  destruct (parked_facts "shot-1" marked _ eq_refl Hlater) as (Hblob & Hsel & Hrow).
  split; [|split; [exact Hblob|]].
  - rewrite Hrow; [reflexivity|].
    now rewrite runCleanups_column, runCleanup_column.
  - intros later Hex. apply List.Exists_exists in Hex.
    destruct Hex as (r & Hr & Hid). exact (Hsel later r Hr Hid).
Qed.

(** X25. A failed blob deletion is never tried again.  When, in a run of
    the sweep, the blob store rejects the deletion of the blob of a
    selected screenshot and the store takes the update of its status:
    after that run and any number of later runs, whatever their instants
    and the calls that reject in their loops, no run selects the row
    again and none has removed the blob; the row is there as [expired],
    or the cascade of its site capture has taken it. *)
Theorem failed_deletion_is_never_retried
    (fails : string -> bool) (f : faults) (now : Z) (st : state)
    (a : Screenshot) :
  List.NoDup (List.map id (screenshots (db st))) ->
  In a (getExpiredScreenshots now (screenshots (db st))) ->
  deleteScreenshot_fails f (bucket a) (storageKey a) = true ->
  updateScreenshotStatus_fails f (id a) = false ->
  In (bucket a, storageKey a) (blobs st) ->
  (forall b, In b (screenshots (db st)) ->
     (bucket b, storageKey b) = (bucket a, storageKey a) -> id b = id a) ->
  forall runs,
    let st' := runCleanups runs (runCleanup fails f now st) in
    In (bucket a, storageKey a) (blobs st') /\
    (forall later selected,
       In selected (getExpiredScreenshots later (screenshots (db st'))) ->
       id selected <> id a) /\
    (lookup_id (id a) (screenshots (db st')) = Some (with_status expired a) \/
     lookup_id (id a) (screenshots (db st')) = None) /\
    (site_capture_id (db st) (id a) = None ->
     lookup_id (id a) (screenshots (db st')) = Some (with_status expired a)).
Proof.
  intros Hkey Hin Hfail Hupd Hblob Hown runs. cbv zeta.
  pose proof (failed_deletion_parks_row fails f now st a
                Hkey Hin Hfail Hupd Hblob Hown) as Hparked.
  apply (parked_runCleanups _ _ runs) in Hparked; [|discriminate].
  destruct (parked_facts (id a) (with_status expired a) _ eq_refl Hparked)
    as (Hblob' & Hsel & Halone).
  destruct Hparked as [_ Hrow' _ _ _].
  split; [exact Hblob'|]. split; [exact Hsel|]. split; [exact Hrow'|].
  intros Hnone. apply Halone.
  now rewrite runCleanups_column, runCleanup_column.
Qed.

Lemma failed_deletion_is_never_retried_witness :
  In ("screenshots", "2024/05/01/shot-1.png")
    (blobs (runCleanups Sample.later_sweeps
              (runCleanup (fun _ => false) Sample.blob_outage 2000
                 Sample.site_store))) /\
  lookup_id "shot-1"
    (screenshots
       (db (runCleanups Sample.later_sweeps
              (runCleanup (fun _ => false) Sample.blob_outage 2000
                 Sample.site_store)))) =
    Some {| id := "shot-1"; bucket := "screenshots";
            storageKey := "2024/05/01/shot-1.png";
            expiresAt := 1000; Cleanup.status := expired |}.
Proof.
  destruct (failed_deletion_is_never_retried
              (fun _ => false) Sample.blob_outage 2000 Sample.site_store
              {| id := "shot-1"; bucket := "screenshots";
                 storageKey := "2024/05/01/shot-1.png";
                 expiresAt := 1000; Cleanup.status := completed |}
              ltac:(repeat constructor; simpl; intuition discriminate)
              ltac:(left; reflexivity) eq_refl eq_refl
              ltac:(left; reflexivity)
              ltac:(intros b [<-|[<-|[<-|[<-|[]]]]] Heq;
                    [reflexivity | discriminate Heq..])
              Sample.later_sweeps) as (Hblob & _ & _ & Halone).
  split; [exact Hblob | apply Halone; reflexivity].
Defined.
(** X22. A screenshot marked for deletion is never swept.  DELETE
    without [immediate] sets the row to [expired] and answers 200.  After
    any number of later runs of the sweep, whatever their instants and
    whatever calls reject in their loops: no run has removed the blob
    and none selects the row; GET answers 410 while the row is there and
    404 once the cascade of a site capture has taken it, never the
    metadata; and the row of a screenshot outside any site capture
    stays, [expired], for good. *)
Theorem marked_for_deletion_is_never_swept
    (f : faults) (i : string) (r : Screenshot) (st : state) :
  List.NoDup (List.map id (screenshots (db st))) ->
  UUID_REGEX_test i = true ->
  lookup_id (uuid i) (screenshots (db st)) = Some r ->
  updateScreenshotStatus_fails f (uuid i) = false ->
  In (bucket r, storageKey r) (blobs st) ->
  (forall a, In a (screenshots (db st)) ->
     (bucket a, storageKey a) = (bucket r, storageKey r) -> id a = uuid i) ->
  fst (deleteScreenshotRoute f false i st) = Success "Screenshot marked for deletion" /\
  forall runs,
    let st' := runCleanups runs (snd (deleteScreenshotRoute f false i st)) in
    In (bucket r, storageKey r) (blobs st') /\
    (forall now selected,
       In selected (getExpiredScreenshots now (screenshots (db st'))) ->
       id selected <> uuid i) /\
    (forall now,
       getScreenshotRoute i now (screenshots (db st')) = Gone "Screenshot has expired" \/
       getScreenshotRoute i now (screenshots (db st')) = NotFound) /\
    (site_capture_id (db st) (uuid i) = None ->
     lookup_id (uuid i) (screenshots (db st')) = Some (with_status expired r) /\
     forall now,
       getScreenshotRoute i now (screenshots (db st')) = Gone "Screenshot has expired").
Proof.
  intros Hkey Huuid Hrow Hupd Hblob Hown.
  unfold deleteScreenshotRoute. rewrite Huuid, Hrow, Hupd. cbn [negb fst snd].
  split; [reflexivity|]. intros runs.
  match goal with
  | |- context [runCleanups runs ?s1] =>
      assert (Hparked : parked (uuid i) (with_status expired r) (runCleanups runs s1));
      [|assert (Hcol : site_capture_id (db (runCleanups runs s1)) =
                       site_capture_id (db st))
          by (now rewrite runCleanups_column)]
  end.
  { apply parked_runCleanups; [discriminate|].
    assert (Hmarked : lookup_id (uuid i)
                        (updateScreenshotStatus (uuid i) expired (screenshots (db st)))
                      = Some (with_status expired r))
      by now apply CleanupProofs.lookup_id_update_same.
    constructor; cbn [with_screenshots db screenshots blobs site_capture_id
                      with_status bucket storageKey].
    - now rewrite CleanupProofs.map_id_update.
    - now left.
    - intros _. exact Hmarked.
    - exact Hblob.
    - intros a Ha Heq. apply SweepProofs.updateScreenshotStatus_origin in Ha.
      destruct Ha as (a0 & Ha0 & Hid0 & Hb0 & Hk0 & _). rewrite Hid0.
      apply Hown; [exact Ha0|]. congruence. }
  cbv zeta.
  destruct (parked_facts (uuid i) (with_status expired r) _ eq_refl Hparked)
    as (Hblob' & Hsel & Halone).
  destruct Hparked as [_ Hrow' _ _ _].
  split; [exact Hblob'|]. split; [exact Hsel|]. split.
  - intros now. unfold getScreenshotRoute. rewrite Huuid. cbn [negb].
    destruct Hrow' as [->| ->]; [left | right]; reflexivity.
  - intros Hnone. rewrite Hcol in Halone. specialize (Halone Hnone).
    split; [exact Halone|].
    intros now. unfold getScreenshotRoute. now rewrite Huuid, Halone.
Qed.

Lemma marked_for_deletion_is_never_swept_witness :
  fst (deleteScreenshotRoute Sample.no_faults false Sample.stored_shot_id
         Sample.one_shot_store)
  = Success "Screenshot marked for deletion" /\
  In ("screenshots", "2024/05/03/a-example.png")
    (blobs (runCleanups Sample.later_sweeps
              (snd (deleteScreenshotRoute Sample.no_faults false
                      Sample.stored_shot_id Sample.one_shot_store)))) /\
  getScreenshotRoute Sample.stored_shot_id 3000
    (screenshots
       (db (runCleanups Sample.later_sweeps
              (snd (deleteScreenshotRoute Sample.no_faults false
                      Sample.stored_shot_id Sample.one_shot_store)))))
  = Gone "Screenshot has expired".
Proof.
  destruct (marked_for_deletion_is_never_swept Sample.no_faults
              Sample.stored_shot_id Sample.stored_shot
              Sample.one_shot_store) as [Hreply Hlater].
  - repeat constructor. simpl. tauto.
  - vm_compute. reflexivity.
  - vm_compute. reflexivity.
  - reflexivity.
  - left. reflexivity.
  - intros a [<-|[]] _. vm_compute. reflexivity.
  - split; [exact Hreply|].
    destruct (Hlater Sample.later_sweeps) as (Hblob & _ & _ & Halone).
    split; [exact Hblob | apply Halone; reflexivity].
Defined.

(** The same request for a page of a site capture: the sweep at 5000
    deletes the capture, the cascade takes the row, GET answers 404, and
    the blob is left behind. *)
Example marked_page_is_cascaded_away :
  let st' := runCleanups Sample.later_sweeps
               (snd (deleteScreenshotRoute Sample.no_faults false
                       Sample.stored_shot_id Sample.one_page_store)) in
  getScreenshotRoute Sample.stored_shot_id 3000 (screenshots (db st')) = NotFound /\
  blobs st' = [("screenshots", "2024/05/03/a-example.png")].
Proof. vm_compute. split; reflexivity. Qed.

End RouteProofs.
